(** * bbsfw: admission pipeline, address utilities, encoding detection and
    SSH bridge, embedded from the JavaScript sources

  Definitions come first, one module per source file:
  - [JS]       the fragment of JavaScript semantics the code relies on
               (32-bit integer operators, [parseInt], [split], case mapping);
  - [Config] (a record), the settings object of config.js, and [cleanIp],
               the address normalisation shared by ipfilter.js and geoip.js;
  - [IpFilter] ipfilter.js ([ipToInt], [ipMatchesCIDR], class [IPFilter]);
  - [GeoIP]    geoip.js (class [GeoIPLookup]);
  - [EncodingDetector] encoding-detector.js;
  - [Proxy]    proxy.js (class [ProxyConnection], admission part);
  - [Ssh]      ssh.js (connection check, session handlers, shell bridge);
  - [Server]   server.js (class [BBSFirewall], connection counter), as an
               event system over the handlers above;
  - [Pump]     proxy.js (class [ProxyConnection], the byte pump and its
               teardown), as an event system over the socket handlers;
  - [ConfigJs] config.js (the settings as read from the environment,
               [validateConfig]);
  - [Logger]   logger.js.
  The properties follow, grouped by subsystem.

  Conventions.  Methods that change an object take the object and return
  its successor.  [Date.now()] is a parameter: every call site has its own
  reading, so nothing is assumed about how the clock moves during a call.
  Event handlers are functions on the state they close over; sequences of
  events are folded over them.  Logging calls are left out of the other
  modules: [logger] only writes to the console and never feeds back into
  the state. *)

From Stdlib Require Import ZArith Ascii String List Bool Lia.
From Stdlib Require Import Numbers.DecimalString.
From stdpp Require Import base gmap strings list.

Local Open Scope string_scope.
Local Open Scope Z_scope.

(* ===================================================================== *)
(** ** JavaScript primitives *)
(* ===================================================================== *)

Module JS.

(** Strings are sequences of ASCII characters: addresses, locale names,
    terminal types and country codes are, and so is every literal the
    sources compare them against.  [isAscii] says that a string has no
    character outside that range.  The case mappings below are
    JavaScript's on such strings and leave any other character as it is;
    JavaScript itself maps some characters beyond ASCII to ASCII letters
    (U+017F to S, U+212A to k), so a property that relies on what
    [toUpperCase] or [toLowerCase] do to characters they do not know
    carries [isAscii] as a hypothesis. *)

Definition is_ascii_char (c : ascii) : bool := (nat_of_ascii c <? 128)%nat.

Fixpoint isAscii (s : string) : bool :=
  match s with
  | EmptyString => true
  | String c r => is_ascii_char c && isAscii r
  end.

Definition is_upper (c : ascii) : bool :=
  let n := nat_of_ascii c in (65 <=? n)%nat && (n <=? 90)%nat.

Definition is_lower (c : ascii) : bool :=
  let n := nat_of_ascii c in (97 <=? n)%nat && (n <=? 122)%nat.

Definition upper_char (c : ascii) : ascii :=
  if is_lower c then ascii_of_nat (nat_of_ascii c - 32) else c.

Definition lower_char (c : ascii) : ascii :=
  if is_upper c then ascii_of_nat (nat_of_ascii c + 32) else c.

(** [String.prototype.toUpperCase] / [toLowerCase]. *)
Fixpoint toUpperCase (s : string) : string :=
  match s with
  | EmptyString => EmptyString
  | String c r => String (upper_char c) (toUpperCase r)
  end.

Fixpoint toLowerCase (s : string) : string :=
  match s with
  | EmptyString => EmptyString
  | String c r => String (lower_char c) (toLowerCase r)
  end.

(** [s.startsWith(p)], and its variant under the [/i] flag of a regular
    expression, which compares characters after canonicalisation to upper
    case. *)
Fixpoint startsWith (p s : string) : bool :=
  match p, s with
  | EmptyString, _ => true
  | String a p', String b s' => if Ascii.eqb a b then startsWith p' s' else false
  | String _ _, EmptyString => false
  end.

Fixpoint startsWith_ci (p s : string) : bool :=
  match p, s with
  | EmptyString, _ => true
  | String a p', String b s' =>
      if Ascii.eqb (upper_char a) (upper_char b) then startsWith_ci p' s' else false
  | String _ _, EmptyString => false
  end.

Fixpoint drop (n : nat) (s : string) : string :=
  match n, s with
  | O, _ => s
  | S n', String _ r => drop n' r
  | S _, EmptyString => EmptyString
  end.

(** [hay.includes(needle)]. *)
Fixpoint includes (hay needle : string) : bool :=
  if startsWith needle hay then true
  else match hay with
       | EmptyString => false
       | String _ r => includes r needle
       end.

(** [s.split(c)] for a one-character separator. *)
Fixpoint split (sep : ascii) (s : string) : list string :=
  match s with
  | EmptyString => [EmptyString]
  | String c r =>
      if Ascii.eqb c sep then EmptyString :: split sep r
      else match split sep r with
           | [] => [String c EmptyString]
           | h :: t => String c h :: t
           end
  end.

(** Numbers.  Every number the modelled code computes is an integer or
    [NaN] ([parseInt] of a string without digits).  Integers are exact
    as long as they stay below 2^53, which all values met here do. *)
Inductive number : Type :=
| Num (z : Z)
| NaN.

Definition number_eqb (a b : number) : bool :=
  match a, b with
  | Num x, Num y => x =? y
  | _, _ => false        (* NaN === NaN is false *)
  end.

Definition add (a b : number) : number :=
  match a, b with
  | Num x, Num y => Num (x + y)
  | _, _ => NaN
  end.

Definition sub (a b : number) : number :=
  match a, b with
  | Num x, Num y => Num (x - y)
  | _, _ => NaN
  end.

(** [a >= b] and [a > b]: false as soon as one side is [NaN]. *)
Definition ge (a b : number) : bool :=
  match a, b with
  | Num x, Num y => y <=? x
  | _, _ => false
  end.

Definition gt (a b : number) : bool :=
  match a, b with
  | Num x, Num y => y <? x
  | _, _ => false
  end.

(** ToUint32 and ToInt32. *)
Definition ToUint32 (a : number) : Z :=
  match a with
  | Num z => z mod 2 ^ 32
  | NaN => 0
  end.

Definition wrap_int32 (z : Z) : Z :=
  let u := z mod 2 ^ 32 in
  if u <? 2 ^ 31 then u else u - 2 ^ 32.

Definition ToInt32 (a : number) : Z :=
  match a with
  | Num z => wrap_int32 z
  | NaN => 0
  end.

(** [a << b]: the shift count is taken modulo 32. *)
Definition shl (a b : number) : number :=
  Num (wrap_int32 (Z.shiftl (ToInt32 a) (ToUint32 b mod 32))).

(** [a >>> b]. *)
Definition ushr (a b : number) : number :=
  Num (Z.shiftr (ToUint32 a) (ToUint32 b mod 32)).

(** [~a]. *)
Definition bitnot (a : number) : number :=
  Num (Z.lnot (ToInt32 a)).

(** [a & b]. *)
Definition band (a b : number) : number :=
  Num (Z.land (ToInt32 a) (ToInt32 b)).

(** [parseInt(s, 10)]: skip leading white space, read an optional sign,
    then the longest prefix of decimal digits; [NaN] when there is none. *)
Definition is_space (c : ascii) : bool :=
  let n := nat_of_ascii c in
  ((9 <=? n)%nat && (n <=? 13)%nat) || (n =? 32)%nat.

Definition digit_of (c : ascii) : option Z :=
  let n := nat_of_ascii c in
  if (48 <=? n)%nat && (n <=? 57)%nat then Some (Z.of_nat (n - 48)) else None.

Fixpoint skip_spaces (s : string) : string :=
  match s with
  | String c r => if is_space c then skip_spaces r else s
  | EmptyString => s
  end.

Fixpoint read_digits (acc : Z) (s : string) : Z :=
  match s with
  | String c r =>
      match digit_of c with
      | Some d => read_digits (10 * acc + d) r
      | None => acc
      end
  | EmptyString => acc
  end.

Definition parse_unsigned (s : string) : number :=
  match s with
  | String c _ =>
      match digit_of c with
      | Some _ => Num (read_digits 0 s)
      | None => NaN
      end
  | EmptyString => NaN
  end.

Definition parseInt (s : string) : number :=
  match skip_spaces s with
  | String "-"%char r =>
      match parse_unsigned r with
      | Num z => Num (- z)
      | NaN => NaN
      end
  | String "+"%char r => parse_unsigned r
  | t => parse_unsigned t
  end.

(** [s.trim()], for the white space [is_space] recognises. *)
Fixpoint rev_string (acc s : string) : string :=
  match s with
  | EmptyString => acc
  | String c r => rev_string (String c acc) r
  end.

Definition trim (s : string) : string :=
  rev_string EmptyString (skip_spaces (rev_string EmptyString (skip_spaces s))).

(** Decimal rendering of an integer, as template literals and
    [Number.prototype.toString] produce it. *)
Definition toString (z : Z) : string :=
  NilZero.string_of_int (Z.to_int z).

End JS.

(* ===================================================================== *)
(** ** config.js *)
(* ===================================================================== *)

(** The settings object.  [config.js] fills the numeric fields with
    [parseInt] of environment variables.  [maxConnections] and
    [connectionTimeout], which [validateConfig] never looks at, are the
    JavaScript numbers [parseInt] returns, [NaN] and negative values
    included.  The ports and the settings of the rate limiter are
    integers: what is proved about the code that reads them is proved for
    settings that are numbers.  The fields [encodingDetection],
    [backendPortUTF8] and [backendPortCP437] are read by proxy.js and
    encoding-detector.js but not declared in config.js, so they are plain
    fields of the record. *)
Record Config : Type := mkConfig {
  listenPort : Z;
  backendHost : string;
  backendPort : Z;
  maxConnections : JS.number;
  connectionTimeout : JS.number;
  blockedCountries : list string;
  blockUnknownCountries : bool;
  rateLimitEnabled : bool;
  maxConnectionsPerWindow : Z;
  rateLimitWindowMs : Z;
  rateLimitBlockDurationMs : Z;
  encodingDetection : bool;
  backendPortUTF8 : Z;
  backendPortCP437 : Z;
  sshEnabled : bool
}.

(* ===================================================================== *)
(** ** Address normalisation *)
(* ===================================================================== *)

(** [ipAddress.replace(/^::ffff:/i, '')]: the expression that ipfilter.js
    and geoip.js both bind to a local [cleanIp].  The pattern is anchored
    and not global, so at most one occurrence is removed. *)
Definition cleanIp (ipAddress : string) : string :=
  if JS.startsWith_ci "::ffff:" ipAddress then JS.drop 7 ipAddress else ipAddress.

(* ===================================================================== *)
(** ** ipfilter.js *)
(* ===================================================================== *)

Module IpFilter.
Import JS.

(** [ipToInt]: [None] is the [null] returned when the string does not
    split into four parts. *)
Definition ipToInt (ip : string) : option number :=
  let parts := split "." ip in
  if (length parts =? 4)%nat
  then Some (ushr (fold_left (fun acc part => add (shl acc (Num 8)) (parseInt part))
                             parts (Num 0))
                  (Num 0))
  else None.

(** [ipMatchesCIDR].  The destructuring [[range, bits] = cidr.split('/')]
    leaves [bits] undefined when there is no slash; [!bits] is also true
    for the empty string. *)
Definition ipMatchesCIDR (ip cidr : string) : bool :=
  match split "/" cidr with
  | range :: bits :: _ =>
      if String.eqb bits EmptyString then String.eqb ip cidr
      else
        match ipToInt ip, ipToInt range with
        | Some ipInt, Some rangeInt =>
            let mask := ushr (shl (bitnot (Num 0)) (sub (Num 32) (parseInt bits))) (Num 0) in
            number_eqb (band ipInt mask) (band rangeInt mask)
        | _, _ => String.eqb ip cidr
        end
  | _ => String.eqb ip cidr
  end.

(** Values of the [blockedIPs] map. *)
Record BlockInfo : Type := mkBlockInfo {
  blockedUntil : Z;
  blockReason : string;
  blockedAt : Z
}.

(** The fields of an [IPFilter] instance ([cleanupInterval] is a timer
    handle and carries no data). *)
Record IPFilter : Type := mkIPFilter {
  config : Config;
  blocklist : gset string;
  whitelist : gset string;
  connectionAttempts : gmap string (list Z);
  blockedIPs : gmap string BlockInfo
}.

(** [new IPFilter(config)]. *)
Definition newIPFilter (c : Config) : IPFilter :=
  mkIPFilter c ∅ ∅ ∅ ∅.

Definition set_blocklist (b : gset string) (f : IPFilter) : IPFilter :=
  mkIPFilter (config f) b (whitelist f) (connectionAttempts f) (blockedIPs f).

Definition set_whitelist (wl : gset string) (f : IPFilter) : IPFilter :=
  mkIPFilter (config f) (blocklist f) wl (connectionAttempts f) (blockedIPs f).

(** The loop shared by [loadWhitelist] and [loadBlocklist]: every line of
    the file, trimmed, that is neither empty nor a [#] comment is added
    to the set. *)
Definition addEntries (content : string) (entries : gset string) : gset string :=
  fold_left (fun acc line =>
               let trimmed := trim line in
               if String.eqb trimmed EmptyString || startsWith "#" trimmed then acc
               else acc ∪ {[trimmed]})
            (split "010" content) entries.

(** [loadWhitelist] / [loadBlocklist]; [None] is a file that does not
    exist or cannot be read (the error is logged and nothing changes). *)
Definition loadWhitelist (content : option string) (f : IPFilter) : IPFilter :=
  match content with
  | Some c => set_whitelist (addEntries c (whitelist f)) f
  | None => f
  end.

Definition loadBlocklist (content : option string) (f : IPFilter) : IPFilter :=
  match content with
  | Some c => set_blocklist (addEntries c (blocklist f)) f
  | None => f
  end.

(** [reloadBlocklist()], for a filter whose [blocklistPath] is set. *)
Definition reloadBlocklist (content : option string) (f : IPFilter) : IPFilter :=
  loadBlocklist content (set_blocklist ∅ f).

Definition set_connectionAttempts (m : gmap string (list Z)) (f : IPFilter) : IPFilter :=
  mkIPFilter (config f) (blocklist f) (whitelist f) m (blockedIPs f).

Definition set_blockedIPs (m : gmap string BlockInfo) (f : IPFilter) : IPFilter :=
  mkIPFilter (config f) (blocklist f) (whitelist f) (connectionAttempts f) m.

(** The guard [!ipAddress || typeof ipAddress !== 'string']: on strings it
    holds exactly of the empty one. *)
Definition invalidIp (ipAddress : string) : bool := String.eqb ipAddress EmptyString.

(** [isIPWhitelisted] and [isIPInBlocklist]: the two [Set.has] tests, then
    the loop over the entries, which returns [true] at the first entry
    that matches (so its result does not depend on the iteration order). *)
Definition isIPWhitelisted (f : IPFilter) (ipAddress : string) : bool :=
  if invalidIp ipAddress then false
  else
    let clean := cleanIp ipAddress in
    if bool_decide (clean ∈ whitelist f) then true
    else if bool_decide (ipAddress ∈ whitelist f) then true
    else existsb (fun entry => ipMatchesCIDR clean entry) (elements (whitelist f)).

Definition isIPInBlocklist (f : IPFilter) (ipAddress : string) : bool :=
  if invalidIp ipAddress then false
  else
    let clean := cleanIp ipAddress in
    if bool_decide (clean ∈ blocklist f) then true
    else if bool_decide (ipAddress ∈ blocklist f) then true
    else existsb (fun entry => ipMatchesCIDR clean entry) (elements (blocklist f)).

(** The readings of [Date.now()] one call of [shouldAllowConnection] can
    take, one per call site: in [isIPBlocked], in
    [recordConnectionAttempt], and the two in [blockIP]. *)
Record Ticks : Type := mkTicks {
  tick_isIPBlocked : Z;
  tick_record : Z;
  tick_blockedUntil : Z;
  tick_blockedAt : Z
}.

(** [blockIP(ipAddress, durationMs, reason)]. *)
Definition blockIP (f : IPFilter) (ipAddress : string) (durationMs : Z)
    (reason : string) (tk : Ticks) : IPFilter :=
  let clean := cleanIp ipAddress in
  let until := tick_blockedUntil tk + durationMs in
  set_blockedIPs (<[clean := mkBlockInfo until reason (tick_blockedAt tk)]> (blockedIPs f)) f.

(** [recordConnectionAttempt]: the result is [undefined] ([None]) when
    rate limiting is off, else a boolean. *)
Definition recordConnectionAttempt (f : IPFilter) (ipAddress : string) (tk : Ticks)
    : option bool * IPFilter :=
  if negb (rateLimitEnabled (config f)) then (None, f)
  else if invalidIp ipAddress then (Some false, f)
  else
    let now := tick_record tk in
    let clean := cleanIp ipAddress in
    let attempts := (default [] (connectionAttempts f !! clean) ++ [now])%list in
    let windowStart := now - rateLimitWindowMs (config f) in
    let recentAttempts := filter (fun time => windowStart < time) attempts in
    let f1 := set_connectionAttempts (<[clean := recentAttempts]> (connectionAttempts f)) f in
    if maxConnectionsPerWindow (config f) <? Z.of_nat (length recentAttempts)
    then (Some true,
          blockIP f1 clean (rateLimitBlockDurationMs (config f))
            ("Rate limit exceeded: " +:+ toString (Z.of_nat (length recentAttempts))
               +:+ " connections in " +:+ toString (rateLimitWindowMs (config f)) +:+ "ms")
            tk)
    else (Some false, f1).

(** Result object of [isIPBlocked]. *)
Record BlockCheck : Type := mkBlockCheck {
  blocked : bool;
  checkReason : option string;
  temporary : option bool
}.

Definition isIPBlocked (f : IPFilter) (ipAddress : string) (tk : Ticks)
    : BlockCheck * IPFilter :=
  if invalidIp ipAddress then (mkBlockCheck false None None, f)
  else
    let clean := cleanIp ipAddress in
    let permanent (g : IPFilter) :=
      if isIPInBlocklist g ipAddress
      then (mkBlockCheck true (Some "IP in blocklist") (Some false), g)
      else (mkBlockCheck false None None, g) in
    match blockedIPs f !! clean with
    | Some blockInfo =>
        if tick_isIPBlocked tk <? blockedUntil blockInfo
        then (mkBlockCheck true (Some (blockReason blockInfo)) (Some true), f)
        else permanent (set_blockedIPs (delete clean (blockedIPs f)) f)
    | None => permanent f
    end.

(** Result object of [shouldAllowConnection]: [whitelisted] and [reason]
    are absent ([None]) on the paths that do not set them. *)
Record FilterResult : Type := mkFilterResult {
  allowed : bool;
  whitelisted : option bool;
  reason : option string
}.

Definition shouldAllowConnection (f : IPFilter) (ipAddress : string) (tk : Ticks)
    : FilterResult * IPFilter :=
  if invalidIp ipAddress then (mkFilterResult false None (Some "Invalid IP address"), f)
  else if isIPWhitelisted f ipAddress then (mkFilterResult true (Some true) None, f)
  else
    let '(blockCheck, f1) := isIPBlocked f ipAddress tk in
    if blocked blockCheck then (mkFilterResult false None (checkReason blockCheck), f1)
    else
      let '(rateLimitExceeded, f2) := recordConnectionAttempt f1 ipAddress tk in
      match rateLimitExceeded with
      | Some true => (mkFilterResult false None (Some "Rate limit exceeded"), f2)
      | _ => (mkFilterResult true None None, f2)
      end.

(** [cleanupOldAttempts], the janitor run once a minute. *)
Definition cleanupOldAttempts (f : IPFilter) (now : Z) : IPFilter :=
  let windowStart := now - rateLimitWindowMs (config f) in
  let attempts' :=
    omap (fun attempts : list Z =>
            match filter (fun time => windowStart < time) attempts with
            | [] => None
            | recent => Some recent
            end) (connectionAttempts f) in
  let blocked' := filter (fun kv : string * BlockInfo => now < blockedUntil (snd kv)) (blockedIPs f) in
  set_blockedIPs blocked' (set_connectionAttempts attempts' f).

(** Successive calls of [shouldAllowConnection] for one address, each
    with its own clock readings; the decisions come back in call order. *)
Fixpoint shouldAllowConnection_seq (f : IPFilter) (ipAddress : string) (tks : list Ticks)
    : list FilterResult * IPFilter :=
  match tks with
  | [] => ([], f)
  | tk :: rest =>
      let '(d, f1) := shouldAllowConnection f ipAddress tk in
      let '(ds, f2) := shouldAllowConnection_seq f1 ipAddress rest in
      (d :: ds, f2)
  end.

(** Whether a temporary block for the address is still active at time
    [t]: the test [isIPBlocked] makes on the entry it finds. *)
Definition temporarilyBlockedAt (f : IPFilter) (ipAddress : string) (t : Z) : bool :=
  match blockedIPs f !! cleanIp ipAddress with
  | Some blockInfo => t <? blockedUntil blockInfo
  | None => false
  end.

(** The result objects [shouldAllowConnection] builds, and the reason
    string [recordConnectionAttempt] passes to [blockIP] when [n] attempts
    were counted. *)
Definition allowedPlain : FilterResult := mkFilterResult true None None.

Definition allowedWhitelisted : FilterResult := mkFilterResult true (Some true) None.

Definition denied (why : string) : FilterResult := mkFilterResult false None (Some why).

Definition rateReason (f : IPFilter) (n : Z) : string :=
  "Rate limit exceeded: " +:+ toString n +:+ " connections in "
    +:+ toString (rateLimitWindowMs (config f)) +:+ "ms".

End IpFilter.

(* ===================================================================== *)
(** ** IPv4 literals *)
(* ===================================================================== *)

(** The vocabulary in which properties of [ipMatchesCIDR] are stated:
    dotted-quad literals, the 32-bit big-endian integer they denote, and
    entries in [A.B.C.D/N] form. *)
Definition octet (o : Z) : Prop := 0 <= o < 256.

Definition ipv4 (a b c d : Z) : string :=
  JS.toString a +:+ "." +:+ JS.toString b +:+ "." +:+ JS.toString c +:+ "."
    +:+ JS.toString d.

Definition ipv4_value (a b c d : Z) : Z := a * 2 ^ 24 + b * 2 ^ 16 + c * 2 ^ 8 + d.

Definition cidrEntry (base : string) (N : Z) : string := base +:+ "/" +:+ JS.toString N.

(** The mask expression of [ipMatchesCIDR] for a prefix length that
    [parseInt] read as [N]. *)
Definition maskOf (N : Z) : JS.number :=
  JS.ushr (JS.shl (JS.bitnot (JS.Num 0)) (JS.sub (JS.Num 32) (JS.Num N))) (JS.Num 0).

Fixpoint no_char (c : ascii) (s : string) : bool :=
  match s with
  | EmptyString => true
  | String a r => negb (Ascii.eqb a c) && no_char c r
  end.

(** Checks run over all octets, resp. all prefix lengths: the decimal
    rendering parses back, contains no separator, is not empty and does
    not start with a colon; the
    mask, as a signed 32-bit integer, is [-2^(32-N)], except for [N = 0]
    where it is [-1]. *)
Definition small_ok (n : nat) : bool :=
  let s := JS.toString (Z.of_nat n) in
  JS.number_eqb (JS.parseInt s) (JS.Num (Z.of_nat n)) && no_char "." s && no_char "/" s
  && negb (String.eqb s EmptyString) && negb (JS.startsWith_ci ":" s).

Definition mask_ok (n : nat) : bool :=
  JS.ToInt32 (maskOf (Z.of_nat n))
  =? - 2 ^ (if (n =? 0)%nat then 0 else 32 - Z.of_nat n).

(* ===================================================================== *)
(** ** geoip.js *)
(* ===================================================================== *)

Module GeoIP.
Import JS.

(** What [reader.get] of the maxmind library hands back: the parts of a
    country record that [lookup] reads.  The reader itself is external;
    it is a function from addresses to either a thrown exception or a
    (possibly missing) record. *)
Record Names : Type := mkNames { en : option string }.

Record Country : Type := mkCountry {
  iso_code : option string;
  names : option Names
}.

Record CountryResponse : Type := mkCountryResponse { country : option Country }.

Inductive GetResult : Type :=
| Thrown
| Returned (r : option CountryResponse).

Record GeoIPLookup : Type := mkGeoIPLookup {
  reader : option (string -> GetResult);
  isEnabled : bool
}.

Record GeoInfo : Type := mkGeoInfo {
  ip : string;
  countryCode : option string;
  countryName : option string
}.

(** [x || null] on an optional string: the empty string is falsy. *)
Definition orNull (x : option string) : option string :=
  match x with
  | Some s => if String.eqb s EmptyString then None else Some s
  | None => None
  end.

Definition lookup (g : GeoIPLookup) (ipAddress : string) : option GeoInfo :=
  if negb (isEnabled g) then None
  else
    match reader g with
    | None => None
    | Some get =>
        match get (cleanIp ipAddress) with
        | Thrown => None
        | Returned (Some {| country := Some c |}) =>
            Some (mkGeoInfo ipAddress (orNull (iso_code c))
                    (match names c with Some n => en n | None => None end))
        | Returned _ => None
        end
    end.

(** [list.includes(x)] on an array of strings. *)
Definition includes_str (l : list string) (x : string) : bool :=
  existsb (String.eqb x) l.

Definition isCountryBlocked (g : GeoIPLookup) (ipAddress : string)
    (blockedCountries : list string) : bool :=
  if negb (isEnabled g) || (length blockedCountries =? 0)%nat then false
  else
    match lookup g ipAddress with
    | Some {| countryCode := Some code |} => includes_str blockedCountries (toUpperCase code)
    | _ => false
    end.

Definition getCountryInfo (g : GeoIPLookup) (ipAddress : string) : option GeoInfo :=
  lookup g ipAddress.

(** The country code determined for an address, if any. *)
Definition countryOf (g : GeoIPLookup) (ipAddress : string) : option string :=
  match getCountryInfo g ipAddress with
  | Some info => countryCode info
  | None => None
  end.

End GeoIP.

(* ===================================================================== *)
(** ** encoding-detector.js *)
(* ===================================================================== *)

Module EncodingDetector.
Import JS.

(** [detectFromSSHEnvironment(env)]; [None] is a missing [env] object. *)
Definition langVars : list string := ["LANG"; "LC_ALL"; "LC_CTYPE"].

Definition hasUtf8Indicator (value : string) : bool :=
  let upperValue := toUpperCase value in
  includes upperValue "UTF-8" || includes upperValue "UTF8".

Definition detectFromSSHEnvironment (env : option (gmap string string)) : string :=
  match env with
  | None => "cp437"
  | Some e =>
      if existsb (fun varName =>
                    match e !! varName with
                    | Some value => negb (String.eqb value EmptyString) && hasUtf8Indicator value
                    | None => false
                    end) langVars
      then "utf8"
      else "cp437"
  end.

Definition utf8Terminals : list string :=
  ["xterm-256color"; "xterm-color"; "xterm"; "screen-256color"; "screen";
   "rxvt-unicode"; "konsole"; "gnome"; "linux"; "vt220"; "vt100"].

Definition cp437Terminals : list string :=
  ["ansi"; "ansi-bbs"; "ansi-mono"; "ansi-color"; "pcansi"; "scoansi"].

Definition detectFromTerminalType (termType : option string) : string :=
  match termType with
  | None => "cp437"
  | Some t =>
      if String.eqb t EmptyString then "cp437"
      else
        let term := toLowerCase t in
        if existsb (fun utf8Term => includes term utf8Term) utf8Terminals then "utf8"
        else if existsb (fun cp437Term => includes term cp437Term) cp437Terminals then "cp437"
        else "cp437"
  end.

Definition detectFromTelnetNegotiation (termType : option string) : string :=
  detectFromTerminalType termType.

Definition getBackendPortForEncoding (encoding : string) (cfg : Config) : Z :=
  if negb (encodingDetection cfg) then backendPort cfg
  else if String.eqb encoding "utf8" then backendPortUTF8 cfg
  else backendPortCP437 cfg.

End EncodingDetector.

(* ===================================================================== *)
(** ** proxy.js *)
(* ===================================================================== *)

Module Proxy.
Import JS.

(** The two process-wide singletons the proxy reaches through
    [getIPFilter()] and [getGeoIP()]; [None] before initialisation. *)
Record Singletons : Type := mkSingletons {
  ipFilter : option IpFilter.IPFilter;
  geoip : option GeoIP.GeoIPLookup
}.

(** [ProxyConnection.shouldBlockConnection(ipAddress)]. *)
Definition shouldBlockConnection (cfg : Config) (geo : option GeoIP.GeoIPLookup)
    (ipAddress : string) : bool :=
  match geo with
  | None => false
  | Some g =>
      if negb (GeoIP.isEnabled g) then false
      else
        match GeoIP.getCountryInfo g ipAddress with
        | Some {| GeoIP.countryCode := Some code |} =>
            if (0 <? length (blockedCountries cfg))%nat
            then GeoIP.includes_str (blockedCountries cfg) (toUpperCase code)
            else false
        | _ => if blockUnknownCountries cfg then true else false
        end
  end.

(** How [ProxyConnection.connect()] ends: one of its three early returns
    (each calls [clientSocket.end()]), or the backend dial. *)
Inductive ConnectOutcome : Type :=
| NoClientAddress
| BlockedByIPFilter (reason : option string)
| BlockedByCountry
| DialBackend (host : string) (port : Z).

(** [this.detectedEncoding] is set in the constructor and never
    reassigned. *)
Definition detectedEncoding : string := "cp437".

(** [ProxyConnection.connect()], up to the creation of the backend
    connection.  [remoteAddress] is [clientSocket.remoteAddress]. *)
Definition connect (cfg : Config) (g : Singletons) (remoteAddress : option string)
    (backendHost : string) (backendPort : Z) (tk : IpFilter.Ticks)
    : ConnectOutcome * Singletons :=
  match remoteAddress with
  | None => (NoClientAddress, g)
  | Some clientIp =>
      if String.eqb clientIp EmptyString then (NoClientAddress, g)
      else
        let checkCountry (isWhitelisted : bool) (g' : Singletons) :=
          if negb isWhitelisted && shouldBlockConnection cfg (geoip g') clientIp
          then (BlockedByCountry, g')
          else
            let actualBackendPort :=
              if encodingDetection cfg
              then EncodingDetector.getBackendPortForEncoding detectedEncoding cfg
              else backendPort in
            (DialBackend backendHost actualBackendPort, g') in
        match ipFilter g with
        | None => checkCountry false g
        | Some f =>
            let '(filterResult, f') := IpFilter.shouldAllowConnection f clientIp tk in
            let g' := mkSingletons (Some f') (geoip g) in
            if negb (IpFilter.allowed filterResult)
            then (BlockedByIPFilter (IpFilter.reason filterResult), g')
            else checkCountry (default false (IpFilter.whitelisted filterResult)) g'
        end
  end.

(** The outcomes in which the IP filter or the country check turned the
    connection away. *)
Definition filteredOut (o : ConnectOutcome) : bool :=
  match o with
  | BlockedByIPFilter _ | BlockedByCountry => true
  | _ => false
  end.

Definition endsClient (o : ConnectOutcome) : bool :=
  match o with
  | DialBackend _ _ => false
  | _ => true
  end.

End Proxy.

(* ===================================================================== *)
(** ** ssh.js *)
(* ===================================================================== *)

Module Ssh.
Import JS.

(** The one-shot ['drain'] listeners the two data handlers install. *)
Inductive DrainAction : Type :=
| ResumeStream
| ResumeBackend.

(** One side of the bridge, the SSH channel stream or the backend socket,
    as a Node duplex stream: the flags the handlers test, the chunks that
    [write] accepted (in order), and the write buffer accounting that
    decides the return value of [write]. *)
Record Endpoint : Type := mkEndpoint {
  writable : bool;
  destroyed : bool;
  paused : bool;
  written : list (list Byte.byte);
  writableLength : Z;
  highWaterMark : Z;
  onceDrain : list DrainAction
}.

Definition newEndpoint (hwm : Z) : Endpoint :=
  mkEndpoint true false false [] 0 hwm [].

(** [e.write(data)]: the chunk is queued; the result is [false] once the
    buffered amount reaches the high-water mark. *)
Definition write (data : list Byte.byte) (e : Endpoint) : bool * Endpoint :=
  let len := writableLength e + Z.of_nat (length data) in
  (len <? highWaterMark e,
   mkEndpoint (writable e) (destroyed e) (paused e) (written e ++ [data])%list
              len (highWaterMark e) (onceDrain e)).

Definition set_paused (p : bool) (e : Endpoint) : Endpoint :=
  mkEndpoint (writable e) (destroyed e) p (written e)
             (writableLength e) (highWaterMark e) (onceDrain e).

Definition once_drain (a : DrainAction) (e : Endpoint) : Endpoint :=
  mkEndpoint (writable e) (destroyed e) (paused e) (written e)
             (writableLength e) (highWaterMark e) (onceDrain e ++ [a])%list.

(** [e.end()] closes the writable side; [e.destroy()] tears the stream
    down. *)
Definition end_ (e : Endpoint) : Endpoint :=
  mkEndpoint false (destroyed e) (paused e) (written e)
             (writableLength e) (highWaterMark e) (onceDrain e).

Definition destroy (e : Endpoint) : Endpoint :=
  mkEndpoint false true (paused e) (written e)
             (writableLength e) (highWaterMark e) (onceDrain e).

(** The closure of the shell handler: the two counters, the two
    endpoints, and where the backend socket was connected to. *)
Record Bridge : Type := mkBridge {
  bytesFromClient : Z;
  bytesFromBackend : Z;
  stream : Endpoint;
  backendSocket : Endpoint;
  connectedTo : string * Z
}.

Definition set_stream (e : Endpoint) (b : Bridge) : Bridge :=
  mkBridge (bytesFromClient b) (bytesFromBackend b) e (backendSocket b) (connectedTo b).

Definition set_backendSocket (e : Endpoint) (b : Bridge) : Bridge :=
  mkBridge (bytesFromClient b) (bytesFromBackend b) (stream b) e (connectedTo b).

Definition add_bytesFromClient (n : Z) (b : Bridge) : Bridge :=
  mkBridge (bytesFromClient b + n) (bytesFromBackend b) (stream b) (backendSocket b)
           (connectedTo b).

Definition add_bytesFromBackend (n : Z) (b : Bridge) : Bridge :=
  mkBridge (bytesFromClient b) (bytesFromBackend b + n) (stream b) (backendSocket b)
           (connectedTo b).

(** [stream.on('data', ...)]: SSH stream -> backend socket. *)
Definition stream_on_data (data : list Byte.byte) (b : Bridge) : Bridge :=
  let b1 := add_bytesFromClient (Z.of_nat (length data)) b in
  if negb (writable (backendSocket b1)) || destroyed (backendSocket b1) then b1
  else
    let '(ok, be) := write data (backendSocket b1) in
    let needsDrain := negb ok in
    if needsDrain
    then set_backendSocket (once_drain ResumeStream be)
           (set_stream (set_paused true (stream b1)) b1)
    else set_backendSocket be b1.

(** [backendSocket.on('data', ...)]: backend socket -> SSH stream. *)
Definition backend_on_data (data : list Byte.byte) (b : Bridge) : Bridge :=
  let b1 := add_bytesFromBackend (Z.of_nat (length data)) b in
  if negb (writable (stream b1)) || destroyed (stream b1) then b1
  else
    let '(ok, se) := write data (stream b1) in
    let needsDrain := negb ok in
    if needsDrain
    then set_stream (once_drain ResumeBackend se)
           (set_backendSocket (set_paused true (backendSocket b1)) b1)
    else set_stream se b1.

(** The bodies of the ['drain'] listeners. *)
Definition runDrain (b : Bridge) (a : DrainAction) : Bridge :=
  match a with
  | ResumeStream =>
      if destroyed (stream b) then b else set_stream (set_paused false (stream b)) b
  | ResumeBackend =>
      if destroyed (backendSocket b) then b
      else set_backendSocket (set_paused false (backendSocket b)) b
  end.

Definition drained (e : Endpoint) : Endpoint :=
  mkEndpoint (writable e) (destroyed e) (paused e) (written e) 0 (highWaterMark e) [].

(** ['drain'] on the backend socket, resp. on the stream: the buffer is
    empty again and the one-shot listeners run. *)
Definition backend_on_drain (b : Bridge) : Bridge :=
  fold_left runDrain (onceDrain (backendSocket b))
            (set_backendSocket (drained (backendSocket b)) b).

Definition stream_on_drain (b : Bridge) : Bridge :=
  fold_left runDrain (onceDrain (stream b)) (set_stream (drained (stream b)) b).

(** ['error'] and ['close'] of the backend socket both end the stream;
    ['close'] and ['error'] of the stream both destroy the backend socket
    unless it already is. *)
Definition backend_on_error (b : Bridge) : Bridge := set_stream (end_ (stream b)) b.
Definition backend_on_close (b : Bridge) : Bridge := set_stream (end_ (stream b)) b.

Definition stream_on_close (b : Bridge) : Bridge :=
  if destroyed (backendSocket b) then b
  else set_backendSocket (destroy (backendSocket b)) b.

Definition stream_on_error (b : Bridge) : Bridge :=
  if destroyed (backendSocket b) then b
  else set_backendSocket (destroy (backendSocket b)) b.

Inductive BridgeEvent : Type :=
| StreamData (data : list Byte.byte)
| BackendData (data : list Byte.byte)
| StreamDrain
| BackendDrain
| BackendError
| BackendClose
| StreamClose
| StreamError.

Definition bridge_on (b : Bridge) (ev : BridgeEvent) : Bridge :=
  match ev with
  | StreamData data => stream_on_data data b
  | BackendData data => backend_on_data data b
  | StreamDrain => stream_on_drain b
  | BackendDrain => backend_on_drain b
  | BackendError => backend_on_error b
  | BackendClose => backend_on_close b
  | StreamClose => stream_on_close b
  | StreamError => stream_on_error b
  end.

Definition bridge_run (b : Bridge) (evs : list BridgeEvent) : Bridge :=
  fold_left bridge_on evs b.


(** The shell handler: it accepts the channel, creates the backend socket
    and connects it to [config.backendPort] on [config.backendHost].
    [hwm] is the high-water mark of the two fresh streams. *)
Definition shell (cfg : Config) (hwm : Z) : Bridge :=
  mkBridge 0 0 (newEndpoint hwm) (newEndpoint hwm) (backendHost cfg, backendPort cfg).

(** Channel requests of one SSH session, with what ssh2 passes to the
    listener.  ssh2 calls every listener of a session with
    [(accept, reject, info)] ([info] is missing for ['shell']); [accept]
    and [reject] are functions only when the client asked for a reply.
    ssh.js registers listeners for ['pty'], ['window-change'], ['shell']
    and ['exec']; an ['env'] request reaches no listener. *)
Inductive Accept : Type :=
| NotAFunction       (* [typeof accept !== 'function'] *)
| ReturnsChannel     (* [accept()] returns the channel's stream *)
| ReturnsUndefined.  (* [accept()] returns nothing *)

Inductive SessionRequest : Type :=
| Env (name value : string)
| Pty (acceptIsFunction : bool) (term : string)
| WindowChange (acceptIsFunction : bool) (cols rows : Z)
| Shell (accept : Accept)
| Exec (rejectIsFunction : bool) (command : string).

(** [shells] are the bridges the session opened, as the shell handler
    left them.  [tornDown] says that a listener threw: the exception
    leaves the listener and reaches ssh2, which reports it as an
    ['error'] of the client and closes the connection, so that no later
    request of this client is served. *)
Record Session : Type := mkSession {
  ptyAccepted : nat;
  execRejected : nat;
  shells : list Bridge;
  tornDown : bool
}.

Definition newSession : Session := mkSession 0 0 [] false.

Definition throwTypeError (s : Session) : Session :=
  mkSession (ptyAccepted s) (execRejected s) (shells s) true.

(** The listeners.
    - ['window-change'] is declared [(info) => ...] and reads [info.cols]
      while building the log message: [info] is the first argument,
      [accept], and reading a property of [undefined] is a TypeError; on a
      function the property is just missing.
    - ['shell'] returns early unless [accept] is a function, then sets
      [stream.allowHalfOpen] on what [accept()] returned: a TypeError if
      that is [undefined].
    - ['exec'] calls [reject()] without testing it. *)
Definition session_on (cfg : Config) (hwm : Z) (s : Session) (r : SessionRequest) : Session :=
  if tornDown s then s
  else
    match r with
    | Env _ _ => s
    | Pty acceptIsFunction _ =>
        if acceptIsFunction
        then mkSession (S (ptyAccepted s)) (execRejected s) (shells s) (tornDown s)
        else s
    | WindowChange acceptIsFunction _ _ =>
        if acceptIsFunction then s else throwTypeError s
    | Shell NotAFunction => s
    | Shell ReturnsChannel =>
        mkSession (ptyAccepted s) (execRejected s) (shells s ++ [shell cfg hwm])%list
                  (tornDown s)
    | Shell ReturnsUndefined => throwTypeError s
    | Exec rejectIsFunction _ =>
        if rejectIsFunction
        then mkSession (ptyAccepted s) (S (execRejected s)) (shells s) (tornDown s)
        else throwTypeError s
    end.

Definition session_run (cfg : Config) (hwm : Z) (rs : list SessionRequest) : Session :=
  fold_left (session_on cfg hwm) rs newSession.

(** The ports the session's shell channels were dialed on. *)
Definition dialedPorts (s : Session) : list Z :=
  map (fun b => snd (connectedTo b)) (shells s).

(** What the client told the server about its locale and terminal: the
    inputs the encoding detector is written for. *)
Definition presentedEnv (rs : list SessionRequest) : gmap string string :=
  fold_left (fun e r => match r with Env n v => <[n := v]> e | _ => e end) rs ∅.

Definition presentedTerm (rs : list SessionRequest) : option string :=
  fold_left (fun t r => match r with Pty _ term => Some term | _ => t end) rs None.

(** The connection callback of [new ssh2.Server]: the IP filter check made
    before authentication.  The result says whether [client.end()] was
    called. *)
Definition clientIP (remoteAddress : option string) : string :=
  match remoteAddress with
  | Some a => if String.eqb a EmptyString then "unknown" else a
  | None => "unknown"
  end.

Definition onClient (f : option IpFilter.IPFilter) (remoteAddress : option string)
    (tk : IpFilter.Ticks) : bool * option IpFilter.IPFilter :=
  match f with
  | None => (false, None)
  | Some flt =>
      let '(accessCheck, flt') :=
        IpFilter.shouldAllowConnection flt (clientIP remoteAddress) tk in
      (negb (IpFilter.allowed accessCheck), Some flt')
  end.

(** The ['authentication'] listener: [true] for [ctx.accept()]. *)
Definition authentication (method : string) : bool :=
  String.eqb method "password" || String.eqb method "none".

End Ssh.

(* ===================================================================== *)
(** ** server.js *)
(* ===================================================================== *)

Module Server.

(** A client socket accepted by the TCP listener, with what
    [handleNewConnection] did to it. *)
Record ClientSocket : Type := mkClientSocket {
  remoteAddress : option string;
  endCalled : bool;
  timeout : option JS.number;
  countsClose : bool;
  handled : option Proxy.ConnectOutcome;
  closed : bool
}.

(** The [BBSFirewall] instance's counter, the sockets the TCP listener
    has produced, the clients the SSH listener has produced (each with its
    address and whether the connection callback of ssh.js called
    [client.end()]), and the singletons of ipfilter.js and geoip.js. *)
Record World : Type := mkWorld {
  activeConnections : Z;
  sockets : gmap nat ClientSocket;
  sshClients : list (string * bool);
  singletons : Proxy.Singletons
}.

Definition initial (g : Proxy.Singletons) : World := mkWorld 0 ∅ [] g.

(** What [handleNewConnection] leaves of a socket it turns away at the
    connection limit: [end()] called, no timeout, no ['close'] listener,
    never passed to [handleConnection]. *)
Definition turnedAway (addr : option string) : ClientSocket :=
  mkClientSocket addr true None false None false.

(** [handleNewConnection(clientSocket)] for the fresh socket [id]. *)
Definition handleNewConnection (cfg : Config) (w : World) (id : nat)
    (addr : option string) (tk : IpFilter.Ticks) : World :=
  if JS.ge (JS.Num (activeConnections w)) (maxConnections cfg)
  then
    mkWorld (activeConnections w)
            (<[id := turnedAway addr]> (sockets w))
            (sshClients w)
            (singletons w)
  else
    let count := activeConnections w + 1 in
    let tmo :=
      if JS.gt (connectionTimeout cfg) (JS.Num 0) then Some (connectionTimeout cfg)
      else None in
    let '(outcome, g) :=
      Proxy.connect cfg (singletons w) addr (backendHost cfg) (backendPort cfg) tk in
    mkWorld count
            (<[id := mkClientSocket addr (Proxy.endsClient outcome) tmo true
                                    (Some outcome) false]> (sockets w))
            (sshClients w)
            g.

(** The ['close'] event of socket [id]: the listener attached at the end
    of [handleNewConnection], if any, decrements the counter. *)
Definition onClose (w : World) (id : nat) : World :=
  match sockets w !! id with
  | Some s =>
      mkWorld (if countsClose s then activeConnections w - 1 else activeConnections w)
              (<[id := mkClientSocket (remoteAddress s) (endCalled s) (timeout s)
                                      (countsClose s) (handled s) true]> (sockets w))
              (sshClients w)
              (singletons w)
  | None => w
  end.

(** An SSH client reaching the SSH listener: the connection callback of
    ssh.js consults the IP filter and nothing else.  [startSSHServer] is
    handed the [BBSFirewall] instance as [activeConnectionsTracker] and
    does not use it. *)
Definition onSshClient (w : World) (addr : option string) (tk : IpFilter.Ticks) : World :=
  let '(ended, f) := Ssh.onClient (Proxy.ipFilter (singletons w)) addr tk in
  mkWorld (activeConnections w) (sockets w)
          (sshClients w ++ [(Ssh.clientIP addr, ended)])%list
          (Proxy.mkSingletons f (Proxy.geoip (singletons w))).

(** The janitor of the IP filter works on the singletons only. *)
Definition onJanitor (w : World) (now : Z) : World :=
  mkWorld (activeConnections w) (sockets w) (sshClients w)
          (Proxy.mkSingletons
             (option_map (fun f => IpFilter.cleanupOldAttempts f now)
                         (Proxy.ipFilter (singletons w)))
             (Proxy.geoip (singletons w))).

Inductive Event : Type :=
| Connection (id : nat) (addr : option string) (tk : IpFilter.Ticks)
| Close (id : nat)
| SshClient (addr : option string) (tk : IpFilter.Ticks)
| Janitor (now : Z).

(** A socket object is handed to the listener once, and Node emits
    ['close'] once per socket, after it was accepted.  SSH clients arrive
    only when [sshEnabled] is set; they are let in here whatever the
    settings, which adds states and removes none. *)
Definition enabled (w : World) (ev : Event) : Prop :=
  match ev with
  | Connection id _ _ => sockets w !! id = None
  | Close id => exists s, sockets w !! id = Some s /\ closed s = false
  | SshClient _ _ => True
  | Janitor _ => True
  end.

Definition fire (cfg : Config) (w : World) (ev : Event) : World :=
  match ev with
  | Connection id addr tk => handleNewConnection cfg w id addr tk
  | Close id => onClose w id
  | SshClient addr tk => onSshClient w addr tk
  | Janitor now => onJanitor w now
  end.

Inductive reachable (cfg : Config) (g : Proxy.Singletons) : World -> Prop :=
| reachable_initial : reachable cfg g (initial g)
| reachable_fire w ev :
    reachable cfg g w -> enabled w ev -> reachable cfg g (fire cfg w ev).

(** The sockets whose ['close'] listener is still to run. *)
Definition counted (kv : nat * ClientSocket) : Prop :=
  countsClose (snd kv) = true /\ closed (snd kv) = false.

#[global] Instance counted_dec kv : Decision (counted kv).
Proof. unfold counted. apply _. Defined.

Definition openCounted (w : World) : Z :=
  Z.of_nat (size (filter counted (sockets w))).

End Server.

(* ===================================================================== *)
(** ** Concrete settings and states used by the examples *)
(* ===================================================================== *)

(** A configuration with three connections per minute, a ten second
    block, country blocking of CN with unknown countries blocked, and
    distinct backend ports per encoding. *)
Definition cfgDemo : Config :=
  mkConfig 23 "127.0.0.1" 2323 (JS.Num 100) (JS.Num 300000) ["CN"] true true 3 60000 10000
           true 2324 2325 true.

(** An IP filter over [cfgDemo] with one blocklist range and one
    whitelist range, and no rate-limit state yet. *)
Definition filterDemo : IpFilter.IPFilter :=
  IpFilter.mkIPFilter cfgDemo {["10.0.0.0/24"]} {["192.168.0.0/16"]} ∅ ∅.

(** A call during which every [Date.now()] reads [t]. *)
Definition at_ (t : Z) : IpFilter.Ticks := IpFilter.mkTicks t t t t.

(** The filter after address 10.0.0.50 tripped the rate limit at
    [t = 3000] and the blocklist file, now naming that address, was
    reloaded. *)
Definition filterReloaded : IpFilter.IPFilter :=
  IpFilter.reloadBlocklist
    (Some "# abusive hosts
10.0.0.50
")
    (snd (IpFilter.shouldAllowConnection_seq (IpFilter.newIPFilter cfgDemo) "10.0.0.50"
            [at_ 0; at_ 1000; at_ 2000; at_ 3000])).

(** A database reader that knows two addresses, has no record for a
    third and fails on a fourth. *)
Definition readerDemo (ip : string) : GeoIP.GetResult :=
  if String.eqb ip "203.0.113.7"
  then GeoIP.Returned (Some (GeoIP.mkCountryResponse
         (Some (GeoIP.mkCountry (Some "cn") (Some (GeoIP.mkNames (Some "China")))))))
  else if String.eqb ip "198.51.100.9"
  then GeoIP.Returned (Some (GeoIP.mkCountryResponse
         (Some (GeoIP.mkCountry (Some "US") None))))
  else if String.eqb ip "192.0.2.1" then GeoIP.Returned None
  else GeoIP.Thrown.

Definition geoDemo : GeoIP.GeoIPLookup := GeoIP.mkGeoIPLookup (Some readerDemo) true.

Definition geoOff : GeoIP.GeoIPLookup := GeoIP.mkGeoIPLookup None false.

(** An SSH session whose client announces a UTF-8 locale and terminal
    before asking for a shell. *)
Definition utf8Requests : list Ssh.SessionRequest :=
  [Ssh.Env "LANG" "en_US.UTF-8"; Ssh.Pty true "xterm-256color"; Ssh.Shell Ssh.ReturnsChannel].


(** The server right after start-up, with both singletons initialised. *)
Definition worldDemo : Server.World :=
  Server.initial (Proxy.mkSingletons (Some filterDemo) (Some geoDemo)).

(** The same settings with room for a single connection, and the server
    after two clients connected from 198.51.100.9 one second apart. *)
Definition cfgOne : Config :=
  mkConfig 23 "127.0.0.1" 2323 (JS.Num 1) (JS.Num 300000) ["CN"] true true 3 60000 10000
           true 2324 2325 true.

Definition worldTwoArrivals : Server.World :=
  Server.fire cfgOne
    (Server.fire cfgOne worldDemo (Server.Connection 1 (Some "198.51.100.9") (at_ 0)))
    (Server.Connection 2 (Some "198.51.100.9") (at_ 1000)).

(* ===================================================================== *)
(** ** ipfilter.js: vocabulary for the janitor, the rate limiter and the
       list files *)
(* ===================================================================== *)

Section FilterVocabulary.
Import JS IpFilter.

(** What [cleanupOldAttempts] leaves of one address's list of attempts:
    the attempts after [windowStart], or nothing (the key is deleted)
    when none is left. *)
Definition pruneList (windowStart : Z) (attempts : list Z) : option (list Z) :=
  match filter (fun time => windowStart < time) attempts with
  | [] => None
  | recent => Some recent
  end.

(** The result object [shouldAllowConnection] returns once it has reached
    [recordConnectionAttempt]. *)
Definition afterRecord (g : IPFilter) (x : string) (tk : Ticks) : FilterResult :=
  fst (let '(rateLimitExceeded, f2) := recordConnectionAttempt g x tk in
       match rateLimitExceeded with
       | Some true => (mkFilterResult false None (Some "Rate limit exceeded"), f2)
       | _ => (mkFilterResult true None None, f2)
       end).

(** What [loadWhitelist] and [loadBlocklist] keep of one line of the
    file: the trimmed line, unless it is empty or a comment. *)
Definition keptLine (line : string) : option string :=
  let trimmed := trim line in
  if String.eqb trimmed EmptyString || startsWith "#" trimmed then None else Some trimmed.

(** [reloadWhitelist()], for a filter whose [whitelistPath] is set. *)
Definition reloadWhitelist (content : option string) (f : IPFilter) : IPFilter :=
  loadWhitelist content (set_whitelist ∅ f).

End FilterVocabulary.

(** The filter of [filterDemo] after three attempts from 198.51.100.9,
    one second apart. *)
Definition filterThreeAttempts : IpFilter.IPFilter :=
  snd (IpFilter.shouldAllowConnection_seq filterDemo "198.51.100.9"
         [at_ 0; at_ 1000; at_ 2000]).

(** The settings of [cfgDemo] with rate limiting switched off, and a
    filter over them with one blocklist range. *)
Definition cfgNoRate : Config :=
  mkConfig 23 "127.0.0.1" 2323 (JS.Num 100) (JS.Num 300000) ["CN"] true false 3 60000 10000
           true 2324 2325 true.

Definition filterNoRate : IpFilter.IPFilter :=
  IpFilter.mkIPFilter cfgNoRate {["10.0.0.0/24"]} ∅ ∅ ∅.

(** The settings of [cfgDemo] with a connection limit of 0, and the
    server after one client connected. *)
Definition cfgZero : Config :=
  mkConfig 23 "127.0.0.1" 2323 (JS.Num 0) (JS.Num 300000) ["CN"] true true 3 60000 10000
           true 2324 2325 true.

Definition worldRefused : Server.World :=
  Server.fire cfgZero worldDemo (Server.Connection 1 (Some "198.51.100.9") (at_ 0)).

(* ===================================================================== *)
(** ** proxy.js: the byte pump *)
(* ===================================================================== *)

Module Pump.

(** The part of a [ProxyConnection] that the handlers installed by
    [setupPipes], [setupErrorHandlers] and [setupCloseHandlers] work on,
    once [connect()] has created the backend socket.  The two sockets are
    Node duplex streams as in the SSH bridge; in the lists of one-shot
    ['drain'] listeners, [Ssh.ResumeStream] stands for the listener that
    resumes the client socket and [Ssh.ResumeBackend] for the one that
    resumes the backend socket.  [closeLog] collects the lines
    "Connection closed (reason: ...). Bytes: ..." that [cleanup] writes:
    the reason and the two counters. *)
Record ProxyConnection : Type := mkProxyConnection {
  clientSocket : Ssh.Endpoint;
  backendSocket : Ssh.Endpoint;
  bytesFromClient : Z;
  bytesFromBackend : Z;
  isCleanedUp : bool;
  closeLog : list (string * Z * Z)
}.

(** The state right after [connect()] set the handlers up. *)
Definition connected (hwm : Z) : ProxyConnection :=
  mkProxyConnection (Ssh.newEndpoint hwm) (Ssh.newEndpoint hwm) 0 0 false [].

(** [clientSocket.on('data', ...)]. *)
Definition client_on_data (data : list Byte.byte) (p : ProxyConnection) : ProxyConnection :=
  let count := bytesFromClient p + Z.of_nat (length data) in
  if negb (Ssh.destroyed (backendSocket p))
  then
    let '(ok, be) := Ssh.write data (backendSocket p) in
    if negb ok
    then mkProxyConnection (Ssh.set_paused true (clientSocket p))
                           (Ssh.once_drain Ssh.ResumeStream be)
                           count (bytesFromBackend p) (isCleanedUp p) (closeLog p)
    else mkProxyConnection (clientSocket p) be
                           count (bytesFromBackend p) (isCleanedUp p) (closeLog p)
  else mkProxyConnection (clientSocket p) (backendSocket p)
                         count (bytesFromBackend p) (isCleanedUp p) (closeLog p).

(** [backendSocket.on('data', ...)]. *)
Definition backend_on_data (data : list Byte.byte) (p : ProxyConnection) : ProxyConnection :=
  let count := bytesFromBackend p + Z.of_nat (length data) in
  if negb (Ssh.destroyed (clientSocket p))
  then
    let '(ok, ce) := Ssh.write data (clientSocket p) in
    if negb ok
    then mkProxyConnection (Ssh.once_drain Ssh.ResumeBackend ce)
                           (Ssh.set_paused true (backendSocket p))
                           (bytesFromClient p) count (isCleanedUp p) (closeLog p)
    else mkProxyConnection ce (backendSocket p)
                           (bytesFromClient p) count (isCleanedUp p) (closeLog p)
  else mkProxyConnection (clientSocket p) (backendSocket p)
                         (bytesFromClient p) count (isCleanedUp p) (closeLog p).

(** The bodies of the ['drain'] listeners: they resume the other socket
    without looking at its state. *)
Definition runDrain (p : ProxyConnection) (a : Ssh.DrainAction) : ProxyConnection :=
  match a with
  | Ssh.ResumeStream =>
      mkProxyConnection (Ssh.set_paused false (clientSocket p)) (backendSocket p)
                        (bytesFromClient p) (bytesFromBackend p) (isCleanedUp p) (closeLog p)
  | Ssh.ResumeBackend =>
      mkProxyConnection (clientSocket p) (Ssh.set_paused false (backendSocket p))
                        (bytesFromClient p) (bytesFromBackend p) (isCleanedUp p) (closeLog p)
  end.

Definition backend_on_drain (p : ProxyConnection) : ProxyConnection :=
  fold_left runDrain (Ssh.onceDrain (backendSocket p))
            (mkProxyConnection (clientSocket p) (Ssh.drained (backendSocket p))
               (bytesFromClient p) (bytesFromBackend p) (isCleanedUp p) (closeLog p)).

Definition client_on_drain (p : ProxyConnection) : ProxyConnection :=
  fold_left runDrain (Ssh.onceDrain (clientSocket p))
            (mkProxyConnection (Ssh.drained (clientSocket p)) (backendSocket p)
               (bytesFromClient p) (bytesFromBackend p) (isCleanedUp p) (closeLog p)).

(** [cleanup(reason)]. *)
Definition cleanup (reason : string) (p : ProxyConnection) : ProxyConnection :=
  if isCleanedUp p then p
  else
    mkProxyConnection
      (if Ssh.destroyed (clientSocket p) then clientSocket p
       else Ssh.destroy (clientSocket p))
      (if Ssh.destroyed (backendSocket p) then backendSocket p
       else Ssh.destroy (backendSocket p))
      (bytesFromClient p) (bytesFromBackend p) true
      (closeLog p ++ [(reason, bytesFromClient p, bytesFromBackend p)])%list.

(** The events of the two sockets that have a listener.  [ClientTimeout]
    is the ['timeout'] listener that [handleNewConnection] of server.js
    attaches: it destroys the client socket. *)
Inductive PumpEvent : Type :=
| ClientData (data : list Byte.byte)
| BackendData (data : list Byte.byte)
| ClientDrain
| BackendDrain
| ClientError
| BackendError
| ClientClose
| BackendClose
| ClientTimeout.

Definition pump_on (p : ProxyConnection) (ev : PumpEvent) : ProxyConnection :=
  match ev with
  | ClientData data => client_on_data data p
  | BackendData data => backend_on_data data p
  | ClientDrain => client_on_drain p
  | BackendDrain => backend_on_drain p
  | ClientError => cleanup "client-error" p
  | BackendError => cleanup "backend-error" p
  | ClientClose => cleanup "client-close" p
  | BackendClose => cleanup "backend-close" p
  | ClientTimeout =>
      mkProxyConnection (Ssh.destroy (clientSocket p)) (backendSocket p)
                        (bytesFromClient p) (bytesFromBackend p) (isCleanedUp p) (closeLog p)
  end.

Definition pump_run (p : ProxyConnection) (evs : list PumpEvent) : ProxyConnection :=
  fold_left pump_on evs p.

(** The reason an event passes to [cleanup], if it calls it. *)
Definition closeReason (ev : PumpEvent) : option string :=
  match ev with
  | ClientError => Some "client-error"
  | BackendError => Some "backend-error"
  | ClientClose => Some "client-close"
  | BackendClose => Some "backend-close"
  | _ => None
  end.

(** The chunks the client, resp. the backend, sent during a run. *)
Definition clientChunks (evs : list PumpEvent) : list (list Byte.byte) :=
  omap (fun ev => match ev with ClientData d => Some d | _ => None end) evs.

Definition backendChunks (evs : list PumpEvent) : list (list Byte.byte) :=
  omap (fun ev => match ev with BackendData d => Some d | _ => None end) evs.

End Pump.

(** Total size of a list of chunks. *)
Definition totalBytes (chunks : list (list Byte.byte)) : Z :=
  Z.of_nat (length (concat chunks)).

(** The chunks the SSH stream, resp. the backend socket, delivered to the
    shell bridge during a run of events. *)
Definition streamChunks (evs : list Ssh.BridgeEvent) : list (list Byte.byte) :=
  omap (fun ev => match ev with Ssh.StreamData d => Some d | _ => None end) evs.

Definition backendSocketChunks (evs : list Ssh.BridgeEvent) : list (list Byte.byte) :=
  omap (fun ev => match ev with Ssh.BackendData d => Some d | _ => None end) evs.

(** An endpoint the data handlers of the SSH bridge no longer write to:
    their test [!e.writable || e.destroyed]. *)
Definition down (e : Ssh.Endpoint) : bool :=
  negb (Ssh.writable e) || Ssh.destroyed e.

(** The requests whose listener throws a TypeError: a window-change
    request that came without a reply function, a shell request whose
    [accept()] returned nothing, an exec request that came without a
    [reject] function. *)
Definition throws (r : Ssh.SessionRequest) : bool :=
  match r with
  | Ssh.WindowChange false _ _ => true
  | Ssh.Shell Ssh.ReturnsUndefined => true
  | Ssh.Exec false _ => true
  | _ => false
  end.

(** The requests of a session that come before the first one whose
    listener throws. *)
Fixpoint served (rs : list Ssh.SessionRequest) : list Ssh.SessionRequest :=
  match rs with
  | [] => []
  | r :: rest => if throws r then [] else r :: served rest
  end.

(** The shell requests whose [accept()] gave a channel, and the exec
    requests that came with a [reject] function. *)
Definition isAcceptedShell (r : Ssh.SessionRequest) : bool :=
  match r with Ssh.Shell Ssh.ReturnsChannel => true | _ => false end.

Definition acceptedShells (rs : list Ssh.SessionRequest) : nat :=
  length (List.filter isAcceptedShell rs).

Definition isExecWithReply (r : Ssh.SessionRequest) : bool :=
  match r with Ssh.Exec true _ => true | _ => false end.

Definition execsWithReply (rs : list Ssh.SessionRequest) : nat :=
  length (List.filter isExecWithReply rs).

(** Back-pressure bookkeeping of the SSH bridge: the one-shot ['drain']
    listeners on each endpoint are the ones that resume the other
    endpoint, and an endpoint that is paused (and, for the backend
    socket, not destroyed) has such a listener waiting. *)
Definition bridgeArmed (b : Ssh.Bridge) : Prop :=
  Ssh.destroyed (Ssh.stream b) = false /\
  Forall (eq Ssh.ResumeStream) (Ssh.onceDrain (Ssh.backendSocket b)) /\
  Forall (eq Ssh.ResumeBackend) (Ssh.onceDrain (Ssh.stream b)) /\
  (Ssh.paused (Ssh.stream b) = true -> Ssh.onceDrain (Ssh.backendSocket b) <> []) /\
  (Ssh.paused (Ssh.backendSocket b) = true ->
   Ssh.destroyed (Ssh.backendSocket b) = false ->
   Ssh.onceDrain (Ssh.stream b) <> []).

(** The same for the TCP pump, whose listeners resume unconditionally. *)
Definition pumpArmed (p : Pump.ProxyConnection) : Prop :=
  Forall (eq Ssh.ResumeStream) (Ssh.onceDrain (Pump.backendSocket p)) /\
  Forall (eq Ssh.ResumeBackend) (Ssh.onceDrain (Pump.clientSocket p)) /\
  (Ssh.paused (Pump.clientSocket p) = true -> Ssh.onceDrain (Pump.backendSocket p) <> []) /\
  (Ssh.paused (Pump.backendSocket p) = true -> Ssh.onceDrain (Pump.clientSocket p) <> []).

(** [worldTwoArrivals], where the counter has reached the limit of
    [cfgOne], after an SSH client connected from 192.0.2.77. *)
Definition worldSshAtLimit : Server.World :=
  Server.fire cfgOne worldTwoArrivals (Server.SshClient (Some "192.0.2.77") (at_ 2000)).

(** The settings of [cfgDemo] when [MAX_CONNECTIONS] is not a number, and
    the server after one client connected. *)
Definition cfgNaN : Config :=
  mkConfig 23 "127.0.0.1" 2323 JS.NaN (JS.Num 300000) ["CN"] true true 3 60000 10000
           true 2324 2325 true.

(** [worldTwoArrivals] after both of its sockets closed. *)
Definition worldAllClosed : Server.World :=
  Server.fire cfgOne (Server.fire cfgOne worldTwoArrivals (Server.Close 1)) (Server.Close 2).

(* ===================================================================== *)
(** ** config.js: reading the environment *)
(* ===================================================================== *)

Module ConfigJs.
Import JS.

(** [process.env.NAME || fallback]: an unset and an empty variable both
    give the fallback. *)
Definition orDefault (v : option string) (fallback : string) : string :=
  match v with
  | Some s => if String.eqb s EmptyString then fallback else s
  | None => fallback
  end.

(** The [config] object literal as config.js builds it: the numeric
    fields are whatever [parseInt] returns, [NaN] included. *)
Record Settings : Type := mkSettings {
  listenPort : number;
  backendHost : string;
  backendPort : number;
  maxConnections : number;
  connectionTimeout : number;
  blockedCountries : list string;
  blockUnknownCountries : bool;
  blocklistPath : string;
  whitelistPath : string;
  rateLimitEnabled : bool;
  maxConnectionsPerWindow : number;
  rateLimitWindowMs : number;
  rateLimitBlockDurationMs : number;
  logLevel : string
}.

(** The value of [blockedCountries]. *)
Definition parseBlockedCountries (v : option string) : list string :=
  match v with
  | Some s =>
      if String.eqb s EmptyString then []
      else List.filter (fun c => negb (String.eqb c EmptyString))
             (map (fun c => toUpperCase (trim c)) (split "," s))
  | None => []
  end.

Definition load (env : gmap string string) : Settings :=
  mkSettings
    (parseInt (orDefault (env !! "LISTEN_PORT") "23"))
    (orDefault (env !! "BACKEND_HOST") "127.0.0.1")
    (parseInt (orDefault (env !! "BACKEND_PORT") "2323"))
    (parseInt (orDefault (env !! "MAX_CONNECTIONS") "100"))
    (parseInt (orDefault (env !! "CONNECTION_TIMEOUT") "300000"))
    (parseBlockedCountries (env !! "BLOCKED_COUNTRIES"))
    (bool_decide (env !! "BLOCK_UNKNOWN_COUNTRIES" = Some "true"))
    (orDefault (env !! "BLOCKLIST_PATH") EmptyString)
    (orDefault (env !! "WHITELIST_PATH") EmptyString)
    (negb (bool_decide (env !! "RATE_LIMIT_ENABLED" = Some "false")))
    (parseInt (orDefault (env !! "MAX_CONNECTIONS_PER_WINDOW") "10"))
    (parseInt (orDefault (env !! "RATE_LIMIT_WINDOW_MS") "60000"))
    (parseInt (orDefault (env !! "RATE_LIMIT_BLOCK_DURATION_MS") "300000"))
    (orDefault (env !! "LOG_LEVEL") "info").

(** [a < b] and [a > b] on numbers: false as soon as one side is [NaN]. *)
Definition lt (a b : number) : bool :=
  match a, b with
  | Num x, Num y => x <? y
  | _, _ => false
  end.

Definition gt (a b : number) : bool := lt b a.

Definition pushIf (cond : bool) (msg : string) (errors : list string) : list string :=
  if cond then (errors ++ [msg])%list else errors.

(** The [errors] array at the end of [validateConfig]. *)
Definition validationErrors (c : Settings) : list string :=
  pushIf (lt (rateLimitWindowMs c) (Num 1000))
         "RATE_LIMIT_WINDOW_MS must be at least 1000 (1 second)"
  (pushIf (lt (maxConnectionsPerWindow c) (Num 1))
          "MAX_CONNECTIONS_PER_WINDOW must be at least 1"
  (pushIf (String.eqb (backendHost c) EmptyString)
          "BACKEND_HOST is required"
  (pushIf (lt (backendPort c) (Num 1) || gt (backendPort c) (Num 65535))
          "BACKEND_PORT must be between 1 and 65535"
  (pushIf (lt (listenPort c) (Num 1) || gt (listenPort c) (Num 65535))
          "LISTEN_PORT must be between 1 and 65535"
          [])))).

(** [errors.join('\n')]. *)
Fixpoint join (sep : string) (l : list string) : string :=
  match l with
  | [] => EmptyString
  | [x] => x
  | x :: r => x +:+ sep +:+ join sep r
  end.

(** [validateConfig()]: [inl] is the message of the [Error] thrown. *)
Definition validateConfig (c : Settings) : string + bool :=
  let errors := validationErrors c in
  if (0 <? length errors)%nat
  then inl ("Configuration validation failed:" +:+ String "010" EmptyString
            +:+ join (String "010" EmptyString) errors)
  else inr true.

(** What [validateConfig] lets through for one numeric setting. *)
Definition within (lo : Z) (hi : option Z) (n : number) : Prop :=
  match n with
  | Num z => lo <= z /\ match hi with Some h => z <= h | None => True end
  | NaN => True
  end.

End ConfigJs.

(* ===================================================================== *)
(** ** logger.js *)
(* ===================================================================== *)

Module Logger.

(** What a property read on the [LOG_LEVELS] object literal can give: one
    of its four numbers, a member inherited from [Object.prototype] (a
    function or an object), or [undefined]. *)
Inductive value : Type :=
| VNum (z : Z)
| VInherited
| VUndefined.

Definition objectPrototypeKeys : list string :=
  ["constructor"; "hasOwnProperty"; "isPrototypeOf"; "propertyIsEnumerable";
   "toLocaleString"; "toString"; "valueOf"; "__proto__";
   "__defineGetter__"; "__defineSetter__"; "__lookupGetter__"; "__lookupSetter__"].

Definition LOG_LEVELS (key : string) : value :=
  if String.eqb key "debug" then VNum 0
  else if String.eqb key "info" then VNum 1
  else if String.eqb key "warn" then VNum 2
  else if String.eqb key "error" then VNum 3
  else if existsb (String.eqb key) objectPrototypeKeys then VInherited
  else VUndefined.

Definition truthy (v : value) : bool :=
  match v with
  | VNum z => negb (z =? 0)
  | VInherited => true
  | VUndefined => false
  end.

(** [LOG_LEVELS[config.logLevel] || LOG_LEVELS.info]. *)
Definition currentLevel (logLevel : string) : value :=
  if truthy (LOG_LEVELS logLevel) then LOG_LEVELS logLevel else LOG_LEVELS "info".

(** [a >= b]: both sides are converted to numbers, and the comparison is
    false when one of them is not a number. *)
Definition ge (a b : value) : bool :=
  match a, b with
  | VNum x, VNum y => y <=? x
  | _, _ => false
  end.

(** [log(level, message, data)]: what is passed to [console.log], if it
    is called.  [timestamp] is [new Date().toISOString()]. *)
Definition log (logLevel timestamp level message : string) (data : option string)
    : option (string * option string) :=
  if ge (LOG_LEVELS level) (currentLevel logLevel)
  then
    let logMessage :=
      "[" +:+ timestamp +:+ "] [" +:+ JS.toUpperCase level +:+ "] " +:+ message in
    match data with
    | Some d => if String.eqb d EmptyString then Some (logMessage, None)
                else Some (logMessage, Some d)
    | None => Some (logMessage, None)
    end
  else None.

(** The four functions the module exports. *)
Definition debug (logLevel timestamp msg : string) (data : option string) :=
  log logLevel timestamp "debug" msg data.
Definition info (logLevel timestamp msg : string) (data : option string) :=
  log logLevel timestamp "info" msg data.
Definition warn (logLevel timestamp msg : string) (data : option string) :=
  log logLevel timestamp "warn" msg data.
Definition error (logLevel timestamp msg : string) (data : option string) :=
  log logLevel timestamp "error" msg data.

End Logger.

(** A string that is empty or starts with something other than white
    space. *)
Definition head_ok (s : string) : bool :=
  match s with
  | EmptyString => true
  | String c _ => negb (JS.is_space c)
  end.

(* ===================================================================== *)
(** * Properties *)
(* ===================================================================== *)

(** ** Sanity checks of the JavaScript primitives *)

Example js_split_ip : JS.split "." "10.0.0.50" = ["10"; "0"; "0"; "50"].
Proof. reflexivity. Qed.

Example js_parseInt_ex :
  JS.parseInt " -42abc" = JS.Num (-42) /\ JS.parseInt "x" = JS.NaN.
Proof. split; reflexivity. Qed.

Example js_shift_count_wraps : JS.shl (JS.bitnot (JS.Num 0)) (JS.Num 32) = JS.Num (-1).
Proof. reflexivity. Qed.

Example js_toString_ex : JS.toString 60000 = "60000" /\ JS.toString 0 = "0".
Proof. split; reflexivity. Qed.

(* ===================================================================== *)
(** ** Address normalisation *)
(* ===================================================================== *)

Section Normalisation.
Import JS.

Example cleanIp_mapped : cleanIp "::FFFF:192.0.2.1" = "192.0.2.1".
Proof. reflexivity. Qed.

Example cleanIp_plain : cleanIp "192.0.2.1" = "192.0.2.1".
Proof. reflexivity. Qed.

Lemma drop_length n s : String.length (drop n s) = (String.length s - n)%nat.
Proof. revert s; induction n; intros [|c s]; simpl; auto. Qed.

Lemma startsWith_ci_length p s :
  startsWith_ci p s = true -> (String.length p <= String.length s)%nat.
Proof.
  revert s; induction p as [|a p IH]; intros [|b s]; simpl; try lia; try discriminate.
  destruct (Ascii.eqb _ _); [|discriminate]. intros H%IH. lia.
Qed.

(** C8, counterexample.  The replace removes one prefix only: an address
    that carries the prefix twice is still changed by a second pass, so
    normalisation is not idempotent on every string. *)
Lemma cleanIp_not_idempotent : ~ (forall x : string, cleanIp (cleanIp x) = cleanIp x).
Proof.
  intros H. specialize (H "::ffff:::ffff:1.2.3.4").
  vm_compute in H. discriminate.
Qed.

(** C8, as amended.  Normalising twice gives the same as normalising once
    exactly when the result of the first pass does not itself begin with
    the prefix (compared without regard to case). *)
Theorem cleanIp_idempotent_iff (x : string) :
  cleanIp (cleanIp x) = cleanIp x <-> startsWith_ci "::ffff:" (cleanIp x) = false.
Proof.
  set (y := cleanIp x). unfold cleanIp at 1.
  destruct (startsWith_ci "::ffff:" y) eqn:E; split; intros H; try done.
  apply startsWith_ci_length in E. apply (f_equal String.length) in H.
  rewrite drop_length in H. simpl in E. lia.
Qed.

(** In particular the second pass is the identity on anything that does
    not start with the prefix, such as a dotted quad. *)
Lemma cleanIp_fixed (y : string) : startsWith_ci "::ffff:" y = false -> cleanIp y = y.
Proof. intros H. unfold cleanIp. by rewrite H. Qed.

End Normalisation.

(* ===================================================================== *)
(** ** IP filter: rate limit *)
(* ===================================================================== *)

Section RateLimit.
Import JS IpFilter.

(** The validity guard on the addresses the lists can hold. *)
Lemma invalidIp_false x : x <> EmptyString -> invalidIp x = false.
Proof. intros H. unfold invalidIp. apply String.eqb_neq. exact H. Qed.

Lemma whitelisted_valid f x : isIPWhitelisted f x = true -> invalidIp x = false.
Proof. unfold isIPWhitelisted. destruct (invalidIp x); [discriminate | reflexivity]. Qed.

Lemma blocklisted_valid f x : isIPInBlocklist f x = true -> invalidIp x = false.
Proof. unfold isIPInBlocklist. destruct (invalidIp x); [discriminate | reflexivity]. Qed.

(** The two extreme cases of [Array.prototype.filter]. *)
Lemma filter_keep_all (P : Z -> Prop) `{!forall z, Decision (P z)} (l : list Z) :
  Forall P l -> filter P l = l.
Proof.
  induction 1 as [|a l Ha _ IH]; [reflexivity|].
  rewrite filter_cons_True by assumption. by rewrite IH.
Qed.

Lemma filter_drop_all (P : Z -> Prop) `{!forall z, Decision (P z)} (l : list Z) :
  Forall (fun z => ~ P z) l -> filter P l = [].
Proof.
  induction 1 as [|a l Ha _ IH]; [reflexivity|].
  by rewrite filter_cons_False.
Qed.

(** One call for an address that passes the whitelist, block and
    blocklist checks: the attempt is recorded after the [cur] attempts that
    are still inside the window, the [old] ones are pruned, and the count
    decides. *)
Lemma shouldAllow_records f x tk old cur :
  rateLimitEnabled (config f) = true ->
  x <> EmptyString ->
  isIPWhitelisted f x = false ->
  isIPInBlocklist f x = false ->
  blockedIPs f !! cleanIp x = None ->
  default [] (connectionAttempts f !! cleanIp x) = (old ++ cur)%list ->
  Forall (fun p => p <= tick_record tk - rateLimitWindowMs (config f)) old ->
  Forall (fun p => tick_record tk - rateLimitWindowMs (config f) < p) cur ->
  0 < rateLimitWindowMs (config f) ->
  let recent := (cur ++ [tick_record tk])%list in
  let f1 := set_connectionAttempts (<[cleanIp x := recent]> (connectionAttempts f)) f in
  shouldAllowConnection f x tk =
    if maxConnectionsPerWindow (config f) <? Z.of_nat (length recent)
    then (denied "Rate limit exceeded",
          blockIP f1 (cleanIp x) (rateLimitBlockDurationMs (config f))
                  (rateReason f (Z.of_nat (length recent))) tk)
    else (allowedPlain, f1).
Proof.
  intros Hen Hx Hw Hb Hblk Hatt Hold Hcur HW recent f1.
  unfold shouldAllowConnection, isIPBlocked, recordConnectionAttempt.
  rewrite (invalidIp_false x Hx), Hw, Hblk, Hb. cbn [blocked].
  rewrite Hen. cbn [negb]. rewrite Hatt.
  assert (Hf : filter (fun time => tick_record tk - rateLimitWindowMs (config f) < time)
                 ((old ++ cur) ++ [tick_record tk])%list = recent).
  { rewrite !filter_app. rewrite (filter_keep_all _ cur Hcur).
    rewrite (filter_drop_all _ old).
    2:{ eapply Forall_impl; [exact Hold|]. cbn. intros; lia. }
    rewrite filter_cons_True by lia. reflexivity. }
  rewrite Hf. fold recent. fold f1.
  destruct (maxConnectionsPerWindow (config f) <? Z.of_nat (length recent)); reflexivity.
Qed.

(** The run of calls, for a filter that already holds [cur] attempts inside
    the window and [old] ones that every call of the run sees expired. *)
Lemma seq_general (x : string) (tks : list Ticks) :
  x <> EmptyString ->
  forall (f : IPFilter) (old cur : list Z),
  rateLimitEnabled (config f) = true ->
  isIPWhitelisted f x = false ->
  isIPInBlocklist f x = false ->
  blockedIPs f !! cleanIp x = None ->
  default [] (connectionAttempts f !! cleanIp x) = (old ++ cur)%list ->
  Forall (fun p => Forall (fun tk => p <= tick_record tk - rateLimitWindowMs (config f)) tks) old ->
  Forall (fun p => Forall (fun tk => tick_record tk - rateLimitWindowMs (config f) < p) tks) cur ->
  Forall (fun t => Forall (fun t' =>
            tick_record t - tick_record t' < rateLimitWindowMs (config f)) tks) tks ->
  0 <= maxConnectionsPerWindow (config f) ->
  (length cur + length tks)%nat = S (Z.to_nat (maxConnectionsPerWindow (config f))) ->
  tks <> [] ->
  exists tkLast,
    last tks = Some tkLast /\
    fst (shouldAllowConnection_seq f x tks) =
      (repeat allowedPlain (length tks - 1) ++ [denied "Rate limit exceeded"])%list /\
    blockedIPs (snd (shouldAllowConnection_seq f x tks)) !! cleanIp (cleanIp x) =
      Some (mkBlockInfo
              (tick_blockedUntil tkLast + rateLimitBlockDurationMs (config f))
              (rateReason f (maxConnectionsPerWindow (config f) + 1))
              (tick_blockedAt tkLast)).
Proof.
  intros Hx. induction tks as [|tk rest IH]; intros f old cur Hen Hw Hb Hblk Hatt Hold Hcur Hpair Hmax Hlen Hne.
  { congruence. }
  assert (HW : 0 < rateLimitWindowMs (config f)).
  { apply Forall_cons in Hpair as [Hp _]. apply Forall_cons in Hp as [Hp _]. lia. }
  assert (Hold1 : Forall (fun p => p <= tick_record tk - rateLimitWindowMs (config f)) old).
  { eapply Forall_impl; [exact Hold|]. cbn. intros p Hp. by apply Forall_cons in Hp as [? _]. }
  assert (Hcur1 : Forall (fun p => tick_record tk - rateLimitWindowMs (config f) < p) cur).
  { eapply Forall_impl; [exact Hcur|]. cbn. intros p Hp. by apply Forall_cons in Hp as [? _]. }
  pose proof (shouldAllow_records f x tk old cur Hen Hx Hw Hb Hblk Hatt Hold1 Hcur1 HW) as Hstep.
  cbn zeta in Hstep.
  cbn [shouldAllowConnection_seq]. rewrite Hstep. clear Hstep.
  rewrite length_app. cbn [length].
  destruct rest as [|tk2 rest'].
  - (* last call: the budget is exhausted *)
    cbn [length] in Hlen.
    assert (Hcnt : Z.of_nat (length cur + 1) = maxConnectionsPerWindow (config f) + 1) by lia.
    rewrite Hcnt.
    replace (maxConnectionsPerWindow (config f) <? maxConnectionsPerWindow (config f) + 1)
      with true by (symmetry; apply Z.ltb_lt; lia).
    exists tk. cbn. split; [reflexivity|]. split; [reflexivity|].
    unfold blockIP. cbn. apply lookup_insert_eq.
  - (* an earlier call: still within budget *)
    cbn [length] in Hlen.
    replace (maxConnectionsPerWindow (config f) <? Z.of_nat (length cur + 1))
      with false by (symmetry; apply Z.ltb_ge; lia).
    set (f1 := set_connectionAttempts _ f).
    destruct (IH f1 [] (cur ++ [tick_record tk])%list) as (tkLast & Hlast & Hres & Hfin).
    + exact Hen.
    + exact Hw.
    + exact Hb.
    + exact Hblk.
    + subst f1. cbn. by rewrite lookup_insert_eq.
    + constructor.
    + apply Forall_app. split.
      * eapply Forall_impl; [exact Hcur|]. cbn. intros p Hp. by apply Forall_cons in Hp as [_ ?].
      * constructor; [|constructor].
        apply Forall_cons in Hpair as [_ Hp].
        eapply Forall_impl; [exact Hp|]. cbn. intros t Ht.
        apply Forall_cons in Ht as [Ht _]. cbn. lia.
    + apply Forall_cons in Hpair as [_ Hp].
      eapply Forall_impl; [exact Hp|]. cbn. intros t Ht. by apply Forall_cons in Ht as [_ ?].
    + exact Hmax.
    + rewrite length_app. cbn [length]. cbn [config f1 set_connectionAttempts]. lia.
    + discriminate.
    + exists tkLast. split; [exact Hlast|].
      destruct (shouldAllowConnection_seq f1 x (tk2 :: rest')) as [ds f2] eqn:E.
      cbn [fst snd] in *. split; [|exact Hfin].
      rewrite Hres. cbn [length]. replace (S (S (length rest')) - 1)%nat with (S (length rest')) by lia.
      replace (S (length rest') - 1)%nat with (length rest') by lia. reflexivity.
Qed.


(** The run from a state that holds no temporary block entry for the
    address. *)
Lemma rate_limit_run_unblocked (f : IPFilter) (x : string) (tks : list Ticks) :
  rateLimitEnabled (config f) = true ->
  0 <= maxConnectionsPerWindow (config f) ->
  x <> EmptyString ->
  isIPWhitelisted f x = false ->
  isIPInBlocklist f x = false ->
  blockedIPs f !! cleanIp x = None ->
  Forall (fun p => Forall (fun tk => p <= tick_record tk - rateLimitWindowMs (config f)) tks)
         (default [] (connectionAttempts f !! cleanIp x)) ->
  length tks = S (Z.to_nat (maxConnectionsPerWindow (config f))) ->
  Forall (fun t => Forall (fun t' =>
            tick_record t - tick_record t' < rateLimitWindowMs (config f)) tks) tks ->
  exists tkLast,
    last tks = Some tkLast /\
    fst (shouldAllowConnection_seq f x tks) =
      (repeat allowedPlain (Z.to_nat (maxConnectionsPerWindow (config f)))
         ++ [denied "Rate limit exceeded"])%list /\
    blockedIPs (snd (shouldAllowConnection_seq f x tks)) !! cleanIp (cleanIp x) =
      Some (mkBlockInfo
              (tick_blockedUntil tkLast + rateLimitBlockDurationMs (config f))
              (rateReason f (maxConnectionsPerWindow (config f) + 1))
              (tick_blockedAt tkLast)).
Proof.
  intros Hen Hmax Hx Hw Hb Hblk Hold Hlen Hpair.
  destruct (seq_general x tks Hx f (default [] (connectionAttempts f !! cleanIp x)) [])
    as (tkLast & Hlast & Hres & Hfin); try assumption.
  - by rewrite app_nil_r.
  - constructor.
  - intros ->. discriminate.
  - exists tkLast. split; [exact Hlast|]. split; [|exact Hfin].
    rewrite Hres, Hlen. do 2 f_equal. lia.
Qed.

(** An expired temporary block is removed by the call that finds it,
    which then goes on as if the entry had never been there. *)
Lemma shouldAllow_purges_expired (f : IPFilter) (x : string) (tk : Ticks)
    (blockInfo : BlockInfo) :
  x <> EmptyString ->
  isIPWhitelisted f x = false ->
  blockedIPs f !! cleanIp x = Some blockInfo ->
  blockedUntil blockInfo <= tick_isIPBlocked tk ->
  shouldAllowConnection f x tk
  = shouldAllowConnection (set_blockedIPs (delete (cleanIp x) (blockedIPs f)) f) x tk.
Proof.
  intros Hx Hw Hb Hexp. unfold shouldAllowConnection, isIPBlocked.
  rewrite (invalidIp_false x Hx).
  change (isIPWhitelisted (set_blockedIPs _ f) x) with (isIPWhitelisted f x).
  rewrite Hw, Hb. cbn [blockedIPs set_blockedIPs].
  rewrite lookup_delete_eq.
  replace (tick_isIPBlocked tk <? blockedUntil blockInfo) with false
    by (symmetry; apply Z.ltb_ge; lia).
  reflexivity.
Qed.

(** C1.  Rate limiting on, [x] a non-empty address that is neither
    whitelisted nor in the blocklist nor under a temporary block still
    active at the first call, and whose recorded attempts, if any, are out
    of the window for every call of the run.  Then
    [maxConnectionsPerWindow + 1] calls whose timestamps lie pairwise less
    than [rateLimitWindowMs] apart answer [{ allowed: true }] for the first
    [maxConnectionsPerWindow] of them and
    [{ allowed: false, reason: "Rate limit exceeded" }] for the last, which
    also stores a block lasting [rateLimitBlockDurationMs] from the clock
    reading taken in [blockIP]. *)
Theorem rate_limit_trips_on_next_attempt (f : IPFilter) (x : string) (tk1 : Ticks)
    (rest : list Ticks) :
  rateLimitEnabled (config f) = true ->
  0 <= maxConnectionsPerWindow (config f) ->
  x <> EmptyString ->
  isIPWhitelisted f x = false ->
  isIPInBlocklist f x = false ->
  temporarilyBlockedAt f x (tick_isIPBlocked tk1) = false ->
  Forall (fun p => Forall (fun tk => p <= tick_record tk - rateLimitWindowMs (config f))
                          (tk1 :: rest))
         (default [] (connectionAttempts f !! cleanIp x)) ->
  length rest = Z.to_nat (maxConnectionsPerWindow (config f)) ->
  Forall (fun t => Forall (fun t' =>
            tick_record t - tick_record t' < rateLimitWindowMs (config f)) (tk1 :: rest))
         (tk1 :: rest) ->
  exists tkLast,
    last (tk1 :: rest) = Some tkLast /\
    fst (shouldAllowConnection_seq f x (tk1 :: rest)) =
      (repeat allowedPlain (Z.to_nat (maxConnectionsPerWindow (config f)))
         ++ [denied "Rate limit exceeded"])%list /\
    blockedIPs (snd (shouldAllowConnection_seq f x (tk1 :: rest))) !! cleanIp (cleanIp x) =
      Some (mkBlockInfo
              (tick_blockedUntil tkLast + rateLimitBlockDurationMs (config f))
              (rateReason f (maxConnectionsPerWindow (config f) + 1))
              (tick_blockedAt tkLast)).
Proof.
  intros Hen Hmax Hx Hw Hb Htmp Hold Hlen Hpair.
  unfold temporarilyBlockedAt in Htmp.
  destruct (blockedIPs f !! cleanIp x) as [blockInfo|] eqn:Hblk.
  - apply Z.ltb_ge in Htmp.
    set (f0 := set_blockedIPs (delete (cleanIp x) (blockedIPs f)) f).
    assert (Hsame : shouldAllowConnection_seq f x (tk1 :: rest)
                    = shouldAllowConnection_seq f0 x (tk1 :: rest)).
    { cbn [shouldAllowConnection_seq].
      by rewrite (shouldAllow_purges_expired f x tk1 blockInfo Hx Hw Hblk Htmp). }
    rewrite Hsame.
    apply (rate_limit_run_unblocked f0 x (tk1 :: rest)); try assumption.
    + subst f0. cbn. apply lookup_delete_eq.
    + cbn [length]. by rewrite Hlen.
  - apply (rate_limit_run_unblocked f x (tk1 :: rest)); try assumption.
    cbn [length]. by rewrite Hlen.
Qed.

Lemma rate_limit_trips_witness :
  fst (shouldAllowConnection_seq filterDemo "198.51.100.9"
         [at_ 0; at_ 1000; at_ 2000; at_ 3000]) =
    [allowedPlain; allowedPlain; allowedPlain; denied "Rate limit exceeded"].
Proof.
  destruct (rate_limit_trips_on_next_attempt filterDemo "198.51.100.9"
              (at_ 0) [at_ 1000; at_ 2000; at_ 3000])
    as (tkLast & _ & Hres & _).
  - reflexivity.
  - vm_compute. discriminate.
  - discriminate.
  - vm_compute. reflexivity.
  - vm_compute. reflexivity.
  - vm_compute. reflexivity.
  - unfold filterDemo. cbn [connectionAttempts]. rewrite lookup_empty. constructor.
  - reflexivity.
  - repeat (constructor; [repeat (constructor; [vm_compute; reflexivity|])|]); constructor.
  - exact Hres.
Defined.

(** The second scenario of the specification on the code: three
    connections admitted, the fourth refused, the fifth refused with the
    stored reason; the attempt at [t = 15 s], after the block has run out,
    is counted with the four still inside the window and refused again. *)
Example rate_limit_scenario :
  map reason
      (fst (shouldAllowConnection_seq filterDemo "198.51.100.9"
              [at_ 0; at_ 1000; at_ 2000; at_ 3000; at_ 4000; at_ 15000]))
  = [None; None; None; Some "Rate limit exceeded";
     Some "Rate limit exceeded: 4 connections in 60000ms";
     Some "Rate limit exceeded"].
Proof. vm_compute. reflexivity. Qed.

End RateLimit.

(* ===================================================================== *)
(** ** IP filter: whitelist and blocklist *)
(* ===================================================================== *)

Section WhitelistBlocklist.
Import JS IpFilter.

Example blocklist_cidr_hit : isIPInBlocklist filterDemo "10.0.0.50" = true.
Proof. vm_compute. reflexivity. Qed.

Example blocklist_cidr_miss : isIPInBlocklist filterDemo "10.0.1.1" = false.
Proof. vm_compute. reflexivity. Qed.

Example whitelist_mapped_hit : isIPWhitelisted filterDemo "::ffff:192.168.7.7" = true.
Proof. vm_compute. reflexivity. Qed.

(** C2.  For a whitelisted address [shouldAllowConnection] answers
    [{ allowed: true, whitelisted: true }] and hands back the very filter
    it was given: [connectionAttempts] and [blockedIPs] are untouched, and
    this stays so over any number of calls. *)
Theorem whitelisted_bypass_keeps_state (f : IPFilter) (x : string) :
  isIPWhitelisted f x = true ->
  (forall tk, shouldAllowConnection f x tk = (allowedWhitelisted, f)) /\
  (forall tks,
      shouldAllowConnection_seq f x tks = (repeat allowedWhitelisted (length tks), f)).
Proof.
  intros Hw.
  assert (Hone : forall tk, shouldAllowConnection f x tk = (allowedWhitelisted, f)).
  { intros tk. unfold shouldAllowConnection.
    rewrite (whitelisted_valid f x Hw), Hw. reflexivity. }
  split; [exact Hone|].
  induction tks as [|tk tks IH]; [reflexivity|].
  cbn [shouldAllowConnection_seq]. rewrite Hone, IH. reflexivity.
Qed.

Lemma whitelisted_bypass_witness :
  shouldAllowConnection filterDemo "192.168.7.7" (at_ 0) = (allowedWhitelisted, filterDemo).
Proof.
  apply (whitelisted_bypass_keeps_state filterDemo "192.168.7.7").
  vm_compute. reflexivity.
Defined.

(** C6, counterexample.  Address 10.0.0.50 is in the blocklist of
    [filterReloaded] and also has a temporary block that is still active
    at [t = 5000]; the answer carries the stored reason of the temporary
    block, not ["IP in blocklist"]. *)
Lemma blocklist_reason_counterexample :
  ~ (forall (f : IPFilter) (x : string) (tk : Ticks),
        isIPWhitelisted f x = false ->
        isIPInBlocklist f x = true ->
        fst (shouldAllowConnection f x tk) = denied "IP in blocklist").
Proof.
  intros H. specialize (H filterReloaded "10.0.0.50" (at_ 5000)).
  vm_compute in H. specialize (H eq_refl eq_refl). discriminate.
Qed.

(** C6, as amended.  [isIPBlocked] consults the temporary block map
    first: a blocklisted, non-whitelisted address is always refused, with
    the stored reason while a temporary block for it is still active, and
    with ["IP in blocklist"] otherwise (an expired temporary block being
    removed on the way). *)
Theorem blocklisted_refused_temp_block_first (f : IPFilter) (x : string) (tk : Ticks) :
  isIPWhitelisted f x = false ->
  isIPInBlocklist f x = true ->
  shouldAllowConnection f x tk =
    match blockedIPs f !! cleanIp x with
    | Some blockInfo =>
        if tick_isIPBlocked tk <? blockedUntil blockInfo
        then (denied (blockReason blockInfo), f)
        else (denied "IP in blocklist",
              set_blockedIPs (delete (cleanIp x) (blockedIPs f)) f)
    | None => (denied "IP in blocklist", f)
    end.
Proof.
  intros Hw Hb. unfold shouldAllowConnection, isIPBlocked.
  rewrite (blocklisted_valid f x Hb), Hw.
  destruct (blockedIPs f !! cleanIp x) as [blockInfo|].
  - destruct (tick_isIPBlocked tk <? blockedUntil blockInfo); [reflexivity|].
    change (isIPInBlocklist (set_blockedIPs _ f) x) with (isIPInBlocklist f x).
    rewrite Hb. reflexivity.
  - rewrite Hb. reflexivity.
Qed.

Lemma blocklisted_refused_witness :
  shouldAllowConnection filterReloaded "10.0.0.50" (at_ 5000) =
    (denied "Rate limit exceeded: 4 connections in 60000ms", filterReloaded) /\
  fst (shouldAllowConnection filterReloaded "10.0.0.50" (at_ 13000)) =
    denied "IP in blocklist".
Proof.
  split.
  - rewrite (blocklisted_refused_temp_block_first filterReloaded "10.0.0.50" (at_ 5000));
      vm_compute; reflexivity.
  - rewrite (blocklisted_refused_temp_block_first filterReloaded "10.0.0.50" (at_ 13000));
      vm_compute; reflexivity.
Defined.

End WhitelistBlocklist.

(* ===================================================================== *)
(** ** Geo filter *)
(* ===================================================================== *)

Section GeoFilter.
Import JS.

Lemma includes_str_elem_of (l : list string) (x : string) :
  GeoIP.includes_str l x = true <-> x ∈ l.
Proof.
  unfold GeoIP.includes_str. rewrite existsb_exists. split.
  - intros (y & Hy & E). apply String.eqb_eq in E. subst. by apply list_elem_of_In.
  - intros H. exists x. split; [by apply list_elem_of_In | apply String.eqb_refl].
Qed.

Lemma countryOf_cases (g : GeoIP.GeoIPLookup) (ip : string) :
  match GeoIP.getCountryInfo g ip with
  | Some {| GeoIP.countryCode := Some code |} => GeoIP.countryOf g ip = Some code
  | _ => GeoIP.countryOf g ip = None
  end.
Proof.
  unfold GeoIP.countryOf.
  destruct (GeoIP.getCountryInfo g ip) as [[i [code|] n]|]; reflexivity.
Qed.

(** C9.  The blocking decision of the admission path,
    [shouldBlockConnection]: [false] when there is no GeoIP instance or
    its database is not loaded; the [blockUnknownCountries] flag when the
    database is loaded but yields no country code for the address; and
    otherwise [true] exactly when the upper-cased country code is one of
    [blockedCountries]. *)
Theorem geo_decision (cfg : Config) (geo : option GeoIP.GeoIPLookup) (ip : string) :
  (geo = None \/ (exists g, geo = Some g /\ GeoIP.isEnabled g = false) ->
     Proxy.shouldBlockConnection cfg geo ip = false) /\
  (forall g, geo = Some g -> GeoIP.isEnabled g = true ->
     GeoIP.countryOf g ip = None ->
     Proxy.shouldBlockConnection cfg geo ip = blockUnknownCountries cfg) /\
  (forall g code, geo = Some g -> GeoIP.isEnabled g = true ->
     GeoIP.countryOf g ip = Some code ->
     (Proxy.shouldBlockConnection cfg geo ip = true <->
      toUpperCase code ∈ blockedCountries cfg)).
Proof.
  split; [|split].
  - intros [-> | (g & -> & Hoff)]; [reflexivity|].
    unfold Proxy.shouldBlockConnection. by rewrite Hoff.
  - intros g -> Hon Hc. unfold Proxy.shouldBlockConnection. rewrite Hon. cbn [negb].
    pose proof (countryOf_cases g ip) as Hcase.
    destruct (GeoIP.getCountryInfo g ip) as [[i [code|] n]|]; try congruence;
      by destruct (blockUnknownCountries cfg).
  - intros g code -> Hon Hc. unfold Proxy.shouldBlockConnection. rewrite Hon. cbn [negb].
    pose proof (countryOf_cases g ip) as Hcase.
    destruct (GeoIP.getCountryInfo g ip) as [[i [code'|] n]|]; try congruence.
    assert (code' = code) as -> by congruence.
    destruct (blockedCountries cfg) as [|c cs] eqn:E.
    + cbn. split; [discriminate|]. intros H. by apply not_elem_of_nil in H.
    + cbn [length Nat.ltb Nat.leb]. apply includes_str_elem_of.
Qed.

Lemma geo_decision_witness :
  Proxy.shouldBlockConnection cfgDemo (Some geoOff) "203.0.113.7" = false /\
  Proxy.shouldBlockConnection cfgDemo (Some geoDemo) "192.0.2.1" = true /\
  Proxy.shouldBlockConnection cfgDemo (Some geoDemo) "::ffff:203.0.113.7" = true.
Proof.
  split; [|split].
  - apply (geo_decision cfgDemo (Some geoOff) "203.0.113.7").
    right. exists geoOff. split; reflexivity.
  - apply (geo_decision cfgDemo (Some geoDemo) "192.0.2.1") with (g := geoDemo);
      reflexivity.
  - apply (geo_decision cfgDemo (Some geoDemo) "::ffff:203.0.113.7")
      with (g := geoDemo) (code := "cn"); try reflexivity.
    vm_compute. apply list_elem_of_here.
Defined.

(** The method [GeoIPLookup.isCountryBlocked] itself has no caller and no
    unknown-country flag: it blocks only on a determined, listed
    country. *)
Lemma isCountryBlocked_spec (g : GeoIP.GeoIPLookup) (ip : string) (blocked : list string) :
  GeoIP.isCountryBlocked g ip blocked = true <->
  GeoIP.isEnabled g = true /\
  exists code, GeoIP.countryOf g ip = Some code /\ toUpperCase code ∈ blocked.
Proof.
  unfold GeoIP.isCountryBlocked, GeoIP.countryOf, GeoIP.getCountryInfo.
  destruct (GeoIP.isEnabled g); cbn [negb orb].
  2:{ split; [discriminate | intros [? _]; discriminate]. }
  destruct blocked as [|c cs].
  { cbn. split; [discriminate|]. intros (_ & code & _ & H). by apply not_elem_of_nil in H. }
  cbn [length Nat.eqb].
  destruct (GeoIP.lookup g ip) as [[i [code|] n]|]; cbn [GeoIP.countryCode].
  - rewrite includes_str_elem_of. split.
    + intros H. split; [reflexivity|]. by exists code.
    + intros (_ & code' & [= <-] & H). exact H.
  - split; [discriminate|]. intros (_ & code & [=] & _).
  - split; [discriminate|]. intros (_ & code & [=] & _).
Qed.

End GeoFilter.

(* ===================================================================== *)
(** ** Encoding detection and the SSH session *)
(* ===================================================================== *)

Section EncodingAndSsh.
Import JS EncodingDetector.

Example detect_env_utf8 :
  detectFromSSHEnvironment (Some {["LANG" := "en_US.UTF-8"]}) = "utf8".
Proof. vm_compute. reflexivity. Qed.

Example detect_env_latin1 :
  detectFromSSHEnvironment (Some {["LANG" := "de_DE.ISO-8859-1"]}) = "cp437".
Proof. vm_compute. reflexivity. Qed.

Example detect_term_xterm : detectFromTerminalType (Some "xterm-256color") = "utf8".
Proof. reflexivity. Qed.

Example detect_term_ansi : detectFromTerminalType (Some "ansi-bbs") = "cp437".
Proof. reflexivity. Qed.

(** A UTF-8 indicator in any of the three locale variables decides for
    [utf8]. *)
Lemma detect_env_indicator (e : gmap string string) (varName value : string) :
  varName ∈ langVars ->
  e !! varName = Some value ->
  hasUtf8Indicator value = true ->
  detectFromSSHEnvironment (Some e) = "utf8".
Proof.
  intros Hin He Hu. unfold detectFromSSHEnvironment.
  assert (Hex : existsb
                  (fun varName =>
                     match e !! varName with
                     | Some value => negb (String.eqb value EmptyString) && hasUtf8Indicator value
                     | None => false
                     end) langVars = true).
  { apply existsb_exists. exists varName. split; [by apply list_elem_of_In|].
    rewrite He, Hu. destruct value; [discriminate Hu | reflexivity]. }
  by rewrite Hex.
Qed.

(** With detection enabled the [utf8] encoding selects the UTF-8 port. *)
Lemma utf8_port (cfg : Config) :
  encodingDetection cfg = true ->
  getBackendPortForEncoding "utf8" cfg = backendPortUTF8 cfg.
Proof. intros H. unfold getBackendPortForEncoding. by rewrite H. Qed.

Lemma session_run_snoc (cfg : Config) (hwm : Z) (rs : list Ssh.SessionRequest)
    (r : Ssh.SessionRequest) :
  Ssh.session_run cfg hwm (rs ++ [r]) = Ssh.session_on cfg hwm (Ssh.session_run cfg hwm rs) r.
Proof. unfold Ssh.session_run. by rewrite fold_left_app. Qed.

(** Whatever the client requested before, every shell channel of an SSH
    session is dialed on [config.backendPort]. *)
Lemma ssh_dials_backendPort (cfg : Config) (hwm : Z) (rs : list Ssh.SessionRequest) :
  Forall (fun port => port = backendPort cfg) (Ssh.dialedPorts (Ssh.session_run cfg hwm rs)).
Proof.
  induction rs as [|r rs IH] using rev_ind; [constructor|].
  rewrite session_run_snoc. unfold Ssh.dialedPorts, Ssh.session_on in *.
  destruct (Ssh.tornDown _); [exact IH|].
  destruct r as [n v | [] t | [] c w | [] | [] c]; cbn; try exact IH.
  rewrite map_app. apply Forall_app. split; [exact IH|]. by constructor.
Qed.

(** C3, the code at the failing input.  The client of [utf8Requests]
    sends [LANG=en_US.UTF-8] and asks for a PTY with
    [TERM=xterm-256color]: both detectors answer [utf8] on what it
    presented and the UTF-8 port of [cfgDemo] is 2324, yet the shell
    handler connects the backend socket to [backendPort], 2323. *)
Theorem ssh_shell_ignores_utf8_hints :
  detectFromSSHEnvironment (Some (Ssh.presentedEnv utf8Requests)) = "utf8" /\
  detectFromTerminalType (Ssh.presentedTerm utf8Requests) = "utf8" /\
  getBackendPortForEncoding "utf8" cfgDemo = 2324 /\
  Ssh.dialedPorts (Ssh.session_run cfgDemo 16384 utf8Requests) = [2323].
Proof. repeat split; vm_compute; reflexivity. Qed.

End EncodingAndSsh.

(* ===================================================================== *)
(** ** SSH shell bridge *)
(* ===================================================================== *)

Section ShellBridge.
Import Ssh.











End ShellBridge.
(* ===================================================================== *)
(** ** Connection counter *)
(* ===================================================================== *)

Section ConnectionCounter.
Import Server.

(** The test [this.activeConnections >= config.maxConnections]. *)
Lemma limit_check_fires (a : Z) (limit : JS.number) :
  JS.ge (JS.Num a) limit = true <-> exists m, limit = JS.Num m /\ m <= a.
Proof.
  destruct limit as [m|]; cbn.
  - rewrite Z.leb_le. split; [intros H; by exists m | intros (m' & [= <-] & H); exact H].
  - split; [discriminate | intros (m & [=] & _)].
Qed.

Lemma limit_check_passes (a : Z) (limit : JS.number) :
  JS.ge (JS.Num a) limit = false <->
  match limit with JS.Num m => a < m | JS.NaN => True end.
Proof.
  destruct limit as [m|]; cbn; [|done]. by rewrite Z.leb_gt.
Qed.

Lemma handle_at_limit (cfg : Config) (w : World) (id : nat) (addr : option string)
    (tk : IpFilter.Ticks) :
  JS.ge (JS.Num (activeConnections w)) (maxConnections cfg) = true ->
  handleNewConnection cfg w id addr tk
  = mkWorld (activeConnections w) (<[id := turnedAway addr]> (sockets w)) (sshClients w)
            (singletons w).
Proof. intros H. unfold handleNewConnection. by rewrite H. Qed.

Lemma handle_below_limit (cfg : Config) (w : World) (id : nat) (addr : option string)
    (tk : IpFilter.Ticks) :
  JS.ge (JS.Num (activeConnections w)) (maxConnections cfg) = false ->
  exists s,
    handleNewConnection cfg w id addr tk
    = mkWorld (activeConnections w + 1) (<[id := s]> (sockets w)) (sshClients w)
              (snd (Proxy.connect cfg (singletons w) addr (backendHost cfg)
                      (backendPort cfg) tk)) /\
    handled s = Some (fst (Proxy.connect cfg (singletons w) addr (backendHost cfg)
                             (backendPort cfg) tk)) /\
    countsClose s = true /\ closed s = false.
Proof.
  intros H. unfold handleNewConnection. rewrite H.
  destruct (Proxy.connect _ _ _ _ _ _) as [outcome g]. cbn [fst snd].
  eexists. split; [reflexivity|]. cbn. done.
Qed.

Lemma openCounted_insert_counted (w : World) (id : nat) (s : ClientSocket) (n : Z)
    (l : list (string * bool)) (g : Proxy.Singletons) :
  sockets w !! id = None ->
  countsClose s = true -> closed s = false ->
  openCounted (mkWorld n (<[id := s]> (sockets w)) l g) = openCounted w + 1.
Proof.
  intros Hfresh Hc Ho. unfold openCounted. cbn [sockets].
  rewrite map_filter_insert_True by (by split).
  rewrite map_size_insert_None; [lia|].
  apply map_lookup_filter_None. by left.
Qed.

Lemma openCounted_insert_uncounted (w : World) (id : nat) (s : ClientSocket) (n : Z)
    (l : list (string * bool)) (g : Proxy.Singletons) :
  sockets w !! id = None ->
  countsClose s = false ->
  openCounted (mkWorld n (<[id := s]> (sockets w)) l g) = openCounted w.
Proof.
  intros Hfresh Hc. unfold openCounted. cbn [sockets].
  rewrite map_filter_insert_not'; [reflexivity| |].
  - intros [H _]. cbn in H. congruence.
  - intros y Hy. congruence.
Qed.

Lemma openCounted_close (w : World) (id : nat) (s : ClientSocket) :
  sockets w !! id = Some s -> closed s = false ->
  openCounted (onClose w id)
  = if countsClose s then openCounted w - 1 else openCounted w.
Proof.
  intros Hs Ho. unfold onClose, openCounted. rewrite Hs. cbn [sockets].
  rewrite map_filter_insert_False by (intros [_ H]; cbn in H; discriminate).
  rewrite map_filter_delete.
  destruct (countsClose s) eqn:Hc.
  - rewrite map_size_delete_Some.
    2:{ exists s. apply map_lookup_filter_Some. by split. }
    assert (size (filter counted (sockets w)) <> 0%nat).
    { intros Hz. apply map_size_empty_iff in Hz.
      assert (Hin : filter counted (sockets w) !! id = Some s)
        by (apply map_lookup_filter_Some; by split).
      rewrite Hz in Hin. by rewrite lookup_empty in Hin. }
    lia.
  - rewrite delete_id; [reflexivity|].
    apply map_lookup_filter_None. right. intros y Hy [Hcy _].
    cbn in Hcy. congruence.
Qed.

(** The counter always equals the number of sockets that passed the
    limit check and have not closed yet. *)
Lemma counter_counts_open_sockets (cfg : Config) (g : Proxy.Singletons) (w : World) :
  reachable cfg g w -> activeConnections w = openCounted w.
Proof.
  induction 1 as [|w ev Hr IH Hen]; [reflexivity|].
  destruct ev as [id addr tk | id | addr tk | now]; cbn [fire enabled] in *.
  - destruct (JS.ge (JS.Num (activeConnections w)) (maxConnections cfg)) eqn:Hlim.
    + rewrite handle_at_limit by exact Hlim.
      rewrite openCounted_insert_uncounted by done. exact IH.
    + destruct (handle_below_limit cfg w id addr tk Hlim) as (s & -> & _ & Hc & Ho).
      rewrite openCounted_insert_counted by done. cbn. lia.
  - destruct Hen as (s & Hs & Ho).
    rewrite (openCounted_close w id s Hs Ho).
    unfold onClose. rewrite Hs. cbn. destruct (countsClose s); lia.
  - unfold onSshClient. destruct (Ssh.onClient _ _ _). exact IH.
  - exact IH.
Qed.

(** With a number as the limit, the counter stays at or below it, or at
    0 when the limit is negative. *)
Lemma counter_bounded (cfg : Config) (g : Proxy.Singletons) (w : World) (m : Z) :
  maxConnections cfg = JS.Num m ->
  reachable cfg g w -> activeConnections w <= Z.max 0 m.
Proof.
  intros Hmax. induction 1 as [|w ev Hr IH Hen]; [cbn; lia|].
  destruct ev as [id addr tk | id | addr tk | now]; cbn [fire enabled] in *.
  - destruct (JS.ge (JS.Num (activeConnections w)) (maxConnections cfg)) eqn:Hlim.
    + rewrite handle_at_limit by exact Hlim. exact IH.
    + destruct (handle_below_limit cfg w id addr tk Hlim) as (s & -> & _).
      apply limit_check_passes in Hlim. rewrite Hmax in Hlim. cbn. lia.
  - destruct Hen as (s & Hs & Ho). unfold onClose. rewrite Hs. cbn.
    pose proof (counter_counts_open_sockets cfg g w Hr) as Hcount.
    assert (0 <= activeConnections w) by (rewrite Hcount; unfold openCounted; lia).
    pose proof (openCounted_close w id s Hs Ho) as Hclose.
    destruct (countsClose s); [|lia].
    assert (0 <= openCounted (onClose w id)) by (unfold openCounted; lia).
    lia.
  - unfold onSshClient. destruct (Ssh.onClient _ _ _). exact IH.
  - exact IH.
Qed.

(** One accepted connection: one increment, taken back by its one
    ['close'] event, which cannot fire a second time. *)
Lemma increment_and_matching_decrement (cfg : Config) (w : World) (id : nat)
    (addr : option string) (tk : IpFilter.Ticks) :
  JS.ge (JS.Num (activeConnections w)) (maxConnections cfg) = false ->
  let w' := handleNewConnection cfg w id addr tk in
  activeConnections w' = activeConnections w + 1 /\
  enabled w' (Close id) /\
  activeConnections (onClose w' id) = activeConnections w /\
  ~ enabled (onClose w' id) (Close id).
Proof.
  intros Hroom w'.
  destruct (handle_below_limit cfg w id addr tk Hroom) as (s & E & _ & Hc & Ho).
  subst w'. rewrite E. split; [reflexivity|]. split.
  { exists s. split; [apply lookup_insert_eq | exact Ho]. }
  unfold onClose. cbn [sockets]. rewrite lookup_insert_eq. rewrite Hc. cbn. split; [lia|].
  intros (s' & Hs' & Ho'). rewrite lookup_insert_eq in Hs'.
  injection Hs' as <-. cbn in Ho'. discriminate.
Qed.

(** The connection callback of ssh.js, as the SSH listener runs it: the
    counter and the TCP sockets are left alone, and the client is ended
    exactly when there is an IP filter and it refuses the address. *)
Lemma ssh_client_outside_the_cap (w : World) (addr : option string) (tk : IpFilter.Ticks) :
  let w' := onSshClient w addr tk in
  activeConnections w' = activeConnections w /\
  sockets w' = sockets w /\
  exists ended,
    sshClients w' = (sshClients w ++ [(Ssh.clientIP addr, ended)])%list /\
    (ended = true <->
     exists f, Proxy.ipFilter (singletons w) = Some f /\
               IpFilter.allowed
                 (fst (IpFilter.shouldAllowConnection f (Ssh.clientIP addr) tk)) = false).
Proof.
  cbn zeta. unfold onSshClient, Ssh.onClient.
  destruct (Proxy.ipFilter (singletons w)) as [f|].
  - destruct (IpFilter.shouldAllowConnection f (Ssh.clientIP addr) tk) as [res f'] eqn:E.
    cbn. split; [reflexivity|]. split; [reflexivity|].
    eexists. split; [reflexivity|]. split.
    + intros Hn. exists f. split; [reflexivity|]. rewrite E. cbn.
      by apply negb_true_iff in Hn.
    + intros (f0 & [= <-] & Ha). rewrite E in Ha. cbn in Ha. by rewrite Ha.
  - cbn. split; [reflexivity|]. split; [reflexivity|].
    exists false. split; [reflexivity|]. split; [discriminate|].
    intros (f & [=] & _).
Qed.

(** C4, counterexample.  The connection from the blocklisted address
    10.0.0.50 is turned away by the IP filter, and the counter has gone
    from 0 to 1 all the same. *)
Lemma rejected_connection_is_counted :
  ~ (forall (cfg : Config) (w : World) (id : nat) (addr : option string)
            (tk : IpFilter.Ticks) (s : ClientSocket) (o : Proxy.ConnectOutcome),
        sockets (handleNewConnection cfg w id addr tk) !! id = Some s ->
        handled s = Some o ->
        Proxy.filteredOut o = true ->
        activeConnections (handleNewConnection cfg w id addr tk) = activeConnections w).
Proof.
  intros H.
  specialize (H cfgDemo worldDemo 1%nat (Some "10.0.0.50") (at_ 0)
                (mkClientSocket (Some "10.0.0.50") true (Some (JS.Num 300000)) true
                   (Some (Proxy.BlockedByIPFilter (Some "IP in blocklist"))) false)
                (Proxy.BlockedByIPFilter (Some "IP in blocklist"))).
  vm_compute in H. specialize (H eq_refl eq_refl eq_refl). discriminate.
Qed.

(** C4, as amended.  [handleNewConnection] increments the counter for
    every connection that arrives below the limit (or while the limit is
    not a number, which no count reaches), before [handleConnection] runs
    the admission checks and whatever they decide; the socket's ['close']
    event then decrements it, once. *)
Theorem counter_incremented_before_admission (cfg : Config) (w : World) (id : nat)
    (addr : option string) (tk : IpFilter.Ticks) :
  match maxConnections cfg with
  | JS.Num limit => activeConnections w < limit
  | JS.NaN => True
  end ->
  let w' := handleNewConnection cfg w id addr tk in
  activeConnections w' = activeConnections w + 1 /\
  (exists s, sockets w' !! id = Some s /\
             handled s = Some (fst (Proxy.connect cfg (singletons w) addr
                                      (backendHost cfg) (backendPort cfg) tk))) /\
  activeConnections (onClose w' id) = activeConnections w /\
  ~ enabled (onClose w' id) (Close id).
Proof.
  intros Hroom w'. apply limit_check_passes in Hroom.
  destruct (increment_and_matching_decrement cfg w id addr tk Hroom) as (Hinc & _ & Hdec & Honce).
  fold w' in Hinc, Hdec, Honce. split; [exact Hinc|]. split; [|split; assumption].
  destruct (handle_below_limit cfg w id addr tk Hroom) as (s & E & Hh & _).
  exists s. subst w'. rewrite E. cbn [sockets]. split; [apply lookup_insert_eq | exact Hh].
Qed.

Lemma counter_incremented_witness :
  activeConnections (handleNewConnection cfgDemo worldDemo 1 (Some "203.0.113.7") (at_ 0))
  = activeConnections worldDemo + 1.
Proof.
  apply (counter_incremented_before_admission cfgDemo worldDemo 1 (Some "203.0.113.7") (at_ 0)).
  vm_compute. reflexivity.
Defined.

(** C5.  What the code does about the connection cap.  In every state
    the server can reach:
    - the counter is not negative and equals the number of TCP sockets
      that passed the limit check and are still open;
    - when [maxConnections] is a number the counter is at most that
      number, or 0 if the number is negative (so a negative limit, which
      [validateConfig] lets through, is exceeded from the start); when it
      is [NaN] the test never succeeds and nothing bounds the counter;
    - a TCP connection that arrives when the count has reached the limit
      is ended at once: [end()] is called on it, [handleConnection] is
      not, no ['close'] listener is attached, and the counter and the
      state of the filters stay as they were;
    - a TCP connection that arrives otherwise is counted once and
      uncounted once, by its single ['close'] event;
    - an SSH connection is neither limited nor counted: whatever the
      counter, the client is ended only if the IP filter refuses its
      address, and the counter and the TCP sockets are left as they
      were. *)
Theorem connection_cap_covers_tcp_only (cfg : Config) (g : Proxy.Singletons) (w : World) :
  reachable cfg g w ->
  (0 <= activeConnections w /\ activeConnections w = openCounted w) /\
  (forall limit, maxConnections cfg = JS.Num limit ->
                 activeConnections w <= Z.max 0 limit) /\
  (forall limit id addr tk,
      maxConnections cfg = JS.Num limit -> limit <= activeConnections w ->
      let w' := handleNewConnection cfg w id addr tk in
      activeConnections w' = activeConnections w /\
      singletons w' = singletons w /\
      sshClients w' = sshClients w /\
      exists s, sockets w' !! id = Some s /\
                endCalled s = true /\ handled s = None /\ countsClose s = false) /\
  (forall id addr tk,
      match maxConnections cfg with
      | JS.Num limit => activeConnections w < limit
      | JS.NaN => True
      end ->
      let w' := handleNewConnection cfg w id addr tk in
      activeConnections w' = activeConnections w + 1 /\
      enabled w' (Close id) /\
      activeConnections (onClose w' id) = activeConnections w /\
      ~ enabled (onClose w' id) (Close id)) /\
  (forall addr tk,
      let w' := onSshClient w addr tk in
      activeConnections w' = activeConnections w /\
      sockets w' = sockets w /\
      exists ended,
        sshClients w' = (sshClients w ++ [(Ssh.clientIP addr, ended)])%list /\
        (ended = true <->
         exists f, Proxy.ipFilter (singletons w) = Some f /\
                   IpFilter.allowed
                     (fst (IpFilter.shouldAllowConnection f (Ssh.clientIP addr) tk))
                   = false)).
Proof.
  intros Hr.
  pose proof (counter_counts_open_sockets cfg g w Hr) as Hcount.
  split; [|split; [|split; [|split]]].
  - split; [|exact Hcount]. rewrite Hcount. unfold openCounted. lia.
  - intros limit Hmax. by apply (counter_bounded cfg g w limit).
  - intros limit id addr tk Hmax Hfull. cbn zeta.
    rewrite handle_at_limit by (apply limit_check_fires; by exists limit).
    cbn. split; [reflexivity|]. split; [reflexivity|]. split; [reflexivity|].
    exists (turnedAway addr). split; [apply lookup_insert_eq|]. done.
  - intros id addr tk Hroom. apply increment_and_matching_decrement.
    by apply limit_check_passes.
  - intros addr tk. apply ssh_client_outside_the_cap.
Qed.

(** The failing input.  Under [cfgOne] (limit 1) one TCP client is
    connected and a second one has been turned away, so the counter is at
    the limit; the SSH client that connects next from 192.0.2.77 is not
    ended, and the counter still reads 1. *)
Lemma connection_cap_witness :
  maxConnections cfgOne = JS.Num 1 /\
  activeConnections worldTwoArrivals = 1 /\
  sockets worldTwoArrivals !! 2%nat = Some (turnedAway (Some "198.51.100.9")) /\
  activeConnections worldSshAtLimit = 1 /\
  sshClients worldSshAtLimit = [("192.0.2.77", false)].
Proof.
  assert (Hr : reachable cfgOne (Proxy.mkSingletons (Some filterDemo) (Some geoDemo))
                 worldTwoArrivals).
  { unfold worldTwoArrivals. apply reachable_fire; [apply reachable_fire|].
    - apply reachable_initial.
    - reflexivity.
    - vm_compute. reflexivity. }
  destruct (connection_cap_covers_tcp_only cfgOne
              (Proxy.mkSingletons (Some filterDemo) (Some geoDemo)) worldTwoArrivals Hr)
    as (_ & _ & _ & _ & Hssh).
  destruct (Hssh (Some "192.0.2.77") (at_ 2000)) as (Hcount & _ & _).
  split; [reflexivity|]. split; [vm_compute; reflexivity|].
  split; [vm_compute; reflexivity|]. split.
  - unfold worldSshAtLimit. cbn [fire]. rewrite Hcount. vm_compute. reflexivity.
  - vm_compute. reflexivity.
Defined.

End ConnectionCounter.

(* ===================================================================== *)
(** ** CIDR matching *)
(* ===================================================================== *)

Section Cidr.
Import JS IpFilter.

Example ipToInt_ex : ipToInt "192.168.1.1" = Some (Num 3232235777).
Proof. reflexivity. Qed.

Example ipToInt_not_v4 : ipToInt "2001:db8::1" = None.
Proof. reflexivity. Qed.

Example cidr_24_hit : ipMatchesCIDR "10.0.0.50" "10.0.0.0/24" = true.
Proof. reflexivity. Qed.

Example cidr_24_miss : ipMatchesCIDR "10.0.1.1" "10.0.0.0/24" = false.
Proof. reflexivity. Qed.

Example cidr_literal_v6 : ipMatchesCIDR "2001:db8::1" "2001:db8::1" = true.
Proof. reflexivity. Qed.

(** *** [split] on strings built around a separator *)

(** A string without the separator is one part; a separator-free prefix
    followed by the separator is split off as the first part. *)
Lemma split_no_sep sep s : no_char sep s = true -> split sep s = [s].
Proof.
  induction s as [|a s IH]; [reflexivity|]. simpl.
  intros [Ha Hs]%andb_true_iff.
  apply negb_true_iff in Ha. rewrite Ha, (IH Hs). reflexivity.
Qed.

Lemma split_app_sep sep s rest :
  no_char sep s = true -> split sep (s +:+ String sep rest) = s :: split sep rest.
Proof.
  induction s as [|a s IH]; simpl.
  - intros _. by rewrite Ascii.eqb_refl.
  - intros [Ha Hs]%andb_true_iff. apply negb_true_iff in Ha. rewrite Ha, (IH Hs). reflexivity.
Qed.

Lemma no_char_app c s t : no_char c (s +:+ t) = no_char c s && no_char c t.
Proof.
  induction s as [|a s IH]; simpl; [reflexivity|].
  rewrite IH. by rewrite andb_assoc.
Qed.

(** *** Decimal renderings of octets and prefix lengths *)

(** Checked by running [small_ok] on all of 0..255. *)
Lemma small_table : forallb small_ok (seq 0 256) = true.
Proof. vm_compute. reflexivity. Qed.

Lemma number_eqb_eq a z : number_eqb a (Num z) = true -> a = Num z.
Proof. destruct a as [y|]; cbn; [|discriminate]. intros H%Z.eqb_eq. by subst. Qed.

Lemma small_entry o : octet o -> small_ok (Z.to_nat o) = true.
Proof.
  intros [Hlo Hhi]. pose proof small_table as T. rewrite forallb_forall in T.
  apply T. apply in_seq. lia.
Qed.

Lemma octet_string o :
  octet o ->
  parseInt (toString o) = Num o /\ no_char "." (toString o) = true /\
  no_char "/" (toString o) = true /\ toString o <> EmptyString.
Proof.
  intros Ho. pose proof (small_entry o Ho) as T. destruct Ho as [Hlo Hhi].
  unfold small_ok in T. rewrite Z2Nat.id in T by lia.
  apply andb_true_iff in T as [T _].
  apply andb_true_iff in T as [T T4]. apply andb_true_iff in T as [T T3].
  apply andb_true_iff in T as [T1 T2].
  split; [by apply number_eqb_eq|]. split; [exact T2|]. split; [exact T3|].
  apply negb_true_iff in T4. by apply String.eqb_neq.
Qed.

Lemma octet_no_colon o : octet o -> startsWith_ci ":" (toString o) = false.
Proof.
  intros Ho. pose proof (small_entry o Ho) as T. destruct Ho as [Hlo Hhi].
  unfold small_ok in T. rewrite Z2Nat.id in T by lia.
  apply andb_true_iff in T as [_ T]. by apply negb_true_iff in T.
Qed.

(** *** [ipToInt] on dotted quads *)
Lemma ipv4_split a b c d :
  octet a -> octet b -> octet c -> octet d ->
  split "." (ipv4 a b c d) = [toString a; toString b; toString c; toString d].
Proof.
  intros Ha Hb Hc Hd. unfold ipv4.
  destruct (octet_string a Ha) as (_ & Da & _).
  destruct (octet_string b Hb) as (_ & Db & _).
  destruct (octet_string c Hc) as (_ & Dc & _).
  destruct (octet_string d Hd) as (_ & Dd & _).
  change (toString a +:+ "." +:+ toString b +:+ "." +:+ toString c +:+ "." +:+ toString d)
    with (toString a +:+ String "." (toString b +:+ String "."
            (toString c +:+ String "." (toString d)))).
  rewrite !split_app_sep by assumption.
  by rewrite split_no_sep.
Qed.

Lemma ipv4_no_slash a b c d :
  octet a -> octet b -> octet c -> octet d -> no_char "/" (ipv4 a b c d) = true.
Proof.
  intros Ha Hb Hc Hd. unfold ipv4.
  destruct (octet_string a Ha) as (_ & _ & Sa & _).
  destruct (octet_string b Hb) as (_ & _ & Sb & _).
  destruct (octet_string c Hc) as (_ & _ & Sc & _).
  destruct (octet_string d Hd) as (_ & _ & Sd & _).
  rewrite !no_char_app, Sa, Sb, Sc, Sd. reflexivity.
Qed.

(** ToInt32 is the identity below 2^31 and preserves the residue modulo
    2^32. *)
Lemma wrap_int32_small z : 0 <= z < 2 ^ 31 -> wrap_int32 z = z.
Proof.
  intros H. unfold wrap_int32. change (2 ^ 32) with 4294967296 in *.
  change (2 ^ 31) with 2147483648 in *.
  rewrite Z.mod_small by lia.
  destruct (Z.ltb_spec z 2147483648); lia.
Qed.

Lemma wrap_int32_mod z : wrap_int32 z mod 2 ^ 32 = z mod 2 ^ 32.
Proof.
  unfold wrap_int32. change (2 ^ 32) with 4294967296. change (2 ^ 31) with 2147483648.
  destruct (Z.ltb_spec (z mod 4294967296) 2147483648).
  - apply Z.mod_mod. lia.
  - Z.div_mod_to_equations. lia.
Qed.

(** The steps of the [reduce]: [(acc << 8) + octet] stays exact for the
    first three octets; the fourth may overflow into the sign bit, which
    the final [>>> 0] undoes. *)
Lemma shl8_small z : 0 <= z < 2 ^ 23 -> shl (Num z) (Num 8) = Num (z * 256).
Proof.
  intros H. unfold shl, ToInt32, ToUint32.
  change (8 mod 2 ^ 32 mod 32) with 8.
  rewrite (wrap_int32_small z) by lia. rewrite Z.shiftl_mul_pow2 by lia.
  change (2 ^ 8) with 256. rewrite wrap_int32_small by lia. reflexivity.
Qed.

Lemma shl8_last z d :
  0 <= z < 2 ^ 24 -> 0 <= d < 256 ->
  ushr (add (shl (Num z) (Num 8)) (Num d)) (Num 0) = Num (z * 256 + d).
Proof.
  intros Hz Hd. unfold ushr, add, shl, ToInt32, ToUint32.
  change (8 mod 2 ^ 32 mod 32) with 8. change (0 mod 2 ^ 32 mod 32) with 0.
  rewrite Z.shiftr_0_r. rewrite (wrap_int32_small z) by lia.
  rewrite Z.shiftl_mul_pow2 by lia. change (2 ^ 8) with 256.
  f_equal. rewrite Z.add_mod by lia. rewrite wrap_int32_mod. rewrite <- Z.add_mod by lia.
  apply Z.mod_small. lia.
Qed.

Lemma ipToInt_ipv4 a b c d :
  octet a -> octet b -> octet c -> octet d ->
  ipToInt (ipv4 a b c d) = Some (Num (ipv4_value a b c d)).
Proof.
  intros Ha Hb Hc Hd. unfold ipToInt. rewrite ipv4_split by assumption.
  destruct (octet_string a Ha) as (Pa & _).
  destruct (octet_string b Hb) as (Pb & _).
  destruct (octet_string c Hc) as (Pc & _).
  destruct (octet_string d Hd) as (Pd & _).
  cbn [length Nat.eqb fold_left]. rewrite Pa, Pb, Pc, Pd.
  unfold octet in *.
  rewrite (shl8_small 0) by lia. cbn [add]. rewrite Z.mul_0_l, Z.add_0_l.
  rewrite (shl8_small a) by lia. cbn [add].
  rewrite (shl8_small (a * 256 + b)) by lia. cbn [add].
  rewrite shl8_last by lia.
  unfold ipv4_value. do 2 f_equal. lia.
Qed.

(** *** The mask *)

(** And-ing with [-2^k] clears the low [k] bits. *)
Lemma land_neg_pow2 x k : 0 <= k -> Z.land x (- 2 ^ k) = x / 2 ^ k * 2 ^ k.
Proof.
  intros Hk.
  replace (- 2 ^ k) with (Z.lnot (Z.ones k)).
  2:{ rewrite Z.ones_equiv. unfold Z.lnot. lia. }
  rewrite <- Z.ldiff_land, Z.ldiff_ones_r by lia.
  rewrite Z.shiftr_div_pow2, Z.shiftl_mul_pow2 by lia. reflexivity.
Qed.

Lemma ipv4_value_range a b c d :
  octet a -> octet b -> octet c -> octet d -> 0 <= ipv4_value a b c d < 2 ^ 32.
Proof. unfold octet, ipv4_value. lia. Qed.

Lemma eqb_iff_eqb (a b c d : Z) : (a = b <-> c = d) -> (a =? b) = (c =? d).
Proof.
  intros H. destruct (Z.eqb_spec a b), (Z.eqb_spec c d); tauto.
Qed.

(** Two 32-bit values agree under the signed mask [-2^k] exactly when
    they agree above bit [k]. *)
Lemma band_mask_prefix (k i r : Z) :
  0 <= k <= 31 -> 0 <= i < 2 ^ 32 -> 0 <= r < 2 ^ 32 ->
  (Z.land (wrap_int32 i) (- 2 ^ k) =? Z.land (wrap_int32 r) (- 2 ^ k))
  = (Z.shiftr i k =? Z.shiftr r k).
Proof.
  intros Hk Hi Hr. rewrite !land_neg_pow2 by lia. rewrite !Z.shiftr_div_pow2 by lia.
  apply eqb_iff_eqb.
  assert (Hp : 0 < 2 ^ k) by (apply Z.pow_pos_nonneg; lia).
  assert (Hsplit : 2 ^ 32 = 2 ^ (32 - k) * 2 ^ k).
  { rewrite <- Z.pow_add_r by lia. f_equal. lia. }
  assert (Hq : 0 < 2 ^ (32 - k)) by (apply Z.pow_pos_nonneg; lia).
  assert (Hw : forall z, 0 <= z < 2 ^ 32 ->
             exists e, (e = 0 \/ e = 1) /\ wrap_int32 z = z - e * 2 ^ 32 /\
                       (e = 1 <-> 2 ^ 31 <= z)).
  { intros z Hz. unfold wrap_int32. rewrite Z.mod_small by lia.
    destruct (Z.ltb_spec z (2 ^ 31)); [exists 0 | exists 1]; lia. }
  destruct (Hw i Hi) as (ei & Hei & -> & Hi31).
  destruct (Hw r Hr) as (er & Her & -> & Hr31).
  assert (Hd : forall z e, (z - e * 2 ^ 32) / 2 ^ k = z / 2 ^ k - e * 2 ^ (32 - k)).
  { intros z e. rewrite Hsplit.
    replace (z - e * (2 ^ (32 - k) * 2 ^ k)) with (z + (- e * 2 ^ (32 - k)) * 2 ^ k) by lia.
    rewrite Z.div_add by lia. lia. }
  rewrite !Hd.
  assert (Hiq : 0 <= i / 2 ^ k < 2 ^ (32 - k)).
  { split; [apply Z.div_pos; lia|]. apply Z.div_lt_upper_bound; lia. }
  assert (Hrq : 0 <= r / 2 ^ k < 2 ^ (32 - k)).
  { split; [apply Z.div_pos; lia|]. apply Z.div_lt_upper_bound; lia. }
  assert (H31 : 2 ^ 31 = 2 ^ (31 - k) * 2 ^ k).
  { rewrite <- Z.pow_add_r by lia. f_equal. lia. }
  assert (Hhalf : forall z, 0 <= z -> (2 ^ 31 <= z <-> 2 ^ (31 - k) <= z / 2 ^ k)).
  { intros z Hz. rewrite H31. split; intros H.
    - apply Z.div_le_lower_bound; lia.
    - apply Z.nlt_ge. intros Hlt.
      assert (z / 2 ^ k < 2 ^ (31 - k)) by (apply Z.div_lt_upper_bound; lia). lia. }
  pose proof (Hhalf i ltac:(lia)) as Hhi. pose proof (Hhalf r ltac:(lia)) as Hhr.
  set (qi := i / 2 ^ k) in *. set (qr := r / 2 ^ k) in *.
  set (Q := 2 ^ (32 - k)) in *. set (P := 2 ^ k) in *.
  split.
  - intros H. apply Z.mul_cancel_r in H; [|lia].
    destruct Hei as [-> | ->], Her as [-> | ->]; lia.
  - intros H. rewrite H in *.
    assert (ei = er) as -> by (destruct Hei as [-> | ->], Her as [-> | ->]; lia).
    reflexivity.
Qed.

(** Checked by running [mask_ok] on all of 0..32. *)
Lemma mask_table : forallb mask_ok (seq 0 33) = true.
Proof. vm_compute. reflexivity. Qed.

Lemma maskOf_int32 N :
  0 <= N <= 32 -> ToInt32 (maskOf N) = - 2 ^ (if N =? 0 then 0 else 32 - N).
Proof.
  intros HN. pose proof mask_table as T. rewrite forallb_forall in T.
  specialize (T (Z.to_nat N)).
  assert (Hin : In (Z.to_nat N) (seq 0 33)) by (apply in_seq; lia).
  specialize (T Hin). unfold mask_ok in T. rewrite Z2Nat.id in T by lia.
  apply Z.eqb_eq in T. rewrite T. do 2 f_equal.
  destruct (Nat.eqb_spec (Z.to_nat N) 0), (Z.eqb_spec N 0); lia.
Qed.

(** The value of [ipMatchesCIDR] on an IPv4 address and an entry
    [A.B.C.D/N]. *)
Lemma cidr_match_general (a b c d A B C D N : Z) :
  octet a -> octet b -> octet c -> octet d ->
  octet A -> octet B -> octet C -> octet D ->
  0 <= N <= 32 ->
  ipMatchesCIDR (ipv4 a b c d) (cidrEntry (ipv4 A B C D) N)
  = if N =? 0
    then ipv4_value a b c d =? ipv4_value A B C D
    else Z.shiftr (ipv4_value a b c d) (32 - N) =? Z.shiftr (ipv4_value A B C D) (32 - N).
Proof.
  intros Ha Hb Hc Hd HA HB HC HD HN.
  assert (HNo : octet N) by (unfold octet; lia).
  destruct (octet_string N HNo) as (PN & _ & SN & EN).
  unfold ipMatchesCIDR, cidrEntry.
  change (ipv4 A B C D +:+ "/" +:+ toString N)
    with (ipv4 A B C D +:+ String "/" (toString N)).
  rewrite split_app_sep by (by apply ipv4_no_slash).
  rewrite split_no_sep by exact SN.
  apply String.eqb_neq in EN. rewrite EN.
  rewrite !ipToInt_ipv4 by assumption. rewrite PN.
  change (ushr (shl (bitnot (Num 0)) (sub (Num 32) (Num N))) (Num 0)) with (maskOf N).
  unfold band, number_eqb. rewrite maskOf_int32 by exact HN.
  cbn [ToInt32].
  pose proof (ipv4_value_range a b c d Ha Hb Hc Hd) as Ri.
  pose proof (ipv4_value_range A B C D HA HB HC HD) as Rr.
  destruct (Z.eqb_spec N 0) as [-> | Hnz].
  - rewrite band_mask_prefix by lia. by rewrite !Z.shiftr_0_r.
  - rewrite band_mask_prefix by lia. reflexivity.
Qed.

(** C7.  What [ipMatchesCIDR] computes for an IPv4 address and an entry
    [A.B.C.D/N] with [0 <= N <= 32]: for [N >= 1] it holds exactly when the
    address and the base agree on their high [N] bits, as the claim says;
    for [N = 0] the shift count [32 - 0] wraps to 0, the mask is all ones,
    and the entry matches the base address only, not every address. *)
Theorem cidr_match_characterised (a b c d A B C D N : Z) :
  octet a -> octet b -> octet c -> octet d ->
  octet A -> octet B -> octet C -> octet D ->
  0 <= N <= 32 ->
  (ipMatchesCIDR (ipv4 a b c d) (cidrEntry (ipv4 A B C D) N) = true <->
   if N =? 0
   then ipv4_value a b c d = ipv4_value A B C D
   else Z.shiftr (ipv4_value a b c d) (32 - N) = Z.shiftr (ipv4_value A B C D) (32 - N)).
Proof.
  intros Ha Hb Hc Hd HA HB HC HD HN.
  rewrite cidr_match_general by assumption.
  destruct (N =? 0); apply Z.eqb_eq.
Qed.

(** The failing input: 1.2.3.4 against [0.0.0.0/0]. *)
Lemma cidr_prefix_zero_witness :
  ipMatchesCIDR "1.2.3.4" "0.0.0.0/0" = false.
Proof.
  change "1.2.3.4" with (ipv4 1 2 3 4).
  change "0.0.0.0/0" with (cidrEntry (ipv4 0 0 0 0) 0).
  apply not_true_is_false. intros Hm.
  apply (cidr_match_characterised 1 2 3 4 0 0 0 0 0) in Hm; unfold octet; try lia.
  vm_compute in Hm. discriminate.
Defined.

Example cidr_prefix_zero_mask :
  ushr (shl (bitnot (Num 0)) (sub (Num 32) (parseInt "0"))) (Num 0) = Num (2 ^ 32 - 1).
Proof. reflexivity. Qed.

Example cidr_prefix_zero_base : ipMatchesCIDR "0.0.0.0" "0.0.0.0/0" = true.
Proof. reflexivity. Qed.

(** For [N >= 1] the match is the agreement on the high [N] bits. *)
Corollary cidr_match_high_bits (a b c d A B C D N : Z) :
  octet a -> octet b -> octet c -> octet d ->
  octet A -> octet B -> octet C -> octet D ->
  1 <= N <= 32 ->
  ipMatchesCIDR (ipv4 a b c d) (cidrEntry (ipv4 A B C D) N) = true <->
  Z.shiftr (ipv4_value a b c d) (32 - N) = Z.shiftr (ipv4_value A B C D) (32 - N).
Proof.
  intros Ha Hb Hc Hd HA HB HC HD HN.
  rewrite cidr_match_general by (assumption || lia).
  destruct (Z.eqb_spec N 0); [lia|]. apply Z.eqb_eq.
Qed.

(** *** Normalisation of IPv4 literals *)

Lemma startsWith_ci_first (c : ascii) (p s r : string) :
  s <> EmptyString ->
  startsWith_ci (String c EmptyString) s = false ->
  startsWith_ci (String c p) (s +:+ r) = false.
Proof.
  intros Hs H. destruct s as [|a s]; [congruence|]. simpl in *.
  destruct (Ascii.eqb (upper_char c) (upper_char a)); [discriminate | reflexivity].
Qed.

(** A dotted quad is its own normal form, and the normal form of its
    IPv4-mapped spelling: on the addresses a socket reports, a second
    normalisation changes nothing. *)
Lemma cleanIp_ipv4 (a b c d : Z) :
  octet a -> octet b -> octet c -> octet d ->
  cleanIp (ipv4 a b c d) = ipv4 a b c d /\
  cleanIp ("::ffff:" +:+ ipv4 a b c d) = ipv4 a b c d /\
  cleanIp ("::FFFF:" +:+ ipv4 a b c d) = ipv4 a b c d.
Proof.
  intros Ha Hb Hc Hd.
  destruct (octet_string a Ha) as (_ & _ & _ & Ea).
  split; [|split; reflexivity].
  apply cleanIp_fixed. unfold ipv4.
  apply startsWith_ci_first; [exact Ea | by apply octet_no_colon].
Qed.

End Cidr.

(* ===================================================================== *)
(** ** Addresses and CIDR entries, continued *)
(* ===================================================================== *)

Section AddressesAndRanges.
Import JS IpFilter.

(** X1.  [ipToInt] on dotted quads: for octets between 0 and 255 the
    result is the unsigned 32-bit value [ipv4_value a b c d], the number
    with the four octets as its base-256 digits,
    never [null] and never negative (the closing [>>> 0] undoes the sign
    of the 32-bit shifts), and two dotted quads get the same number only
    if they are the same address. *)
Theorem ipToInt_dotted_quad (a b c d a' b' c' d' : Z) :
  octet a -> octet b -> octet c -> octet d ->
  octet a' -> octet b' -> octet c' -> octet d' ->
  ipToInt (ipv4 a b c d) = Some (Num (ipv4_value a b c d)) /\
  0 <= ipv4_value a b c d < 2 ^ 32 /\
  (ipToInt (ipv4 a b c d) = ipToInt (ipv4 a' b' c' d') <->
   a = a' /\ b = b' /\ c = c' /\ d = d').
Proof.
  intros Ha Hb Hc Hd Ha' Hb' Hc' Hd'.
  rewrite !ipToInt_ipv4 by assumption.
  split; [reflexivity|]. split; [by apply ipv4_value_range|].
  unfold octet, ipv4_value in *. split.
  - intros [= H]. lia.
  - intros (-> & -> & -> & ->). reflexivity.
Qed.

Lemma ipToInt_dotted_quad_witness :
  ipToInt "203.0.113.7" = Some (Num 3405803783).
Proof.
  change "203.0.113.7" with (ipv4 203 0 113 7).
  destruct (ipToInt_dotted_quad 203 0 113 7 0 0 0 0) as (H & _); unfold octet; try lia.
  rewrite H. reflexivity.
Defined.

Lemma ipToInt_no_dot ip : no_char "." ip = true -> ipToInt ip = None.
Proof. intros H. unfold ipToInt. by rewrite split_no_sep. Qed.

(** X2.  Where [ipMatchesCIDR] compares strings: an entry without a
    slash matches exactly the address spelled like it, and an address
    without a dot (an IPv6 address, say) matches no range, only an entry
    spelled like it. *)
Theorem cidr_exact_match_fallback (ip cidr : string) :
  (no_char "/" cidr = true -> ipMatchesCIDR ip cidr = String.eqb ip cidr) /\
  (no_char "." ip = true -> ipMatchesCIDR ip cidr = String.eqb ip cidr).
Proof.
  split; intros H; unfold ipMatchesCIDR.
  - by rewrite split_no_sep.
  - rewrite (ipToInt_no_dot ip H).
    destruct (split "/" cidr) as [|range [|bits rest]]; try reflexivity.
    destruct (String.eqb bits EmptyString); reflexivity.
Qed.

Lemma cidr_exact_match_witness :
  ipMatchesCIDR "2001:db8::1" "10.0.0.0/8" = false /\
  ipMatchesCIDR "10.0.0.1" "10.0.0.1" = true.
Proof.
  split.
  - destruct (cidr_exact_match_fallback "2001:db8::1" "10.0.0.0/8") as [_ H].
    rewrite H; reflexivity.
  - destruct (cidr_exact_match_fallback "10.0.0.1" "10.0.0.1") as [H _].
    rewrite H; reflexivity.
Defined.

(** X3.  Ranges nest: an address inside [A.B.C.D/N] is inside
    [A.B.C.D/M] for every shorter prefix length [M] from 1 on. *)
Theorem cidr_shorter_prefix_matches (a b c d A B C D N M : Z) :
  octet a -> octet b -> octet c -> octet d ->
  octet A -> octet B -> octet C -> octet D ->
  1 <= M <= N -> N <= 32 ->
  ipMatchesCIDR (ipv4 a b c d) (cidrEntry (ipv4 A B C D) N) = true ->
  ipMatchesCIDR (ipv4 a b c d) (cidrEntry (ipv4 A B C D) M) = true.
Proof.
  intros Ha Hb Hc Hd HA HB HC HD HM HN.
  rewrite !cidr_match_high_bits by (assumption || lia).
  intros H.
  replace (32 - M) with ((32 - N) + (N - M)) by lia.
  rewrite <- !Z.shiftr_shiftr by lia. by rewrite H.
Qed.

Lemma cidr_shorter_prefix_witness :
  ipMatchesCIDR "10.1.2.3" "10.1.2.0/16" = true.
Proof.
  change "10.1.2.3" with (ipv4 10 1 2 3).
  change "10.1.2.0/16" with (cidrEntry (ipv4 10 1 2 0) 16).
  apply (cidr_shorter_prefix_matches 10 1 2 3 10 1 2 0 24 16); unfold octet; try lia.
  reflexivity.
Defined.

End AddressesAndRanges.

(* ===================================================================== *)
(** ** The IP filter's decisions, continued *)
(* ===================================================================== *)

Section FilterDecisions.
Import JS IpFilter.

Lemma cleanIp_nonempty (y : string) : cleanIp y <> EmptyString -> y <> EmptyString.
Proof. intros H ->. by apply H. Qed.

(** X4.  An IPv4-mapped spelling gets the decision of the plain address.
    If [y] normalises to the plain address [x] and [y] itself is not
    written in either list file, [shouldAllowConnection] returns for [y]
    the same result and the same filter state as for [x]: the lists are
    consulted, the attempt is recorded and a block is set under the
    normalised address. *)
Theorem mapped_address_same_decision (f : IPFilter) (x y : string) (tk : Ticks) :
  x <> EmptyString -> cleanIp y = x -> cleanIp x = x ->
  y ∉ whitelist f -> y ∉ blocklist f ->
  shouldAllowConnection f y tk = shouldAllowConnection f x tk.
Proof.
  intros Hx Hy Hxx Hyw Hyb.
  assert (Hyv : invalidIp y = false).
  { apply invalidIp_false. apply cleanIp_nonempty. by rewrite Hy. }
  assert (Hw : isIPWhitelisted f y = isIPWhitelisted f x).
  { unfold isIPWhitelisted. rewrite Hyv, (invalidIp_false x Hx), Hy, Hxx.
    rewrite (bool_decide_eq_false_2 _ Hyw). by destruct (bool_decide (x ∈ whitelist f)). }
  assert (Hb : forall g, blocklist g = blocklist f ->
                         isIPInBlocklist g y = isIPInBlocklist g x).
  { intros g Hg. unfold isIPInBlocklist. rewrite Hyv, (invalidIp_false x Hx), Hy, Hxx, Hg.
    rewrite (bool_decide_eq_false_2 _ Hyb). by destruct (bool_decide (x ∈ blocklist f)). }
  unfold shouldAllowConnection, isIPBlocked, recordConnectionAttempt.
  rewrite Hyv, (invalidIp_false x Hx), Hw, Hy, Hxx.
  rewrite !Hb by reflexivity. reflexivity.
Qed.

Lemma mapped_address_same_decision_witness :
  shouldAllowConnection filterDemo "::ffff:198.51.100.9" (at_ 0)
  = shouldAllowConnection filterDemo "198.51.100.9" (at_ 0).
Proof.
  apply mapped_address_same_decision.
  - discriminate.
  - reflexivity.
  - reflexivity.
  - apply (bool_decide_eq_false_1 _). vm_compute. reflexivity.
  - apply (bool_decide_eq_false_1 _). vm_compute. reflexivity.
Defined.


(** X5.  A temporary block that has not run out refuses the connection
    with the reason stored when the block was set, and the call leaves
    the filter as it was: the attempt is not recorded and the block is
    not extended. *)
Theorem active_block_refuses (f : IPFilter) (x : string) (tk : Ticks) (blockInfo : BlockInfo) :
  x <> EmptyString ->
  isIPWhitelisted f x = false ->
  blockedIPs f !! cleanIp x = Some blockInfo ->
  tick_isIPBlocked tk < blockedUntil blockInfo ->
  shouldAllowConnection f x tk = (denied (blockReason blockInfo), f).
Proof.
  intros Hx Hw Hb Hact. unfold shouldAllowConnection, isIPBlocked.
  rewrite (invalidIp_false x Hx), Hw, Hb.
  replace (tick_isIPBlocked tk <? blockedUntil blockInfo) with true
    by (symmetry; apply Z.ltb_lt; lia).
  reflexivity.
Qed.

Lemma active_block_refuses_witness :
  shouldAllowConnection filterReloaded "10.0.0.50" (at_ 12999)
  = (denied "Rate limit exceeded: 4 connections in 60000ms", filterReloaded).
Proof.
  apply (active_block_refuses filterReloaded "10.0.0.50" (at_ 12999)
           (mkBlockInfo 13000 "Rate limit exceeded: 4 connections in 60000ms" 3000)).
  - discriminate.
  - vm_compute. reflexivity.
  - vm_compute. reflexivity.
  - vm_compute. reflexivity.
Defined.

(** X6.  [blockIP] followed by [isIPBlocked].  Until [durationMs] after
    the block was set, the address is reported blocked, temporary, with
    the reason given; from that instant on the first query deletes the
    entry and the answer is the blocklist's alone. *)
Theorem blockIP_then_isIPBlocked (f : IPFilter) (x : string) (durationMs : Z)
    (why : string) (tk0 tk : Ticks) :
  x <> EmptyString ->
  let f' := blockIP f x durationMs why tk0 in
  (tick_isIPBlocked tk < tick_blockedUntil tk0 + durationMs ->
     isIPBlocked f' x tk = (mkBlockCheck true (Some why) (Some true), f')) /\
  (tick_blockedUntil tk0 + durationMs <= tick_isIPBlocked tk ->
     blockedIPs (snd (isIPBlocked f' x tk)) !! cleanIp x = None /\
     blocked (fst (isIPBlocked f' x tk)) = isIPInBlocklist f x /\
     temporary (fst (isIPBlocked f' x tk)) <> Some true).
Proof.
  intros Hx f'. unfold isIPBlocked. rewrite (invalidIp_false x Hx).
  subst f'. unfold blockIP. cbn [blockedIPs set_blockedIPs].
  rewrite lookup_insert_eq. cbn [blockedUntil blockReason]. split; intros Ht.
  - replace (tick_isIPBlocked tk <? tick_blockedUntil tk0 + durationMs) with true
      by (symmetry; apply Z.ltb_lt; lia).
    reflexivity.
  - replace (tick_isIPBlocked tk <? tick_blockedUntil tk0 + durationMs) with false
      by (symmetry; apply Z.ltb_ge; lia).
    change (isIPInBlocklist (set_blockedIPs _ _) x) with (isIPInBlocklist f x).
    destruct (isIPInBlocklist f x); cbn; rewrite lookup_delete_eq; done.
Qed.

Lemma blockIP_then_isIPBlocked_witness :
  fst (isIPBlocked (blockIP filterDemo "198.51.100.9" 10000 "flood" (at_ 0))
         "198.51.100.9" (at_ 9999))
  = mkBlockCheck true (Some "flood") (Some true).
Proof.
  destruct (blockIP_then_isIPBlocked filterDemo "198.51.100.9" 10000 "flood"
              (at_ 0) (at_ 9999)) as [H _]; [discriminate|].
  rewrite H; [reflexivity|]. vm_compute. reflexivity.
Defined.

Lemma filter_snoc_True (P : Z -> Prop) `{!forall z, Decision (P z)} (l : list Z) (z : Z) :
  P z -> filter P (l ++ [z])%list = (filter P l ++ [z])%list.
Proof. intros Hz. rewrite filter_app. by rewrite (filter_cons_True _ _ _ Hz). Qed.

(** X7.  The sliding window.  For an address that is in neither list and
    not temporarily blocked, with rate limiting on, the decision depends
    only on the attempts recorded strictly less than [rateLimitWindowMs]
    ago: the connection is refused exactly when there are already
    [maxConnectionsPerWindow] of them, and in both cases the stored list
    becomes those attempts followed by the present one (older ones are
    dropped). *)
Theorem sliding_window_decision (f : IPFilter) (x : string) (tk : Ticks) :
  rateLimitEnabled (config f) = true ->
  0 < rateLimitWindowMs (config f) ->
  x <> EmptyString ->
  isIPWhitelisted f x = false ->
  isIPInBlocklist f x = false ->
  temporarilyBlockedAt f x (tick_isIPBlocked tk) = false ->
  let inWindow :=
    filter (fun time => tick_record tk - rateLimitWindowMs (config f) < time)
           (default [] (connectionAttempts f !! cleanIp x)) in
  fst (shouldAllowConnection f x tk)
  = (if maxConnectionsPerWindow (config f) <=? Z.of_nat (length inWindow)
     then denied "Rate limit exceeded" else allowedPlain) /\
  connectionAttempts (snd (shouldAllowConnection f x tk)) !! cleanIp x
  = Some (inWindow ++ [tick_record tk])%list.
Proof.
  intros Hen HW Hx Hw Hb Htmp inWindow.
  assert (Hgo : forall g, config g = config f -> blocklist g = blocklist f ->
                  connectionAttempts g = connectionAttempts f ->
                  fst (let '(rateLimitExceeded, f2) := recordConnectionAttempt g x tk in
                       match rateLimitExceeded with
                       | Some true => (denied "Rate limit exceeded", f2)
                       | _ => (allowedPlain, f2)
                       end)
                  = (if maxConnectionsPerWindow (config f) <=? Z.of_nat (length inWindow)
                     then denied "Rate limit exceeded" else allowedPlain) /\
                  connectionAttempts
                    (snd (let '(rateLimitExceeded, f2) := recordConnectionAttempt g x tk in
                          match rateLimitExceeded with
                          | Some true => (denied "Rate limit exceeded", f2)
                          | _ => (allowedPlain, f2)
                          end)) !! cleanIp x
                  = Some (inWindow ++ [tick_record tk])%list).
  { intros g Hc _ Ha. unfold recordConnectionAttempt.
    rewrite Hc, Hen, (invalidIp_false x Hx), Ha. cbn [negb].
    rewrite filter_snoc_True by lia. fold inWindow.
    rewrite length_app. cbn [length].
    destruct (Z.ltb_spec (maxConnectionsPerWindow (config f))
                (Z.of_nat (length inWindow + 1)));
      destruct (Z.leb_spec (maxConnectionsPerWindow (config f))
                  (Z.of_nat (length inWindow))); try lia.
    - split; [reflexivity|]. unfold blockIP. cbn. apply lookup_insert_eq.
    - split; [reflexivity|]. cbn. apply lookup_insert_eq. }
  unfold shouldAllowConnection, isIPBlocked.
  rewrite (invalidIp_false x Hx), Hw. unfold temporarilyBlockedAt in Htmp.
  destruct (blockedIPs f !! cleanIp x) as [blockInfo|].
  - rewrite Htmp.
    change (isIPInBlocklist (set_blockedIPs _ f) x) with (isIPInBlocklist f x).
    rewrite Hb. cbn [blocked]. by apply Hgo.
  - rewrite Hb. cbn [blocked]. by apply Hgo.
Qed.

(** Three attempts at 0, 1000 and 2000 ms fill the window of [cfgDemo];
    at 60000 ms the first has left it and the connection is allowed. *)
Lemma sliding_window_witness :
  fst (shouldAllowConnection filterThreeAttempts "198.51.100.9" (at_ 60000)) = allowedPlain /\
  connectionAttempts (snd (shouldAllowConnection filterThreeAttempts "198.51.100.9"
                             (at_ 60000))) !! "198.51.100.9"
  = Some [1000; 2000; 60000].
Proof.
  destruct (sliding_window_decision filterThreeAttempts "198.51.100.9" (at_ 60000))
    as [Hd Ha].
  - reflexivity.
  - vm_compute. reflexivity.
  - discriminate.
  - vm_compute. reflexivity.
  - vm_compute. reflexivity.
  - vm_compute. reflexivity.
  - split.
    + rewrite Hd. vm_compute. reflexivity.
    + change (cleanIp "198.51.100.9") with "198.51.100.9" in Ha.
      rewrite Ha. vm_compute. reflexivity.
Defined.


(** X8.  With rate limiting switched off nothing is recorded: the map
    of attempts is left as it was, and an address outside the whitelist
    is allowed exactly when it is neither temporarily blocked nor in the
    blocklist. *)
Theorem without_rate_limit (f : IPFilter) (x : string) (tk : Ticks) :
  rateLimitEnabled (config f) = false ->
  x <> EmptyString ->
  isIPWhitelisted f x = false ->
  connectionAttempts (snd (shouldAllowConnection f x tk)) = connectionAttempts f /\
  (allowed (fst (shouldAllowConnection f x tk)) = true <->
   temporarilyBlockedAt f x (tick_isIPBlocked tk) = false /\ isIPInBlocklist f x = false).
Proof.
  intros Hoff Hx Hw. unfold shouldAllowConnection, isIPBlocked, temporarilyBlockedAt.
  rewrite (invalidIp_false x Hx), Hw.
  destruct (blockedIPs f !! cleanIp x) as [blockInfo|].
  - destruct (tick_isIPBlocked tk <? blockedUntil blockInfo).
    + cbn. split; [reflexivity|]. split; [discriminate | intros [? _]; discriminate].
    + change (isIPInBlocklist (set_blockedIPs _ f) x) with (isIPInBlocklist f x).
      destruct (isIPInBlocklist f x); cbn [blocked fst snd].
      * cbn. split; [reflexivity|]. split; [discriminate | intros [_ ?]; discriminate].
      * unfold recordConnectionAttempt. cbn [config set_blockedIPs]. rewrite Hoff. cbn. done.
  - destruct (isIPInBlocklist f x); cbn [blocked fst snd].
    + cbn. split; [reflexivity|]. split; [discriminate | intros [_ ?]; discriminate].
    + unfold recordConnectionAttempt. rewrite Hoff. cbn. done.
Qed.


Lemma without_rate_limit_witness :
  connectionAttempts (snd (shouldAllowConnection filterNoRate "198.51.100.9" (at_ 0))) = ∅ /\
  allowed (fst (shouldAllowConnection filterNoRate "198.51.100.9" (at_ 0))) = true.
Proof.
  destruct (without_rate_limit filterNoRate "198.51.100.9" (at_ 0)) as [Ha Hd].
  - reflexivity.
  - discriminate.
  - vm_compute. reflexivity.
  - split; [exact Ha|]. apply Hd. split; vm_compute; reflexivity.
Defined.

(** X9.  What a call of [shouldAllowConnection] can touch.  The settings
    and both lists are never changed; the attempts of every address other
    than the normalised caller are untouched; and so is every temporary
    block except the caller's, which is stored under the address
    normalised once (by [isIPBlocked]) or twice (by [blockIP], which
    normalises what [recordConnectionAttempt] already normalised). *)
Theorem shouldAllow_frame (f : IPFilter) (x : string) (tk : Ticks) :
  let f' := snd (shouldAllowConnection f x tk) in
  config f' = config f /\ whitelist f' = whitelist f /\ blocklist f' = blocklist f /\
  (forall k, k <> cleanIp x -> connectionAttempts f' !! k = connectionAttempts f !! k) /\
  (forall k, k <> cleanIp x -> k <> cleanIp (cleanIp x) ->
             blockedIPs f' !! k = blockedIPs f !! k).
Proof.
  assert (Hrec : forall g, let g' := snd (let '(rateLimitExceeded, f2) :=
                                             recordConnectionAttempt g x tk in
                                           match rateLimitExceeded with
                                           | Some true => (denied "Rate limit exceeded", f2)
                                           | _ => (allowedPlain, f2)
                                           end) in
            config g' = config g /\ whitelist g' = whitelist g /\ blocklist g' = blocklist g /\
            (forall k, k <> cleanIp x ->
                       connectionAttempts g' !! k = connectionAttempts g !! k) /\
            (forall k, k <> cleanIp (cleanIp x) -> blockedIPs g' !! k = blockedIPs g !! k)).
  { intros g. unfold recordConnectionAttempt.
    destruct (negb (rateLimitEnabled (config g))); [cbn; done|].
    destruct (invalidIp x); [cbn; done|].
    destruct (_ <? _); cbn; repeat split; try done.
    - intros k Hk. by rewrite lookup_insert_ne.
    - intros k Hk. by rewrite lookup_insert_ne.
    - intros k Hk. by rewrite lookup_insert_ne. }
  cbn zeta. unfold shouldAllowConnection, isIPBlocked.
  destruct (invalidIp x); [cbn; done|].
  destruct (isIPWhitelisted f x); [cbn; done|].
  destruct (blockedIPs f !! cleanIp x) as [blockInfo|].
  - destruct (tick_isIPBlocked tk <? blockedUntil blockInfo); [cbn; done|].
    change (isIPInBlocklist (set_blockedIPs _ f) x) with (isIPInBlocklist f x).
    destruct (isIPInBlocklist f x); cbn [blocked].
    + cbn. repeat split; try done. intros k Hk _. by rewrite lookup_delete_ne.
    + destruct (Hrec (set_blockedIPs (delete (cleanIp x) (blockedIPs f)) f))
        as (Hc & Hwl & Hbl & Ha & Hb).
      cbn zeta in *. repeat split; try done.
      intros k Hk Hk2. rewrite Hb by done. cbn. by rewrite lookup_delete_ne.
  - destruct (isIPInBlocklist f x); cbn [blocked]; [cbn; done|].
    destruct (Hrec f) as (Hc & Hwl & Hbl & Ha & Hb).
    cbn zeta in *. repeat split; try done. intros k _ Hk2. by apply Hb.
Qed.
End FilterDecisions.

(* ===================================================================== *)
(** ** The janitor *)
(* ===================================================================== *)

Section Janitor.
Import JS IpFilter.

Lemma cleanup_attempts_lookup (f : IPFilter) (now : Z) (k : string) :
  connectionAttempts (cleanupOldAttempts f now) !! k
  = connectionAttempts f !! k ≫= pruneList (now - rateLimitWindowMs (config f)).
Proof. unfold cleanupOldAttempts. cbn. by rewrite lookup_omap. Qed.

Lemma pruneList_default (ws : Z) (o : option (list Z)) :
  default [] (o ≫= pruneList ws) = filter (fun time => ws < time) (default [] o).
Proof.
  destruct o as [l|]; [|reflexivity]. cbn. unfold pruneList.
  by destruct (filter _ l).
Qed.

Lemma filter_filter_le (a b : Z) (l : list Z) :
  a <= b ->
  filter (fun time => b < time) (filter (fun time => a < time) l)
  = filter (fun time => b < time) l.
Proof.
  intros Hab. induction l as [|t l IH]; [reflexivity|].
  destruct (decide (a < t)) as [Ha|Ha].
  - rewrite (filter_cons_True (fun time => a < time)) by exact Ha.
    destruct (decide (b < t)) as [Hb|Hb].
    + rewrite !(filter_cons_True (fun time => b < time)) by exact Hb. by rewrite IH.
    + rewrite !(filter_cons_False (fun time => b < time)) by exact Hb. exact IH.
  - rewrite (filter_cons_False (fun time => a < time)) by exact Ha.
    rewrite (filter_cons_False (fun time => b < time)) by lia. exact IH.
Qed.

Lemma cleanup_blocks_lookup (f : IPFilter) (now : Z) (k : string) (blockInfo : BlockInfo) :
  blockedIPs (cleanupOldAttempts f now) !! k = Some blockInfo <->
  blockedIPs f !! k = Some blockInfo /\ now < blockedUntil blockInfo.
Proof.
  unfold cleanupOldAttempts. cbn. rewrite map_lookup_filter_Some. cbn. reflexivity.
Qed.

(** X10.  What [cleanupOldAttempts] leaves behind.  The settings and the
    lists are untouched; a temporary block survives exactly when it runs
    out after [now]; an address keeps exactly its attempts made after
    [now - rateLimitWindowMs], and is forgotten altogether when none is
    left, so no address is ever stored with an empty list. *)
Theorem cleanup_postconditions (f : IPFilter) (now : Z) :
  let f' := cleanupOldAttempts f now in
  let windowStart := now - rateLimitWindowMs (config f) in
  config f' = config f /\ whitelist f' = whitelist f /\ blocklist f' = blocklist f /\
  (forall k blockInfo,
      blockedIPs f' !! k = Some blockInfo <->
      blockedIPs f !! k = Some blockInfo /\ now < blockedUntil blockInfo) /\
  (forall k recent,
      connectionAttempts f' !! k = Some recent <->
      recent <> [] /\
      exists attempts, connectionAttempts f !! k = Some attempts /\
                       recent = filter (fun time => windowStart < time) attempts).
Proof.
  cbn zeta. split; [reflexivity|]. split; [reflexivity|]. split; [reflexivity|]. split.
  - intros k blockInfo. apply cleanup_blocks_lookup.
  - intros k recent. rewrite (cleanup_attempts_lookup f now k).
    destruct (connectionAttempts f !! k) as [l|]; cbn.
    + unfold pruneList. destruct (filter _ l) as [|t r] eqn:E.
      * split; [discriminate|]. intros (Hne & l' & [= <-] & ->). congruence.
      * split.
        -- intros [= <-]. split; [discriminate|]. exists l. by rewrite E.
        -- intros (_ & l' & [= <-] & ->). by rewrite E.
    + split; [discriminate|]. intros (_ & l' & [=] & _).
Qed.

Lemma pruneList_compose (a b : Z) (l : list Z) :
  a <= b -> pruneList a l ≫= pruneList b = pruneList b l.
Proof.
  intros Hab. unfold pruneList. rewrite <- (filter_filter_le a b l Hab).
  destruct (filter (fun time => a < time) l); reflexivity.
Qed.

(** X11.  A later run of the janitor absorbs an earlier one: cleaning at
    [now1] and then at [now2], no earlier than [now1], gives the state
    that cleaning at [now2] alone gives.  Running it twice at the same
    instant is the same as running it once. *)
Theorem cleanup_absorbs_earlier (f : IPFilter) (now1 now2 : Z) :
  now1 <= now2 ->
  cleanupOldAttempts (cleanupOldAttempts f now1) now2 = cleanupOldAttempts f now2.
Proof.
  intros Hle. destruct f as [cfg bl wl att blk].
  unfold cleanupOldAttempts, set_blockedIPs, set_connectionAttempts.
  cbn [config blocklist whitelist connectionAttempts blockedIPs]. f_equal.
  - apply map_eq. intros k.
    change (omap (pruneList (now2 - rateLimitWindowMs cfg))
              (omap (pruneList (now1 - rateLimitWindowMs cfg)) att) !! k
            = omap (pruneList (now2 - rateLimitWindowMs cfg)) att !! k).
    rewrite !lookup_omap.
    destruct (att !! k) as [l|]; [|reflexivity].
    change (pruneList (now1 - rateLimitWindowMs cfg) l
              ≫= pruneList (now2 - rateLimitWindowMs cfg)
            = pruneList (now2 - rateLimitWindowMs cfg) l).
    apply pruneList_compose. lia.
  - apply map_eq. intros k. apply option_eq. intros blockInfo.
    rewrite !map_lookup_filter_Some. cbn. split; [tauto|].
    intros [H1 H2]. repeat split; try done. lia.
Qed.

Lemma cleanup_absorbs_witness :
  cleanupOldAttempts (cleanupOldAttempts filterReloaded 5000) 5000
  = cleanupOldAttempts filterReloaded 5000.
Proof. apply cleanup_absorbs_earlier. lia. Defined.


Lemma afterRecord_ext (g g' : IPFilter) (x : string) (tk : Ticks) :
  config g = config g' ->
  filter (fun time => tick_record tk - rateLimitWindowMs (config g) < time)
         (default [] (connectionAttempts g !! cleanIp x))
  = filter (fun time => tick_record tk - rateLimitWindowMs (config g) < time)
           (default [] (connectionAttempts g' !! cleanIp x)) ->
  afterRecord g x tk = afterRecord g' x tk.
Proof.
  intros Hc Hf. unfold afterRecord, recordConnectionAttempt. rewrite <- Hc.
  destruct (negb (rateLimitEnabled (config g))); [reflexivity|].
  destruct (invalidIp x); [reflexivity|].
  rewrite !filter_app, Hf.
  destruct (_ <? _); reflexivity.
Qed.

(** X12.  The janitor never changes a decision.  Whatever the state, a
    run of [cleanupOldAttempts] at a time not after the clock readings of
    a following [shouldAllowConnection] leaves that call's result as it
    would have been without the run: what the janitor removes, the call
    would have ignored or purged itself. *)
Theorem janitor_keeps_decisions (f : IPFilter) (now : Z) (x : string) (tk : Ticks) :
  now <= tick_isIPBlocked tk ->
  now <= tick_record tk ->
  fst (shouldAllowConnection (cleanupOldAttempts f now) x tk)
  = fst (shouldAllowConnection f x tk).
Proof.
  intros Hb Hr.
  set (f' := cleanupOldAttempts f now).
  assert (Hrec : forall g g',
             config g = config f -> config g' = config f ->
             connectionAttempts g = connectionAttempts f ->
             connectionAttempts g' = connectionAttempts f' ->
             afterRecord g' x tk = afterRecord g x tk).
  { intros g g' Hc Hc' Ha Ha'. apply afterRecord_ext; [congruence|].
    rewrite Ha, Ha', Hc'. subst f'. rewrite (cleanup_attempts_lookup f now (cleanIp x)).
    rewrite pruneList_default. apply filter_filter_le. lia. }
  unfold shouldAllowConnection, isIPBlocked.
  destruct (invalidIp x); [reflexivity|].
  change (isIPWhitelisted f' x) with (isIPWhitelisted f x).
  destruct (isIPWhitelisted f x); [reflexivity|].
  change (isIPInBlocklist f' x) with (isIPInBlocklist f x).
  change (isIPInBlocklist (set_blockedIPs ?m f') x) with (isIPInBlocklist f x).
  change (isIPInBlocklist (set_blockedIPs ?m f) x) with (isIPInBlocklist f x).
  pose proof (cleanup_blocks_lookup f now) as Hblk. fold f' in Hblk.
  destruct (blockedIPs f !! cleanIp x) as [blockInfo|] eqn:E.
  - destruct (Z.ltb_spec (tick_isIPBlocked tk) (blockedUntil blockInfo)) as [Hact|Hexp].
    + assert (E' : blockedIPs f' !! cleanIp x = Some blockInfo)
        by (apply Hblk; split; [exact E | lia]).
      rewrite E'.
      replace (tick_isIPBlocked tk <? blockedUntil blockInfo) with true
        by (symmetry; apply Z.ltb_lt; lia).
      reflexivity.
    + destruct (blockedIPs f' !! cleanIp x) as [blockInfo'|] eqn:E'.
      * apply Hblk in E' as [E1 _]. assert (blockInfo' = blockInfo) as -> by congruence.
        replace (tick_isIPBlocked tk <? blockedUntil blockInfo) with false
          by (symmetry; apply Z.ltb_ge; lia).
        destruct (isIPInBlocklist f x); cbn [blocked]; [reflexivity|].
        apply (Hrec (set_blockedIPs _ f) (set_blockedIPs _ f')); reflexivity.
      * destruct (isIPInBlocklist f x); cbn [blocked]; [reflexivity|].
        apply (Hrec (set_blockedIPs _ f) f'); reflexivity.
  - assert (E' : blockedIPs f' !! cleanIp x = None).
    { destruct (blockedIPs f' !! cleanIp x) as [blockInfo'|] eqn:E'; [|reflexivity].
      apply Hblk in E' as [E1 _]. congruence. }
    rewrite E'.
    destruct (isIPInBlocklist f x); cbn [blocked]; [reflexivity|].
    apply (Hrec f f'); reflexivity.
Qed.

Lemma janitor_keeps_decisions_witness :
  fst (shouldAllowConnection (cleanupOldAttempts filterReloaded 60000) "10.0.0.50" (at_ 61500))
  = fst (shouldAllowConnection filterReloaded "10.0.0.50" (at_ 61500)).
Proof. apply janitor_keeps_decisions; vm_compute; discriminate. Defined.
End Janitor.

(* ===================================================================== *)
(** ** The list files *)
(* ===================================================================== *)

Section ListFiles.
Import JS IpFilter.

Lemma addEntries_fold (lines : list string) (entries : gset string) (e : string) :
  e ∈ fold_left (fun acc line =>
                   let trimmed := trim line in
                   if String.eqb trimmed EmptyString || startsWith "#" trimmed then acc
                   else acc ∪ {[trimmed]}) lines entries
  <-> e ∈ entries \/ exists line, line ∈ lines /\ keptLine line = Some e.
Proof.
  revert entries. induction lines as [|l lines IH]; intros entries; cbn [fold_left].
  - split; [by left|]. intros [H | (line & Hl & _)]; [exact H|]. by apply elem_of_nil in Hl.
  - rewrite IH. unfold keptLine. cbn zeta.
    destruct (String.eqb (trim l) EmptyString || startsWith "#" (trim l)) eqn:E.
    + split.
      * intros [H | (line & Hl & Hk)]; [by left|]. right. exists line.
        split; [by apply list_elem_of_further | exact Hk].
      * intros [H | (line & Hl & Hk)]; [by left|]. right.
        apply elem_of_cons in Hl as [-> | Hl]; [by rewrite E in Hk|].
        by exists line.
    + rewrite elem_of_union, elem_of_singleton. split.
      * intros [[H | ->] | (line & Hl & Hk)].
        -- by left.
        -- right. exists l. split; [apply list_elem_of_here|]. by rewrite E.
        -- right. exists line. split; [by apply list_elem_of_further | exact Hk].
      * intros [H | (line & Hl & Hk)]; [by left; left|].
        apply elem_of_cons in Hl as [-> | Hl].
        -- rewrite E in Hk. injection Hk as <-. by left; right.
        -- right. by exists line.
Qed.

Lemma keptLine_Some (line e : string) :
  keptLine line = Some e <->
  trim line = e /\ e <> EmptyString /\ startsWith "#" e = false.
Proof.
  unfold keptLine. cbn zeta.
  destruct (String.eqb_spec (trim line) EmptyString) as [E0 | E0]; cbn [orb].
  - split; [discriminate|]. intros (<- & H & _). congruence.
  - destruct (startsWith "#" (trim line)) eqn:E1.
    + split; [discriminate|]. intros (<- & _ & H). congruence.
    + split; [intros [= <-]; done | intros (<- & _); reflexivity].
Qed.

Lemma addEntries_elem (content : string) (entries : gset string) (e : string) :
  e ∈ addEntries content entries <->
  e ∈ entries \/
  exists line, line ∈ split "010" content /\ trim line = e /\
               e <> EmptyString /\ startsWith "#" e = false.
Proof.
  unfold addEntries. rewrite addEntries_fold. by setoid_rewrite keptLine_Some.
Qed.

(** X13.  What loading a list file adds.  After [loadBlocklist], resp.
    [loadWhitelist], the list holds what it held before and, for every
    line of the file, the trimmed line, unless that is empty or starts
    with [#]: nothing is removed, and nothing else is added. *)
Theorem loadBlocklist_entries (content : string) (f : IPFilter) (e : string) :
  (e ∈ blocklist (loadBlocklist (Some content) f) <->
   e ∈ blocklist f \/
   exists line, line ∈ split "010" content /\ trim line = e /\
                e <> EmptyString /\ startsWith "#" e = false) /\
  (e ∈ whitelist (loadWhitelist (Some content) f) <->
   e ∈ whitelist f \/
   exists line, line ∈ split "010" content /\ trim line = e /\
                e <> EmptyString /\ startsWith "#" e = false).
Proof.
  split; cbn; apply addEntries_elem.
Qed.

(** X14.  Reloading replaces.  On a filter whose list paths are set,
    [reloadBlocklist] leaves in the blocklist the entries of the file and
    no others, and [reloadWhitelist] does the same for the whitelist;
    when the file cannot be read the list is left empty, so that no
    address is in the blocklist, resp. whitelisted, any more.  The other
    list, the recorded attempts and the temporary blocks are not
    touched. *)
Theorem reloadBlocklist_replaces (f : IPFilter) :
  (forall content e,
      (e ∈ blocklist (reloadBlocklist (Some content) f) <->
       exists line, line ∈ split "010" content /\ trim line = e /\
                    e <> EmptyString /\ startsWith "#" e = false) /\
      (e ∈ whitelist (reloadWhitelist (Some content) f) <->
       exists line, line ∈ split "010" content /\ trim line = e /\
                    e <> EmptyString /\ startsWith "#" e = false)) /\
  (forall x, isIPInBlocklist (reloadBlocklist None f) x = false /\
             isIPWhitelisted (reloadWhitelist None f) x = false) /\
  (forall content,
      whitelist (reloadBlocklist content f) = whitelist f /\
      blocklist (reloadWhitelist content f) = blocklist f /\
      connectionAttempts (reloadBlocklist content f) = connectionAttempts f /\
      connectionAttempts (reloadWhitelist content f) = connectionAttempts f /\
      blockedIPs (reloadBlocklist content f) = blockedIPs f /\
      blockedIPs (reloadWhitelist content f) = blockedIPs f).
Proof.
  split; [|split].
  - intros content e. unfold reloadBlocklist, reloadWhitelist. cbn.
    rewrite !addEntries_elem. split; (split; [|by right]);
      (intros [Hin | Hex]; [by apply not_elem_of_empty in Hin | exact Hex]).
  - intros x. unfold reloadBlocklist, reloadWhitelist, loadBlocklist, loadWhitelist,
      isIPInBlocklist, isIPWhitelisted.
    cbn [blocklist set_blocklist whitelist set_whitelist].
    destruct (invalidIp x); [done|].
    rewrite !bool_decide_eq_false_2 by apply not_elem_of_empty.
    by rewrite elements_empty.
  - intros [content|]; done.
Qed.

End ListFiles.

(* ===================================================================== *)
(** ** Country lookup, encoding detection and admission, continued *)
(* ===================================================================== *)

Section CountryLookup.
Import JS.

(** X15.  The country check does not depend on how an address is
    spelled: two addresses with the same normal form get the same
    country from [lookup] and the same answer from
    [shouldBlockConnection]. *)
Theorem geo_mapped_same_decision (cfg : Config) (geo : option GeoIP.GeoIPLookup)
    (x y : string) :
  cleanIp y = cleanIp x ->
  (forall g, GeoIP.countryOf g y = GeoIP.countryOf g x) /\
  Proxy.shouldBlockConnection cfg geo y = Proxy.shouldBlockConnection cfg geo x.
Proof.
  intros Hxy.
  assert (Hc : forall g, GeoIP.countryOf g y = GeoIP.countryOf g x).
  { intros g. unfold GeoIP.countryOf, GeoIP.getCountryInfo, GeoIP.lookup. rewrite Hxy.
    destruct (negb (GeoIP.isEnabled g)); [reflexivity|].
    destruct (GeoIP.reader g) as [get|]; [|reflexivity].
    destruct (get (cleanIp x)) as [|[[[c|]]|]]; reflexivity. }
  split; [exact Hc|].
  destruct geo as [g|]; [|reflexivity]. cbn.
  destruct (negb (GeoIP.isEnabled g)) eqn:E; [reflexivity|].
  pose proof (countryOf_cases g x) as Hx. pose proof (countryOf_cases g y) as Hy.
  rewrite Hc in Hy.
  destruct (GeoIP.getCountryInfo g x) as [[i [code|] n]|];
    destruct (GeoIP.getCountryInfo g y) as [[i' [code'|] n']|]; try congruence.
  assert (code' = code) as -> by congruence. reflexivity.
Qed.

Lemma geo_mapped_witness :
  Proxy.shouldBlockConnection cfgDemo (Some geoDemo) "::FFFF:203.0.113.7"
  = Proxy.shouldBlockConnection cfgDemo (Some geoDemo) "203.0.113.7".
Proof. apply geo_mapped_same_decision. reflexivity. Defined.

(** X16.  What [lookup] returns.  A result is only returned by an
    enabled lookup, carries the address as it was passed in (not the
    normalised one) and never an empty country code (an empty code
    becomes [null]); when the database reader throws, the result is
    [null] and no country is known. *)
Theorem lookup_result_wellformed (g : GeoIP.GeoIPLookup) (ipAddress : string) :
  (forall info, GeoIP.lookup g ipAddress = Some info ->
     GeoIP.isEnabled g = true /\ GeoIP.ip info = ipAddress /\
     GeoIP.countryCode info <> Some EmptyString) /\
  (forall get, GeoIP.reader g = Some get -> get (cleanIp ipAddress) = GeoIP.Thrown ->
     GeoIP.lookup g ipAddress = None /\ GeoIP.countryOf g ipAddress = None).
Proof.
  split.
  - intros info. unfold GeoIP.lookup.
    destruct (GeoIP.isEnabled g); [|discriminate]. cbn [negb].
    destruct (GeoIP.reader g) as [get|]; [|discriminate].
    destruct (get (cleanIp ipAddress)) as [|[[[c|]]|]]; try discriminate.
    intros [= <-]. cbn. split; [reflexivity|]. split; [reflexivity|].
    unfold GeoIP.orNull. destruct (GeoIP.iso_code c) as [s|]; [|discriminate].
    destruct (String.eqb_spec s EmptyString); [discriminate | congruence].
  - intros get Hr Ht. unfold GeoIP.countryOf, GeoIP.getCountryInfo, GeoIP.lookup.
    rewrite Hr, Ht. by destruct (negb (GeoIP.isEnabled g)).
Qed.

Lemma lookup_result_witness :
  GeoIP.lookup geoDemo "198.51.100.77" = None.
Proof.
  destruct (lookup_result_wellformed geoDemo "198.51.100.77") as [_ H].
  apply (H readerDemo); reflexivity.
Defined.
End CountryLookup.

Section EncodingCase.
Import JS EncodingDetector.

Lemma upper_lower_char (c : ascii) :
  is_ascii_char c = true -> upper_char (lower_char c) = upper_char c.
Proof. destruct c as [[] [] [] [] [] [] [] []]; intros H; first [reflexivity | discriminate]. Qed.

Lemma lower_upper_char (c : ascii) :
  is_ascii_char c = true -> lower_char (upper_char c) = lower_char c.
Proof. destruct c as [[] [] [] [] [] [] [] []]; intros H; first [reflexivity | discriminate]. Qed.

Lemma toUpperCase_toLowerCase (s : string) :
  isAscii s = true -> toUpperCase (toLowerCase s) = toUpperCase s.
Proof.
  induction s as [|c s IH]; cbn; [reflexivity|].
  intros [Hc Hs]%andb_true_iff. by rewrite upper_lower_char, IH.
Qed.

Lemma toLowerCase_toUpperCase (s : string) :
  isAscii s = true -> toLowerCase (toUpperCase s) = toLowerCase s.
Proof.
  induction s as [|c s IH]; cbn; [reflexivity|].
  intros [Hc Hs]%andb_true_iff. by rewrite lower_upper_char, IH.
Qed.

Lemma toLowerCase_empty (s : string) :
  String.eqb (toLowerCase s) EmptyString = String.eqb s EmptyString.
Proof. destruct s; reflexivity. Qed.

Lemma toUpperCase_empty (s : string) :
  String.eqb (toUpperCase s) EmptyString = String.eqb s EmptyString.
Proof. destruct s; reflexivity. Qed.

Lemma langVar_lower (e : gmap string string) (varName : string) :
  map_Forall (fun _ value => isAscii value = true) e ->
  match (toLowerCase <$> e) !! varName with
  | Some value => negb (String.eqb value EmptyString) && hasUtf8Indicator value
  | None => false
  end
  = match e !! varName with
    | Some value => negb (String.eqb value EmptyString) && hasUtf8Indicator value
    | None => false
    end.
Proof.
  intros He. rewrite lookup_fmap.
  destruct (e !! varName) as [value|] eqn:E; cbn; [|reflexivity].
  unfold hasUtf8Indicator. cbn zeta.
  by rewrite (toUpperCase_toLowerCase value (He varName value E)), toLowerCase_empty.
Qed.

(** X17.  On ASCII input, encoding detection ignores letter case: for an
    environment whose values are ASCII strings the answer is the answer
    for the same environment with every value in lower case, and for an
    ASCII terminal type the answer is the answer for it in upper case.
    (Beyond ASCII this fails in JavaScript: U+017F followed by "creen"
    contains no listed terminal name, and its upper-case form is
    "SCREEN".) *)
Theorem detection_ignores_case (e : gmap string string) (t : string) :
  map_Forall (fun _ value => isAscii value = true) e ->
  isAscii t = true ->
  detectFromSSHEnvironment (Some (toLowerCase <$> e)) = detectFromSSHEnvironment (Some e) /\
  detectFromTerminalType (Some (toUpperCase t)) = detectFromTerminalType (Some t).
Proof.
  intros He Ht. split.
  - unfold detectFromSSHEnvironment, langVars. cbn [existsb].
    rewrite !langVar_lower by exact He. reflexivity.
  - unfold detectFromTerminalType.
    by rewrite (toLowerCase_toUpperCase t Ht), toUpperCase_empty.
Qed.

Lemma detection_ignores_case_witness :
  detectFromSSHEnvironment (Some {["LANG" := "en_us.utf-8"]}) = "utf8" /\
  detectFromTerminalType (Some "XTERM") = "utf8".
Proof.
  destruct (detection_ignores_case {["LANG" := "en_US.UTF-8"]} "xterm") as [He Ht].
  - apply (bool_decide_unpack _). vm_compute. reflexivity.
  - reflexivity.
  - split.
    + change ({["LANG" := "en_us.utf-8"]} : gmap string string)
        with (toLowerCase <$> ({["LANG" := "en_US.UTF-8"]} : gmap string string)).
      rewrite He. reflexivity.
    + change "XTERM" with (toUpperCase "xterm"). rewrite Ht. reflexivity.
Defined.
End EncodingCase.

Section Admission.
Import JS.

(** X18.  A whitelisted client is always connected to the backend:
    [connect] skips the country check, leaves the filter state alone and
    dials the host it was given, on the CP437 port when encoding
    detection is on and on the given port otherwise. *)
Theorem whitelisted_skips_country_check (cfg : Config) (g : Proxy.Singletons)
    (f : IpFilter.IPFilter) (ip host : string) (port : Z) (tk : IpFilter.Ticks) :
  Proxy.ipFilter g = Some f ->
  IpFilter.isIPWhitelisted f ip = true ->
  Proxy.connect cfg g (Some ip) host port tk
  = (Proxy.DialBackend host
       (if encodingDetection cfg then backendPortCP437 cfg else port), g).
Proof.
  intros Hf Hw. destruct g as [flt geo]. cbn in Hf. subst flt.
  unfold Proxy.connect.
  pose proof (whitelisted_valid f ip Hw) as Hv. unfold IpFilter.invalidIp in Hv.
  rewrite Hv. cbn [Proxy.ipFilter Proxy.geoip].
  unfold IpFilter.shouldAllowConnection. rewrite (whitelisted_valid f ip Hw), Hw. cbn.
  unfold EncodingDetector.getBackendPortForEncoding.
  destruct (encodingDetection cfg); reflexivity.
Qed.

Lemma whitelisted_skips_country_witness :
  fst (Proxy.connect cfgDemo
         (Proxy.mkSingletons (Some filterDemo) (Some geoDemo))
         (Some "192.168.7.7") "127.0.0.1" 2323 (at_ 0))
  = Proxy.DialBackend "127.0.0.1" 2325.
Proof.
  rewrite (whitelisted_skips_country_check cfgDemo
             (Proxy.mkSingletons (Some filterDemo) (Some geoDemo)) filterDemo).
  - reflexivity.
  - reflexivity.
  - vm_compute. reflexivity.
Defined.

(** X19.  Each outcome of [connect] has its cause.  The GeoIP singleton
    is never changed, and without an IP filter nothing is.  The backend
    is dialed on the given host, and on the CP437 port or the given port,
    never on the UTF-8 port; a client is turned away for lack of an
    address only when the address is missing or empty, by the IP filter
    only with the filter's own refusal and reason, and by country only
    when [shouldBlockConnection] says so. *)
Theorem connect_outcome_sound (cfg : Config) (g : Proxy.Singletons) (addr : option string)
    (host : string) (port : Z) (tk : IpFilter.Ticks) :
  let r := Proxy.connect cfg g addr host port tk in
  Proxy.geoip (snd r) = Proxy.geoip g /\
  (Proxy.ipFilter g = None -> snd r = g) /\
  match fst r with
  | Proxy.DialBackend h p =>
      h = host /\ p = (if encodingDetection cfg then backendPortCP437 cfg else port)
  | Proxy.NoClientAddress => (addr = None \/ addr = Some EmptyString) /\ snd r = g
  | Proxy.BlockedByIPFilter why =>
      exists ip f, addr = Some ip /\ Proxy.ipFilter g = Some f /\
                   IpFilter.allowed (fst (IpFilter.shouldAllowConnection f ip tk)) = false /\
                   why = IpFilter.reason (fst (IpFilter.shouldAllowConnection f ip tk))
  | Proxy.BlockedByCountry =>
      exists ip, addr = Some ip /\
                 Proxy.shouldBlockConnection cfg (Proxy.geoip g) ip = true
  end.
Proof.
  cbn zeta. unfold Proxy.connect.
  destruct addr as [ip|]; [|cbn; tauto].
  destruct (String.eqb_spec ip EmptyString) as [-> | Hne]; [cbn; tauto|].
  assert (Hport : EncodingDetector.getBackendPortForEncoding Proxy.detectedEncoding cfg
                  = if encodingDetection cfg then backendPortCP437 cfg else backendPort cfg).
  { unfold EncodingDetector.getBackendPortForEncoding. by destruct (encodingDetection cfg). }
  destruct g as [[f|] geo]; cbn [Proxy.ipFilter Proxy.geoip].
  - destruct (IpFilter.shouldAllowConnection f ip tk) as [res f'] eqn:E. cbn [fst snd].
    destruct (IpFilter.allowed res) eqn:Ea; cbn [negb].
    + destruct (negb (default false (IpFilter.whitelisted res))
                && Proxy.shouldBlockConnection cfg geo ip) eqn:Eb; cbn.
      * split; [reflexivity|]. split; [discriminate|]. exists ip. split; [reflexivity|].
        by apply andb_true_iff in Eb as [_ ?].
      * split; [reflexivity|]. split; [discriminate|]. split; [reflexivity|].
        rewrite Hport. by destruct (encodingDetection cfg).
    + cbn. split; [reflexivity|]. split; [discriminate|].
      exists ip, f. rewrite ?E. cbn. repeat split; try reflexivity. exact Ea.
  - cbn [negb andb].
    destruct (Proxy.shouldBlockConnection cfg geo ip) eqn:Eb; cbn.
    + split; [reflexivity|]. split; [reflexivity|]. by exists ip.
    + split; [reflexivity|]. split; [reflexivity|]. split; [reflexivity|].
      rewrite Hport. by destruct (encodingDetection cfg).
Qed.
End Admission.

(* ===================================================================== *)
(** ** TCP byte pump *)
(* ===================================================================== *)

Section BytePump.
Import Pump.

Lemma totalBytes_cons (d : list Byte.byte) (l : list (list Byte.byte)) :
  totalBytes (d :: l) = Z.of_nat (length d) + totalBytes l.
Proof. unfold totalBytes. cbn [concat]. rewrite length_app. lia. Qed.

Lemma clientChunks_cons (ev : PumpEvent) (evs : list PumpEvent) :
  clientChunks (ev :: evs)
  = match ev with ClientData d => d :: clientChunks evs | _ => clientChunks evs end.
Proof. by destruct ev. Qed.

Lemma backendChunks_cons (ev : PumpEvent) (evs : list PumpEvent) :
  backendChunks (ev :: evs)
  = match ev with BackendData d => d :: backendChunks evs | _ => backendChunks evs end.
Proof. by destruct ev. Qed.

(** The ['drain'] listeners only touch the [paused] flags. *)
Lemma pump_runDrain_frame (l : list Ssh.DrainAction) (p : ProxyConnection) :
  let q := fold_left runDrain l p in
  bytesFromClient q = bytesFromClient p /\
  bytesFromBackend q = bytesFromBackend p /\
  isCleanedUp q = isCleanedUp p /\
  closeLog q = closeLog p /\
  Ssh.written (clientSocket q) = Ssh.written (clientSocket p) /\
  Ssh.written (backendSocket q) = Ssh.written (backendSocket p) /\
  Ssh.destroyed (clientSocket q) = Ssh.destroyed (clientSocket p) /\
  Ssh.destroyed (backendSocket q) = Ssh.destroyed (backendSocket p).
Proof.
  revert p. induction l as [|a l IH]; intros p; cbn [fold_left].
  - repeat split.
  - specialize (IH (runDrain p a)). cbn zeta in IH.
    destruct IH as (H1 & H2 & H3 & H4 & H5 & H6 & H7 & H8).
    rewrite H1, H2, H3, H4, H5, H6, H7, H8.
    destruct a; cbn; repeat split.
Qed.

Lemma pump_on_counters (p : ProxyConnection) (ev : PumpEvent) :
  bytesFromClient (pump_on p ev)
  = bytesFromClient p + match ev with ClientData d => Z.of_nat (length d) | _ => 0 end /\
  bytesFromBackend (pump_on p ev)
  = bytesFromBackend p + match ev with BackendData d => Z.of_nat (length d) | _ => 0 end.
Proof.
  destruct ev; cbn [pump_on].
  - unfold client_on_data, Ssh.write.
    destruct (negb (Ssh.destroyed (backendSocket p))); cbn; [|lia].
    destruct (_ <? _); cbn; lia.
  - unfold backend_on_data, Ssh.write.
    destruct (negb (Ssh.destroyed (clientSocket p))); cbn; [|lia].
    destruct (_ <? _); cbn; lia.
  - unfold client_on_drain.
    destruct (pump_runDrain_frame (Ssh.onceDrain (clientSocket p))
                (mkProxyConnection (Ssh.drained (clientSocket p)) (backendSocket p)
                   (bytesFromClient p) (bytesFromBackend p) (isCleanedUp p) (closeLog p)))
      as (H1 & H2 & _).
    rewrite H1, H2. cbn. lia.
  - unfold backend_on_drain.
    destruct (pump_runDrain_frame (Ssh.onceDrain (backendSocket p))
                (mkProxyConnection (clientSocket p) (Ssh.drained (backendSocket p))
                   (bytesFromClient p) (bytesFromBackend p) (isCleanedUp p) (closeLog p)))
      as (H1 & H2 & _).
    rewrite H1, H2. cbn. lia.
  - unfold cleanup. destruct (isCleanedUp p); cbn; lia.
  - unfold cleanup. destruct (isCleanedUp p); cbn; lia.
  - unfold cleanup. destruct (isCleanedUp p); cbn; lia.
  - unfold cleanup. destruct (isCleanedUp p); cbn; lia.
  - cbn. lia.
Qed.

Lemma pump_run_counters (evs : list PumpEvent) (p : ProxyConnection) :
  bytesFromClient (pump_run p evs) = bytesFromClient p + totalBytes (clientChunks evs) /\
  bytesFromBackend (pump_run p evs) = bytesFromBackend p + totalBytes (backendChunks evs).
Proof.
  unfold pump_run. revert p. induction evs as [|ev evs IH]; intros p; cbn [fold_left].
  - unfold totalBytes. cbn. lia.
  - destruct (IH (pump_on p ev)) as [H1 H2]. rewrite H1, H2.
    destruct (pump_on_counters p ev) as [E1 E2]. rewrite E1, E2.
    rewrite clientChunks_cons, backendChunks_cons.
    destruct ev; rewrite ?totalBytes_cons; lia.
Qed.

(** What an event does to the backend socket, seen from the client's
    data: a chunk is appended while the socket is not destroyed, and
    nothing else ever changes [written]; [destroyed] only ever rises. *)
Lemma pump_on_backend_written (p : ProxyConnection) (ev : PumpEvent) :
  Ssh.written (backendSocket (pump_on p ev))
  = match ev with
    | ClientData d =>
        if Ssh.destroyed (backendSocket p) then Ssh.written (backendSocket p)
        else (Ssh.written (backendSocket p) ++ [d])%list
    | _ => Ssh.written (backendSocket p)
    end /\
  (Ssh.destroyed (backendSocket p) = true ->
   Ssh.destroyed (backendSocket (pump_on p ev)) = true).
Proof.
  destruct ev; cbn [pump_on].
  - unfold client_on_data, Ssh.write.
    destruct (Ssh.destroyed (backendSocket p)) eqn:E; cbn; [by rewrite ?E|].
    destruct (_ <? _); cbn; by rewrite ?E.
  - unfold backend_on_data, Ssh.write.
    destruct (negb (Ssh.destroyed (clientSocket p))); cbn; [|done].
    destruct (_ <? _); cbn; done.
  - unfold client_on_drain.
    destruct (pump_runDrain_frame (Ssh.onceDrain (clientSocket p))
                (mkProxyConnection (Ssh.drained (clientSocket p)) (backendSocket p)
                   (bytesFromClient p) (bytesFromBackend p) (isCleanedUp p) (closeLog p)))
      as (_ & _ & _ & _ & _ & H6 & _ & H8).
    rewrite H6, H8. cbn. done.
  - unfold backend_on_drain.
    destruct (pump_runDrain_frame (Ssh.onceDrain (backendSocket p))
                (mkProxyConnection (clientSocket p) (Ssh.drained (backendSocket p))
                   (bytesFromClient p) (bytesFromBackend p) (isCleanedUp p) (closeLog p)))
      as (_ & _ & _ & _ & _ & H6 & _ & H8).
    rewrite H6, H8. cbn. done.
  - unfold cleanup. destruct (isCleanedUp p); cbn; [done|].
    destruct (Ssh.destroyed (backendSocket p)) eqn:E; cbn; done.
  - unfold cleanup. destruct (isCleanedUp p); cbn; [done|].
    destruct (Ssh.destroyed (backendSocket p)) eqn:E; cbn; done.
  - unfold cleanup. destruct (isCleanedUp p); cbn; [done|].
    destruct (Ssh.destroyed (backendSocket p)) eqn:E; cbn; done.
  - unfold cleanup. destruct (isCleanedUp p); cbn; [done|].
    destruct (Ssh.destroyed (backendSocket p)) eqn:E; cbn; done.
  - cbn. done.
Qed.

Lemma pump_on_client_written (p : ProxyConnection) (ev : PumpEvent) :
  Ssh.written (clientSocket (pump_on p ev))
  = match ev with
    | BackendData d =>
        if Ssh.destroyed (clientSocket p) then Ssh.written (clientSocket p)
        else (Ssh.written (clientSocket p) ++ [d])%list
    | _ => Ssh.written (clientSocket p)
    end /\
  (Ssh.destroyed (clientSocket p) = true ->
   Ssh.destroyed (clientSocket (pump_on p ev)) = true).
Proof.
  destruct ev; cbn [pump_on].
  - unfold client_on_data, Ssh.write.
    destruct (negb (Ssh.destroyed (backendSocket p))); cbn; [|done].
    destruct (_ <? _); cbn; done.
  - unfold backend_on_data, Ssh.write.
    destruct (Ssh.destroyed (clientSocket p)) eqn:E; cbn; [by rewrite ?E|].
    destruct (_ <? _); cbn; by rewrite ?E.
  - unfold client_on_drain.
    destruct (pump_runDrain_frame (Ssh.onceDrain (clientSocket p))
                (mkProxyConnection (Ssh.drained (clientSocket p)) (backendSocket p)
                   (bytesFromClient p) (bytesFromBackend p) (isCleanedUp p) (closeLog p)))
      as (_ & _ & _ & _ & H5 & _ & H7 & _).
    rewrite H5, H7. cbn. done.
  - unfold backend_on_drain.
    destruct (pump_runDrain_frame (Ssh.onceDrain (backendSocket p))
                (mkProxyConnection (clientSocket p) (Ssh.drained (backendSocket p))
                   (bytesFromClient p) (bytesFromBackend p) (isCleanedUp p) (closeLog p)))
      as (_ & _ & _ & _ & H5 & _ & H7 & _).
    rewrite H5, H7. cbn. done.
  - unfold cleanup. destruct (isCleanedUp p); cbn; [done|].
    destruct (Ssh.destroyed (clientSocket p)) eqn:E; cbn; done.
  - unfold cleanup. destruct (isCleanedUp p); cbn; [done|].
    destruct (Ssh.destroyed (clientSocket p)) eqn:E; cbn; done.
  - unfold cleanup. destruct (isCleanedUp p); cbn; [done|].
    destruct (Ssh.destroyed (clientSocket p)) eqn:E; cbn; done.
  - unfold cleanup. destruct (isCleanedUp p); cbn; [done|].
    destruct (Ssh.destroyed (clientSocket p)) eqn:E; cbn; done.
  - cbn. done.
Qed.

(** Delivery towards the backend along a run: a prefix of the client's
    chunks, and all of them if the socket is still up at the end. *)
Lemma pump_run_backend_delivery (evs : list PumpEvent) (p : ProxyConnection) :
  (exists n, Ssh.written (backendSocket (pump_run p evs))
             = (Ssh.written (backendSocket p) ++ take n (clientChunks evs))%list) /\
  (Ssh.destroyed (backendSocket (pump_run p evs)) = false ->
   Ssh.written (backendSocket (pump_run p evs))
   = (Ssh.written (backendSocket p) ++ clientChunks evs)%list).
Proof.
  unfold pump_run. revert p. induction evs as [|ev evs IH]; intros p; cbn [fold_left].
  - split; [exists 0%nat|intros _]; cbn; by rewrite app_nil_r.
  - destruct (IH (pump_on p ev)) as [[n Hn] Hall].
    destruct (pump_on_backend_written p ev) as [Hw Hd].
    assert (Hmono : forall q, Ssh.destroyed (backendSocket q) = true ->
                    Ssh.destroyed (backendSocket (fold_left pump_on evs q)) = true).
    { clear. induction evs as [|e evs IH]; intros q Hq; [exact Hq|].
      cbn [fold_left]. apply IH. by apply pump_on_backend_written. }
    assert (Hkeep : forall q, Ssh.destroyed (backendSocket q) = true ->
                    Ssh.written (backendSocket (fold_left pump_on evs q))
                    = Ssh.written (backendSocket q)).
    { clear. induction evs as [|e evs IH]; intros q Hq; [reflexivity|].
      cbn [fold_left]. rewrite IH by (by apply pump_on_backend_written).
      destruct (pump_on_backend_written q e) as [-> _]. rewrite Hq. by destruct e. }
    destruct (Ssh.destroyed (backendSocket p)) eqn:E.
    + split.
      * exists 0%nat. rewrite Hkeep by (by apply Hd). rewrite Hw. rewrite take_0.
        rewrite app_nil_r. by destruct ev.
      * intros Hup. rewrite Hmono in Hup by (by apply Hd). discriminate.
    + rewrite clientChunks_cons. destruct ev;
        try (split; [exists n; rewrite Hn, Hw; reflexivity
                    | intros Hup; rewrite (Hall Hup), Hw; reflexivity]).
      split.
      * exists (S n). rewrite Hn, Hw. cbn [take]. by rewrite <- app_assoc.
      * intros Hup. rewrite (Hall Hup), Hw. by rewrite <- app_assoc.
Qed.

Lemma pump_run_client_delivery (evs : list PumpEvent) (p : ProxyConnection) :
  (exists n, Ssh.written (clientSocket (pump_run p evs))
             = (Ssh.written (clientSocket p) ++ take n (backendChunks evs))%list) /\
  (Ssh.destroyed (clientSocket (pump_run p evs)) = false ->
   Ssh.written (clientSocket (pump_run p evs))
   = (Ssh.written (clientSocket p) ++ backendChunks evs)%list).
Proof.
  unfold pump_run. revert p. induction evs as [|ev evs IH]; intros p; cbn [fold_left].
  - split; [exists 0%nat|intros _]; cbn; by rewrite app_nil_r.
  - destruct (IH (pump_on p ev)) as [[n Hn] Hall].
    destruct (pump_on_client_written p ev) as [Hw Hd].
    assert (Hmono : forall q, Ssh.destroyed (clientSocket q) = true ->
                    Ssh.destroyed (clientSocket (fold_left pump_on evs q)) = true).
    { clear. induction evs as [|e evs IH]; intros q Hq; [exact Hq|].
      cbn [fold_left]. apply IH. by apply pump_on_client_written. }
    assert (Hkeep : forall q, Ssh.destroyed (clientSocket q) = true ->
                    Ssh.written (clientSocket (fold_left pump_on evs q))
                    = Ssh.written (clientSocket q)).
    { clear. induction evs as [|e evs IH]; intros q Hq; [reflexivity|].
      cbn [fold_left]. rewrite IH by (by apply pump_on_client_written).
      destruct (pump_on_client_written q e) as [-> _]. rewrite Hq. by destruct e. }
    destruct (Ssh.destroyed (clientSocket p)) eqn:E.
    + split.
      * exists 0%nat. rewrite Hkeep by (by apply Hd). rewrite Hw. rewrite take_0.
        rewrite app_nil_r. by destruct ev.
      * intros Hup. rewrite Hmono in Hup by (by apply Hd). discriminate.
    + rewrite backendChunks_cons. destruct ev;
        try (split; [exists n; rewrite Hn, Hw; reflexivity
                    | intros Hup; rewrite (Hall Hup), Hw; reflexivity]).
      split.
      * exists (S n). rewrite Hn, Hw. cbn [take]. by rewrite <- app_assoc.
      * intros Hup. rewrite (Hall Hup), Hw. by rewrite <- app_assoc.
Qed.

(** Events that do not call [cleanup] leave [isCleanedUp] and the close
    log alone. *)
Lemma pump_on_quiet (p : ProxyConnection) (ev : PumpEvent) :
  closeReason ev = None ->
  isCleanedUp (pump_on p ev) = isCleanedUp p /\ closeLog (pump_on p ev) = closeLog p.
Proof.
  intros Hq. destruct ev; try discriminate; cbn [pump_on].
  - unfold client_on_data, Ssh.write.
    destruct (negb (Ssh.destroyed (backendSocket p))); cbn; [|done].
    destruct (_ <? _); cbn; done.
  - unfold backend_on_data, Ssh.write.
    destruct (negb (Ssh.destroyed (clientSocket p))); cbn; [|done].
    destruct (_ <? _); cbn; done.
  - unfold client_on_drain.
    destruct (pump_runDrain_frame (Ssh.onceDrain (clientSocket p))
                (mkProxyConnection (Ssh.drained (clientSocket p)) (backendSocket p)
                   (bytesFromClient p) (bytesFromBackend p) (isCleanedUp p) (closeLog p)))
      as (_ & _ & H3 & H4 & _).
    rewrite H3, H4. done.
  - unfold backend_on_drain.
    destruct (pump_runDrain_frame (Ssh.onceDrain (backendSocket p))
                (mkProxyConnection (clientSocket p) (Ssh.drained (backendSocket p))
                   (bytesFromClient p) (bytesFromBackend p) (isCleanedUp p) (closeLog p)))
      as (_ & _ & H3 & H4 & _).
    rewrite H3, H4. done.
  - cbn. done.
Qed.

Lemma pump_run_quiet (evs : list PumpEvent) (p : ProxyConnection) :
  Forall (fun ev => closeReason ev = None) evs ->
  isCleanedUp (pump_run p evs) = isCleanedUp p /\ closeLog (pump_run p evs) = closeLog p.
Proof.
  unfold pump_run. revert p. induction evs as [|ev evs IH]; intros p Hq; [done|].
  inversion Hq as [|? ? Hev Hrest]; subst. cbn [fold_left].
  destruct (IH (pump_on p ev) Hrest) as [-> ->]. by apply pump_on_quiet.
Qed.

(** Once cleaned up with both sockets destroyed, a connection stays so
    and its close log is final. *)
Lemma pump_on_final (p : ProxyConnection) (ev : PumpEvent) :
  isCleanedUp p = true ->
  Ssh.destroyed (clientSocket p) = true ->
  Ssh.destroyed (backendSocket p) = true ->
  isCleanedUp (pump_on p ev) = true /\
  Ssh.destroyed (clientSocket (pump_on p ev)) = true /\
  Ssh.destroyed (backendSocket (pump_on p ev)) = true /\
  closeLog (pump_on p ev) = closeLog p.
Proof.
  intros Hc Hd1 Hd2.
  destruct (pump_on_client_written p ev) as [_ H1].
  destruct (pump_on_backend_written p ev) as [_ H2].
  rewrite (H1 Hd1), (H2 Hd2).
  destruct (closeReason ev) eqn:Hr.
  - destruct ev; try discriminate; cbn [pump_on]; unfold cleanup; rewrite Hc; done.
  - destruct (pump_on_quiet p ev Hr) as [-> ->]. done.
Qed.

Lemma pump_run_final (evs : list PumpEvent) (p : ProxyConnection) :
  isCleanedUp p = true ->
  Ssh.destroyed (clientSocket p) = true ->
  Ssh.destroyed (backendSocket p) = true ->
  isCleanedUp (pump_run p evs) = true /\
  Ssh.destroyed (clientSocket (pump_run p evs)) = true /\
  Ssh.destroyed (backendSocket (pump_run p evs)) = true /\
  closeLog (pump_run p evs) = closeLog p.
Proof.
  unfold pump_run. revert p. induction evs as [|ev evs IH]; intros p Hc Hd1 Hd2; [done|].
  cbn [fold_left]. destruct (pump_on_final p ev Hc Hd1 Hd2) as (H1 & H2 & H3 & H4).
  destruct (IH (pump_on p ev) H1 H2 H3) as (G1 & G2 & G3 & G4).
  rewrite G4, H4. done.
Qed.

Lemma pump_run_app (p : ProxyConnection) (l1 l2 : list PumpEvent) :
  pump_run p (l1 ++ l2) = pump_run (pump_run p l1) l2.
Proof. unfold pump_run. apply fold_left_app. Qed.

(** X20.  The TCP pump counts every byte and delivers in order.  After
    any sequence of socket events each counter has grown by the total
    size of the chunks its side sent, forwarded or not; and what each
    socket has been handed is what it had before followed by a prefix of
    the chunks the other side sent, in the order sent: all of them as
    long as the receiving socket has not been destroyed. *)
Theorem pump_counts_and_delivers_in_order (p : ProxyConnection) (evs : list PumpEvent) :
  bytesFromClient (pump_run p evs) = bytesFromClient p + totalBytes (clientChunks evs) /\
  bytesFromBackend (pump_run p evs) = bytesFromBackend p + totalBytes (backendChunks evs) /\
  (exists n, Ssh.written (backendSocket (pump_run p evs))
             = (Ssh.written (backendSocket p) ++ take n (clientChunks evs))%list) /\
  (Ssh.destroyed (backendSocket (pump_run p evs)) = false ->
   Ssh.written (backendSocket (pump_run p evs))
   = (Ssh.written (backendSocket p) ++ clientChunks evs)%list) /\
  (exists n, Ssh.written (clientSocket (pump_run p evs))
             = (Ssh.written (clientSocket p) ++ take n (backendChunks evs))%list) /\
  (Ssh.destroyed (clientSocket (pump_run p evs)) = false ->
   Ssh.written (clientSocket (pump_run p evs))
   = (Ssh.written (clientSocket p) ++ backendChunks evs)%list).
Proof.
  destruct (pump_run_counters evs p) as [H1 H2].
  destruct (pump_run_backend_delivery evs p) as [H3 H4].
  destruct (pump_run_client_delivery evs p) as [H5 H6].
  done.
Qed.

(** X21.  Teardown happens once: the first error or close event of
    either socket destroys both sockets and writes the only close line,
    with that event's reason and the byte counts reached by then;
    whatever follows changes neither.  Without such an event the
    connection is not cleaned up and nothing is logged. *)
Theorem pump_cleanup_once (p : ProxyConnection) (pre post : list PumpEvent)
    (ev : PumpEvent) (reason : string) :
  isCleanedUp p = false ->
  Forall (fun e => closeReason e = None) pre ->
  closeReason ev = Some reason ->
  (isCleanedUp (pump_run p pre) = false /\ closeLog (pump_run p pre) = closeLog p) /\
  let q := pump_run p (pre ++ ev :: post) in
  isCleanedUp q = true /\
  Ssh.destroyed (clientSocket q) = true /\
  Ssh.destroyed (backendSocket q) = true /\
  closeLog q = (closeLog p ++ [(reason,
                                bytesFromClient p + totalBytes (clientChunks pre),
                                bytesFromBackend p + totalBytes (backendChunks pre))])%list.
Proof.
  intros Hc Hpre Hev.
  destruct (pump_run_quiet pre p Hpre) as [Hq1 Hq2].
  split; [by rewrite Hq1, Hq2|]. cbn zeta.
  rewrite pump_run_app. change (pump_run (pump_run p pre) (ev :: post))
    with (pump_run (pump_on (pump_run p pre) ev) post).
  destruct (pump_run_counters pre p) as [Hb1 Hb2].
  set (r := pump_run p pre) in *.
  assert (Hstep : pump_on r ev = cleanup reason r)
    by (destruct ev; try discriminate; cbn in Hev; inversion Hev; reflexivity).
  rewrite Hstep. rewrite Hc in Hq1.
  assert (Hcl : isCleanedUp (cleanup reason r) = true /\
                Ssh.destroyed (clientSocket (cleanup reason r)) = true /\
                Ssh.destroyed (backendSocket (cleanup reason r)) = true /\
                closeLog (cleanup reason r)
                = (closeLog r ++ [(reason, bytesFromClient r, bytesFromBackend r)])%list).
  { unfold cleanup. rewrite Hq1. cbn.
    destruct (Ssh.destroyed (clientSocket r)) eqn:E1;
      destruct (Ssh.destroyed (backendSocket r)) eqn:E2; cbn; rewrite ?E1, ?E2; done. }
  destruct Hcl as (C1 & C2 & C3 & C4).
  destruct (pump_run_final post _ C1 C2 C3) as (F1 & F2 & F3 & F4).
  rewrite F1, F2, F3, F4, C4, Hq2, Hb1, Hb2. done.
Qed.

(** A connection that forwards one chunk each way, times out on the
    client side and is then closed: the close line carries
    ["client-close"] and the counts 3 and 2, and a later backend close
    adds nothing. *)
Lemma pump_cleanup_witness :
  closeLog (pump_run (connected 16384)
              ([ClientData [Byte.x41; Byte.x42; Byte.x43]; BackendData [Byte.x0d; Byte.x0a];
                ClientTimeout] ++ ClientClose :: [BackendClose]))
  = [("client-close", 3, 2)].
Proof.
  destruct (pump_cleanup_once (connected 16384)
              [ClientData [Byte.x41; Byte.x42; Byte.x43]; BackendData [Byte.x0d; Byte.x0a];
               ClientTimeout]
              [BackendClose] ClientClose "client-close") as (_ & _ & _ & _ & H).
  - reflexivity.
  - repeat constructor.
  - reflexivity.
  - exact H.
Defined.

End BytePump.

(* ===================================================================== *)
(** ** SSH shell bridge: accounting, ordering, back-pressure *)
(* ===================================================================== *)

Section ShellBridgeRuns.
Import Ssh.

Lemma streamChunks_cons (ev : BridgeEvent) (evs : list BridgeEvent) :
  streamChunks (ev :: evs)
  = match ev with StreamData d => d :: streamChunks evs | _ => streamChunks evs end.
Proof. by destruct ev. Qed.

Lemma backendSocketChunks_cons (ev : BridgeEvent) (evs : list BridgeEvent) :
  backendSocketChunks (ev :: evs)
  = match ev with
    | BackendData d => d :: backendSocketChunks evs
    | _ => backendSocketChunks evs
    end.
Proof. by destruct ev. Qed.

(** The ['drain'] listeners only touch the [paused] flags. *)
Lemma bridge_runDrain_frame (l : list DrainAction) (b : Bridge) :
  let q := fold_left runDrain l b in
  bytesFromClient q = bytesFromClient b /\
  bytesFromBackend q = bytesFromBackend b /\
  written (stream q) = written (stream b) /\
  written (backendSocket q) = written (backendSocket b) /\
  down (stream q) = down (stream b) /\
  down (backendSocket q) = down (backendSocket b) /\
  destroyed (stream q) = destroyed (stream b) /\
  destroyed (backendSocket q) = destroyed (backendSocket b) /\
  onceDrain (stream q) = onceDrain (stream b) /\
  onceDrain (backendSocket q) = onceDrain (backendSocket b).
Proof.
  revert b. induction l as [|a l IH]; intros b; cbn [fold_left].
  - repeat split.
  - specialize (IH (runDrain b a)). cbn zeta in IH.
    destruct IH as (H1 & H2 & H3 & H4 & H5 & H6 & H7 & H8 & H9 & H10).
    rewrite H1, H2, H3, H4, H5, H6, H7, H8, H9, H10.
    destruct a; unfold runDrain;
      [destruct (destroyed (stream b)) eqn:E
      | destruct (destroyed (backendSocket b)) eqn:E];
      unfold down; cbn; rewrite ?E; repeat split.
Qed.

Lemma bridge_on_counters (b : Bridge) (ev : BridgeEvent) :
  bytesFromClient (bridge_on b ev)
  = bytesFromClient b + match ev with StreamData d => Z.of_nat (length d) | _ => 0 end /\
  bytesFromBackend (bridge_on b ev)
  = bytesFromBackend b + match ev with BackendData d => Z.of_nat (length d) | _ => 0 end.
Proof.
  destruct ev; cbn [bridge_on].
  - unfold stream_on_data, write. cbn.
    destruct (negb (writable (backendSocket b)) || destroyed (backendSocket b)); cbn; [lia|].
    destruct (_ <? _); cbn; lia.
  - unfold backend_on_data, write. cbn.
    destruct (negb (writable (stream b)) || destroyed (stream b)); cbn; [lia|].
    destruct (_ <? _); cbn; lia.
  - unfold stream_on_drain.
    destruct (bridge_runDrain_frame (onceDrain (stream b)) (set_stream (drained (stream b)) b))
      as (H1 & H2 & _).
    rewrite H1, H2. cbn. lia.
  - unfold backend_on_drain.
    destruct (bridge_runDrain_frame (onceDrain (backendSocket b))
                (set_backendSocket (drained (backendSocket b)) b)) as (H1 & H2 & _).
    rewrite H1, H2. cbn. lia.
  - cbn. lia.
  - cbn. lia.
  - unfold stream_on_close. destruct (destroyed (backendSocket b)); cbn; lia.
  - unfold stream_on_error. destruct (destroyed (backendSocket b)); cbn; lia.
Qed.

Lemma bridge_on_backend_written (b : Bridge) (ev : BridgeEvent) :
  written (backendSocket (bridge_on b ev))
  = match ev with
    | StreamData d =>
        if down (backendSocket b) then written (backendSocket b)
        else (written (backendSocket b) ++ [d])%list
    | _ => written (backendSocket b)
    end /\
  (down (backendSocket b) = true -> down (backendSocket (bridge_on b ev)) = true).
Proof.
  unfold down. destruct ev; cbn [bridge_on].
  - unfold stream_on_data, write. cbn.
    destruct (negb (writable (backendSocket b)) || destroyed (backendSocket b)) eqn:E; cbn;
      [by rewrite ?E|].
    destruct (_ <? _); cbn; by rewrite ?E.
  - unfold backend_on_data, write. cbn.
    destruct (negb (writable (stream b)) || destroyed (stream b)); cbn; [done|].
    destruct (_ <? _); cbn; done.
  - unfold stream_on_drain.
    destruct (bridge_runDrain_frame (onceDrain (stream b)) (set_stream (drained (stream b)) b))
      as (_ & _ & _ & H4 & _ & H6 & _).
    unfold down in H6. rewrite H4, H6. cbn. done.
  - unfold backend_on_drain.
    destruct (bridge_runDrain_frame (onceDrain (backendSocket b))
                (set_backendSocket (drained (backendSocket b)) b))
      as (_ & _ & _ & H4 & _ & H6 & _).
    unfold down in H6. rewrite H4, H6. cbn. done.
  - cbn. done.
  - cbn. done.
  - unfold stream_on_close. destruct (destroyed (backendSocket b)) eqn:E; cbn;
      rewrite ?E, ?orb_true_r; done.
  - unfold stream_on_error. destruct (destroyed (backendSocket b)) eqn:E; cbn;
      rewrite ?E, ?orb_true_r; done.
Qed.

Lemma bridge_on_stream_written (b : Bridge) (ev : BridgeEvent) :
  written (stream (bridge_on b ev))
  = match ev with
    | BackendData d =>
        if down (stream b) then written (stream b)
        else (written (stream b) ++ [d])%list
    | _ => written (stream b)
    end /\
  (down (stream b) = true -> down (stream (bridge_on b ev)) = true).
Proof.
  unfold down. destruct ev; cbn [bridge_on].
  - unfold stream_on_data, write. cbn.
    destruct (negb (writable (backendSocket b)) || destroyed (backendSocket b)); cbn; [done|].
    destruct (_ <? _); cbn; done.
  - unfold backend_on_data, write. cbn.
    destruct (negb (writable (stream b)) || destroyed (stream b)) eqn:E; cbn;
      [by rewrite ?E|].
    destruct (_ <? _); cbn; by rewrite ?E.
  - unfold stream_on_drain.
    destruct (bridge_runDrain_frame (onceDrain (stream b)) (set_stream (drained (stream b)) b))
      as (_ & _ & H3 & _ & H5 & _).
    unfold down in H5. rewrite H3, H5. cbn. done.
  - unfold backend_on_drain.
    destruct (bridge_runDrain_frame (onceDrain (backendSocket b))
                (set_backendSocket (drained (backendSocket b)) b))
      as (_ & _ & H3 & _ & H5 & _).
    unfold down in H5. rewrite H3, H5. cbn. done.
  - cbn. done.
  - cbn. done.
  - unfold stream_on_close. destruct (destroyed (backendSocket b)) eqn:E; cbn;
      rewrite ?E, ?orb_true_r; done.
  - unfold stream_on_error. destruct (destroyed (backendSocket b)) eqn:E; cbn;
      rewrite ?E, ?orb_true_r; done.
Qed.

Lemma bridge_run_counters (evs : list BridgeEvent) (b : Bridge) :
  bytesFromClient (bridge_run b evs) = bytesFromClient b + totalBytes (streamChunks evs) /\
  bytesFromBackend (bridge_run b evs)
  = bytesFromBackend b + totalBytes (backendSocketChunks evs).
Proof.
  unfold bridge_run. revert b. induction evs as [|ev evs IH]; intros b; cbn [fold_left].
  - unfold totalBytes. cbn. lia.
  - destruct (IH (bridge_on b ev)) as [H1 H2]. rewrite H1, H2.
    destruct (bridge_on_counters b ev) as [E1 E2]. rewrite E1, E2.
    rewrite streamChunks_cons, backendSocketChunks_cons.
    destruct ev; rewrite ?totalBytes_cons; lia.
Qed.

Lemma bridge_run_backend_delivery (evs : list BridgeEvent) (b : Bridge) :
  (exists n, written (backendSocket (bridge_run b evs))
             = (written (backendSocket b) ++ take n (streamChunks evs))%list) /\
  (down (backendSocket (bridge_run b evs)) = false ->
   written (backendSocket (bridge_run b evs))
   = (written (backendSocket b) ++ streamChunks evs)%list).
Proof.
  unfold bridge_run. revert b. induction evs as [|ev evs IH]; intros b; cbn [fold_left].
  - split; [exists 0%nat|intros _]; cbn; by rewrite app_nil_r.
  - destruct (IH (bridge_on b ev)) as [[n Hn] Hall].
    destruct (bridge_on_backend_written b ev) as [Hw Hd].
    assert (Hmono : forall q, down (backendSocket q) = true ->
                    down (backendSocket (fold_left bridge_on evs q)) = true).
    { clear. induction evs as [|e evs IH]; intros q Hq; [exact Hq|].
      cbn [fold_left]. apply IH. by apply bridge_on_backend_written. }
    assert (Hkeep : forall q, down (backendSocket q) = true ->
                    written (backendSocket (fold_left bridge_on evs q))
                    = written (backendSocket q)).
    { clear. induction evs as [|e evs IH]; intros q Hq; [reflexivity|].
      cbn [fold_left]. rewrite IH by (by apply bridge_on_backend_written).
      destruct (bridge_on_backend_written q e) as [-> _]. rewrite Hq. by destruct e. }
    destruct (down (backendSocket b)) eqn:E.
    + split.
      * exists 0%nat. rewrite Hkeep by (by apply Hd). rewrite Hw. rewrite take_0.
        rewrite app_nil_r. by destruct ev.
      * intros Hup. rewrite Hmono in Hup by (by apply Hd). discriminate.
    + rewrite streamChunks_cons. destruct ev;
        try (split; [exists n; rewrite Hn, Hw; reflexivity
                    | intros Hup; rewrite (Hall Hup), Hw; reflexivity]).
      split.
      * exists (S n). rewrite Hn, Hw. cbn [take]. by rewrite <- app_assoc.
      * intros Hup. rewrite (Hall Hup), Hw. by rewrite <- app_assoc.
Qed.

Lemma bridge_run_stream_delivery (evs : list BridgeEvent) (b : Bridge) :
  (exists n, written (stream (bridge_run b evs))
             = (written (stream b) ++ take n (backendSocketChunks evs))%list) /\
  (down (stream (bridge_run b evs)) = false ->
   written (stream (bridge_run b evs))
   = (written (stream b) ++ backendSocketChunks evs)%list).
Proof.
  unfold bridge_run. revert b. induction evs as [|ev evs IH]; intros b; cbn [fold_left].
  - split; [exists 0%nat|intros _]; cbn; by rewrite app_nil_r.
  - destruct (IH (bridge_on b ev)) as [[n Hn] Hall].
    destruct (bridge_on_stream_written b ev) as [Hw Hd].
    assert (Hmono : forall q, down (stream q) = true ->
                    down (stream (fold_left bridge_on evs q)) = true).
    { clear. induction evs as [|e evs IH]; intros q Hq; [exact Hq|].
      cbn [fold_left]. apply IH. by apply bridge_on_stream_written. }
    assert (Hkeep : forall q, down (stream q) = true ->
                    written (stream (fold_left bridge_on evs q)) = written (stream q)).
    { clear. induction evs as [|e evs IH]; intros q Hq; [reflexivity|].
      cbn [fold_left]. rewrite IH by (by apply bridge_on_stream_written).
      destruct (bridge_on_stream_written q e) as [-> _]. rewrite Hq. by destruct e. }
    destruct (down (stream b)) eqn:E.
    + split.
      * exists 0%nat. rewrite Hkeep by (by apply Hd). rewrite Hw. rewrite take_0.
        rewrite app_nil_r. by destruct ev.
      * intros Hup. rewrite Hmono in Hup by (by apply Hd). discriminate.
    + rewrite backendSocketChunks_cons. destruct ev;
        try (split; [exists n; rewrite Hn, Hw; reflexivity
                    | intros Hup; rewrite (Hall Hup), Hw; reflexivity]).
      split.
      * exists (S n). rewrite Hn, Hw. cbn [take]. by rewrite <- app_assoc.
      * intros Hup. rewrite (Hall Hup), Hw. by rewrite <- app_assoc.
Qed.

(** X23.  The SSH bridge counts every byte either side sends, and hands
    each side a prefix, in order, of what the other side sent: all of it
    while the receiving end is writable and not destroyed. *)
Theorem bridge_counts_and_delivers_in_order (b : Bridge) (evs : list BridgeEvent) :
  bytesFromClient (bridge_run b evs) = bytesFromClient b + totalBytes (streamChunks evs) /\
  bytesFromBackend (bridge_run b evs)
  = bytesFromBackend b + totalBytes (backendSocketChunks evs) /\
  (exists n, written (backendSocket (bridge_run b evs))
             = (written (backendSocket b) ++ take n (streamChunks evs))%list) /\
  (down (backendSocket (bridge_run b evs)) = false ->
   written (backendSocket (bridge_run b evs))
   = (written (backendSocket b) ++ streamChunks evs)%list) /\
  (exists n, written (stream (bridge_run b evs))
             = (written (stream b) ++ take n (backendSocketChunks evs))%list) /\
  (down (stream (bridge_run b evs)) = false ->
   written (stream (bridge_run b evs))
   = (written (stream b) ++ backendSocketChunks evs)%list).
Proof.
  destruct (bridge_run_counters evs b) as [H1 H2].
  destruct (bridge_run_backend_delivery evs b) as [H3 H4].
  destruct (bridge_run_stream_delivery evs b) as [H5 H6].
  done.
Qed.

End ShellBridgeRuns.

(* ===================================================================== *)
(** ** Back-pressure *)
(* ===================================================================== *)

Section BackPressure.

Lemma bridge_runDrain_backend (l : list Ssh.DrainAction) (b : Ssh.Bridge) :
  Forall (eq Ssh.ResumeBackend) l ->
  fold_left Ssh.runDrain l b
  = match l with
    | [] => b
    | _ :: _ =>
        if Ssh.destroyed (Ssh.backendSocket b) then b
        else Ssh.set_backendSocket (Ssh.set_paused false (Ssh.backendSocket b)) b
    end.
Proof.
  intros Hl. revert b. induction Hl as [|a l <- Hl IH]; intros b; [reflexivity|].
  cbn [fold_left]. rewrite IH. unfold Ssh.runDrain.
  destruct (Ssh.destroyed (Ssh.backendSocket b)) eqn:E.
  - rewrite E. by destruct l.
  - cbn. rewrite E. by destruct l.
Qed.

Lemma bridge_runDrain_stream (l : list Ssh.DrainAction) (b : Ssh.Bridge) :
  Forall (eq Ssh.ResumeStream) l ->
  fold_left Ssh.runDrain l b
  = match l with
    | [] => b
    | _ :: _ =>
        if Ssh.destroyed (Ssh.stream b) then b
        else Ssh.set_stream (Ssh.set_paused false (Ssh.stream b)) b
    end.
Proof.
  intros Hl. revert b. induction Hl as [|a l <- Hl IH]; intros b; [reflexivity|].
  cbn [fold_left]. rewrite IH. unfold Ssh.runDrain.
  destruct (Ssh.destroyed (Ssh.stream b)) eqn:E.
  - rewrite E. by destruct l.
  - cbn. rewrite E. by destruct l.
Qed.

Lemma snoc_not_nil {A : Type} (l : list A) (a : A) : (l ++ [a])%list <> [].
Proof. by destruct l. Qed.

Lemma bridgeArmed_step (b : Ssh.Bridge) (ev : Ssh.BridgeEvent) :
  bridgeArmed b -> bridgeArmed (Ssh.bridge_on b ev).
Proof.
  intros (Hs & Fb & Fs & Ps & Pb). unfold bridgeArmed.
  destruct ev; cbn [Ssh.bridge_on].
  - unfold Ssh.stream_on_data, Ssh.write. cbn.
    destruct (negb _ || _); cbn; [done|].
    destruct (_ <? _); cbn; [done|].
    repeat split; try done.
    + apply Forall_app. split; [exact Fb | by constructor].
    + intros _. apply snoc_not_nil.
  - unfold Ssh.backend_on_data, Ssh.write. cbn.
    destruct (negb _ || _); cbn; [done|].
    destruct (_ <? _); cbn; [done|].
    repeat split; try done.
    + apply Forall_app. split; [exact Fs | by constructor].
    + intros _ _. apply snoc_not_nil.
  - unfold Ssh.stream_on_drain. rewrite (bridge_runDrain_backend _ _ Fs).
    destruct (Ssh.onceDrain (Ssh.stream b)) as [|a l] eqn:El; cbn.
    + repeat split; try done; try (intros Hp Hd; by apply (Pb Hp Hd)).
    + destruct (Ssh.destroyed (Ssh.backendSocket b)) eqn:E; cbn; rewrite ?E;
        repeat split; try done.
  - unfold Ssh.backend_on_drain. rewrite (bridge_runDrain_stream _ _ Fb).
    destruct (Ssh.onceDrain (Ssh.backendSocket b)) as [|a l] eqn:El; cbn.
    + repeat split; try done; try (intros Hp; by apply (Ps Hp)).
    + rewrite Hs. cbn. repeat split; try done.
  - cbn. done.
  - cbn. done.
  - unfold Ssh.stream_on_close.
    destruct (Ssh.destroyed (Ssh.backendSocket b)) eqn:E; cbn; rewrite ?E; done.
  - unfold Ssh.stream_on_error.
    destruct (Ssh.destroyed (Ssh.backendSocket b)) eqn:E; cbn; rewrite ?E; done.
Qed.

Lemma bridgeArmed_run (evs : list Ssh.BridgeEvent) (b : Ssh.Bridge) :
  bridgeArmed b -> bridgeArmed (Ssh.bridge_run b evs).
Proof.
  unfold Ssh.bridge_run. revert b.
  induction evs as [|ev evs IH]; intros b Hb; [exact Hb|].
  cbn [fold_left]. apply IH. by apply bridgeArmed_step.
Qed.

Lemma bridgeArmed_shell (cfg : Config) (hwm : Z) : bridgeArmed (Ssh.shell cfg hwm).
Proof. unfold bridgeArmed. cbn. repeat split; try constructor; discriminate. Qed.

Lemma Forall_eq_elem {A : Type} (a : A) (l : list A) :
  Forall (eq a) l -> l <> [] -> a ∈ l.
Proof. intros Hl Hn. destruct Hl as [|x l <- _]; [done|]. apply list_elem_of_here. Qed.

(** X24.  No lost wake-up in the SSH bridge.  In every state a shell
    bridge can reach, a paused SSH stream has its resume listener waiting
    on the backend socket, and the next ['drain'] of the backend socket
    resumes it; likewise a paused backend socket that has not been
    destroyed has its listener waiting on the stream, and the stream's
    next ['drain'] resumes it. *)
Theorem bridge_no_lost_wakeup (cfg : Config) (hwm : Z) (evs : list Ssh.BridgeEvent) :
  let b := Ssh.bridge_run (Ssh.shell cfg hwm) evs in
  (Ssh.paused (Ssh.stream b) = true ->
   Ssh.ResumeStream ∈ Ssh.onceDrain (Ssh.backendSocket b) /\
   Ssh.paused (Ssh.stream (Ssh.bridge_on b Ssh.BackendDrain)) = false) /\
  (Ssh.paused (Ssh.backendSocket b) = true ->
   Ssh.destroyed (Ssh.backendSocket b) = false ->
   Ssh.ResumeBackend ∈ Ssh.onceDrain (Ssh.stream b) /\
   Ssh.paused (Ssh.backendSocket (Ssh.bridge_on b Ssh.StreamDrain)) = false).
Proof.
  intros b.
  destruct (bridgeArmed_run evs _ (bridgeArmed_shell cfg hwm)) as (Hs & Fb & Fs & Ps & Pb).
  fold b in Hs, Fb, Fs, Ps, Pb. split.
  - intros Hp. split; [by apply Forall_eq_elem; [|apply Ps]|].
    cbn [Ssh.bridge_on]. unfold Ssh.backend_on_drain.
    rewrite (bridge_runDrain_stream _ _ Fb).
    destruct (Ssh.onceDrain (Ssh.backendSocket b)) eqn:El; [by destruct (Ps Hp)|].
    cbn. rewrite Hs. reflexivity.
  - intros Hp Hd. split; [by apply Forall_eq_elem; [|apply Pb]|].
    cbn [Ssh.bridge_on]. unfold Ssh.stream_on_drain.
    rewrite (bridge_runDrain_backend _ _ Fs).
    destruct (Ssh.onceDrain (Ssh.stream b)) eqn:El; [by destruct (Pb Hp Hd)|].
    cbn. rewrite Hd. reflexivity.
Qed.

(** With a 4-byte high-water mark, a 5-byte chunk from the client pauses
    the stream; the backend's drain resumes it. *)
Lemma bridge_no_lost_wakeup_witness :
  Ssh.paused (Ssh.stream (Ssh.bridge_run (Ssh.shell cfgDemo 4)
                            [Ssh.StreamData (repeat Byte.x41 5)])) = true /\
  Ssh.paused (Ssh.stream (Ssh.bridge_on
                            (Ssh.bridge_run (Ssh.shell cfgDemo 4)
                               [Ssh.StreamData (repeat Byte.x41 5)])
                            Ssh.BackendDrain)) = false.
Proof.
  split; [reflexivity|].
  destruct (bridge_no_lost_wakeup cfgDemo 4 [Ssh.StreamData (repeat Byte.x41 5)])
    as [Hstream _].
  apply Hstream. reflexivity.
Defined.

Lemma pump_runDrain_backend (l : list Ssh.DrainAction) (p : Pump.ProxyConnection) :
  Forall (eq Ssh.ResumeBackend) l ->
  fold_left Pump.runDrain l p
  = match l with
    | [] => p
    | _ :: _ => Pump.runDrain p Ssh.ResumeBackend
    end.
Proof.
  intros Hl. revert p. induction Hl as [|a l <- Hl IH]; intros p; [reflexivity|].
  cbn [fold_left]. rewrite IH. by destruct l.
Qed.

Lemma pump_runDrain_client (l : list Ssh.DrainAction) (p : Pump.ProxyConnection) :
  Forall (eq Ssh.ResumeStream) l ->
  fold_left Pump.runDrain l p
  = match l with
    | [] => p
    | _ :: _ => Pump.runDrain p Ssh.ResumeStream
    end.
Proof.
  intros Hl. revert p. induction Hl as [|a l <- Hl IH]; intros p; [reflexivity|].
  cbn [fold_left]. rewrite IH. by destruct l.
Qed.

Lemma pumpArmed_step (p : Pump.ProxyConnection) (ev : Pump.PumpEvent) :
  pumpArmed p -> pumpArmed (Pump.pump_on p ev).
Proof.
  intros (Fb & Fc & Pc & Pb). unfold pumpArmed.
  destruct ev; cbn [Pump.pump_on].
  - unfold Pump.client_on_data, Ssh.write.
    destruct (negb _); cbn; [|done].
    destruct (_ <? _); cbn; [done|].
    repeat split; try done.
    + apply Forall_app. split; [exact Fb | by constructor].
    + intros _. apply snoc_not_nil.
  - unfold Pump.backend_on_data, Ssh.write.
    destruct (negb _); cbn; [|done].
    destruct (_ <? _); cbn; [done|].
    repeat split; try done.
    + apply Forall_app. split; [exact Fc | by constructor].
    + intros _. apply snoc_not_nil.
  - unfold Pump.client_on_drain. rewrite (pump_runDrain_backend _ _ Fc).
    destruct (Ssh.onceDrain (Pump.clientSocket p)) as [|a l] eqn:El; cbn.
    + repeat split; try done; try (intros Hp; by apply (Pb Hp)).
    + repeat split; try done.
  - unfold Pump.backend_on_drain. rewrite (pump_runDrain_client _ _ Fb).
    destruct (Ssh.onceDrain (Pump.backendSocket p)) as [|a l] eqn:El; cbn.
    + repeat split; try done; try (intros Hp; by apply (Pc Hp)).
    + repeat split; try done.
  - unfold Pump.cleanup. destruct (Pump.isCleanedUp p); cbn; [done|].
    destruct (Ssh.destroyed (Pump.clientSocket p));
      destruct (Ssh.destroyed (Pump.backendSocket p)); cbn; done.
  - unfold Pump.cleanup. destruct (Pump.isCleanedUp p); cbn; [done|].
    destruct (Ssh.destroyed (Pump.clientSocket p));
      destruct (Ssh.destroyed (Pump.backendSocket p)); cbn; done.
  - unfold Pump.cleanup. destruct (Pump.isCleanedUp p); cbn; [done|].
    destruct (Ssh.destroyed (Pump.clientSocket p));
      destruct (Ssh.destroyed (Pump.backendSocket p)); cbn; done.
  - unfold Pump.cleanup. destruct (Pump.isCleanedUp p); cbn; [done|].
    destruct (Ssh.destroyed (Pump.clientSocket p));
      destruct (Ssh.destroyed (Pump.backendSocket p)); cbn; done.
  - cbn. done.
Qed.

Lemma pumpArmed_run (evs : list Pump.PumpEvent) (p : Pump.ProxyConnection) :
  pumpArmed p -> pumpArmed (Pump.pump_run p evs).
Proof.
  unfold Pump.pump_run. revert p.
  induction evs as [|ev evs IH]; intros p Hp; [exact Hp|].
  cbn [fold_left]. apply IH. by apply pumpArmed_step.
Qed.

(** X22.  No lost wake-up in the TCP pump: in every state a proxied
    connection can reach, a paused socket has its resume listener waiting
    on the other socket, and that socket's next ['drain'] resumes it. *)
Theorem pump_no_lost_wakeup (hwm : Z) (evs : list Pump.PumpEvent) :
  let p := Pump.pump_run (Pump.connected hwm) evs in
  (Ssh.paused (Pump.clientSocket p) = true ->
   Ssh.ResumeStream ∈ Ssh.onceDrain (Pump.backendSocket p) /\
   Ssh.paused (Pump.clientSocket (Pump.pump_on p Pump.BackendDrain)) = false) /\
  (Ssh.paused (Pump.backendSocket p) = true ->
   Ssh.ResumeBackend ∈ Ssh.onceDrain (Pump.clientSocket p) /\
   Ssh.paused (Pump.backendSocket (Pump.pump_on p Pump.ClientDrain)) = false).
Proof.
  intros p.
  assert (H0 : pumpArmed (Pump.connected hwm))
    by (unfold pumpArmed; cbn; repeat split; try constructor; discriminate).
  destruct (pumpArmed_run evs _ H0) as (Fb & Fc & Pc & Pb).
  fold p in Fb, Fc, Pc, Pb. split.
  - intros Hp. split; [by apply Forall_eq_elem; [|apply Pc]|].
    cbn [Pump.pump_on]. unfold Pump.backend_on_drain.
    rewrite (pump_runDrain_client _ _ Fb).
    destruct (Ssh.onceDrain (Pump.backendSocket p)) eqn:El; [by destruct (Pc Hp)|].
    reflexivity.
  - intros Hp. split; [by apply Forall_eq_elem; [|apply Pb]|].
    cbn [Pump.pump_on]. unfold Pump.client_on_drain.
    rewrite (pump_runDrain_backend _ _ Fc).
    destruct (Ssh.onceDrain (Pump.clientSocket p)) eqn:El; [by destruct (Pb Hp)|].
    reflexivity.
Qed.

Lemma pump_no_lost_wakeup_witness :
  Ssh.paused (Pump.backendSocket (Pump.pump_run (Pump.connected 4)
                                    [Pump.BackendData (repeat Byte.x41 5)])) = true /\
  Ssh.paused (Pump.backendSocket (Pump.pump_on
                                    (Pump.pump_run (Pump.connected 4)
                                       [Pump.BackendData (repeat Byte.x41 5)])
                                    Pump.ClientDrain)) = false.
Proof.
  split; [reflexivity|].
  destruct (pump_no_lost_wakeup 4 [Pump.BackendData (repeat Byte.x41 5)])
    as [_ Hbackend].
  apply Hbackend. reflexivity.
Defined.

End BackPressure.

(* ===================================================================== *)
(** ** SSH sessions and the connection counter, continued *)
(* ===================================================================== *)

Section SessionsAndCounter.

Lemma session_fold_tornDown (cfg : Config) (hwm : Z) (rs : list Ssh.SessionRequest)
    (s : Ssh.Session) :
  Ssh.tornDown s = true -> fold_left (Ssh.session_on cfg hwm) rs s = s.
Proof.
  intros Ht. induction rs as [|r rs IH]; [reflexivity|].
  cbn [fold_left]. unfold Ssh.session_on at 2. rewrite Ht. exact IH.
Qed.

Lemma session_fold_served (cfg : Config) (hwm : Z) (rs : list Ssh.SessionRequest)
    (s : Ssh.Session) :
  Ssh.tornDown s = false ->
  let s' := fold_left (Ssh.session_on cfg hwm) rs s in
  Ssh.shells s'
  = (Ssh.shells s ++ repeat (Ssh.shell cfg hwm) (acceptedShells (served rs)))%list /\
  Ssh.execRejected s' = (Ssh.execRejected s + execsWithReply (served rs))%nat /\
  Ssh.tornDown s' = existsb throws rs.
Proof.
  revert s. induction rs as [|r rs IH]; intros s Ht; cbn zeta.
  { cbn. rewrite app_nil_r, Nat.add_0_r. done. }
  cbn [fold_left].
  destruct (throws r) eqn:Er.
  - assert (E : Ssh.session_on cfg hwm s r = Ssh.throwTypeError s).
    { unfold Ssh.session_on. rewrite Ht.
      destruct r as [n v | [] t | [] c w | [] | [] c]; try discriminate; reflexivity. }
    rewrite E, session_fold_tornDown by reflexivity.
    cbn [served existsb]. rewrite Er. cbn. rewrite app_nil_r, Nat.add_0_r. done.
  - assert (E : Ssh.tornDown (Ssh.session_on cfg hwm s r) = false /\
                Ssh.shells (Ssh.session_on cfg hwm s r)
                = (Ssh.shells s
                   ++ repeat (Ssh.shell cfg hwm) (if isAcceptedShell r then 1 else 0))%list /\
                Ssh.execRejected (Ssh.session_on cfg hwm s r)
                = (Ssh.execRejected s + if isExecWithReply r then 1 else 0)%nat).
    { unfold Ssh.session_on. rewrite Ht.
      destruct r as [n v | [] t | [] c w | [] | [] c]; try discriminate; cbn;
        rewrite ?app_nil_r, ?Nat.add_0_r, ?Nat.add_1_r; done. }
    destruct E as (E1 & E2 & E3).
    destruct (IH _ E1) as (H1 & H2 & H3). cbn zeta in H1, H2, H3.
    rewrite H1, H2, H3, E2, E3. cbn [served existsb]. rewrite Er. cbn [orb].
    unfold acceptedShells, execsWithReply. cbn [List.filter].
    destruct (isAcceptedShell r), (isExecWithReply r); cbn [length repeat];
      rewrite <- ?app_assoc, ?app_nil_r, ?Nat.add_0_r; cbn [app];
      repeat split; try done; lia.
Qed.

(** X25.  A session serves the requests that come before the first one
    whose listener throws, and nothing after it.  It opens one bridge per
    shell request among them whose [accept()] gave a channel, each a
    fresh bridge to [backendHost:backendPort], with or without a PTY
    request before it; it rejects each exec request among them; no other
    request opens a bridge.  It is torn down exactly when some request's
    listener throws.  A window-change request that came without a reply
    function is such a request (the listener takes ssh2's first argument,
    [accept], for the [info] object): whatever the session did before, it
    is torn down there, and nothing the client sends afterwards is
    served. *)
Theorem session_one_bridge_per_shell (cfg : Config) (hwm : Z)
    (rs : list Ssh.SessionRequest) :
  let s := Ssh.session_run cfg hwm rs in
  Ssh.shells s = repeat (Ssh.shell cfg hwm) (acceptedShells (served rs)) /\
  Ssh.execRejected s = execsWithReply (served rs) /\
  Ssh.tornDown s = existsb throws rs /\
  (forall cols rows rest,
      Ssh.session_run cfg hwm (rs ++ Ssh.WindowChange false cols rows :: rest)
      = Ssh.throwTypeError s).
Proof.
  cbn zeta. unfold Ssh.session_run.
  destruct (session_fold_served cfg hwm rs Ssh.newSession eq_refl) as (H1 & H2 & H3).
  cbn zeta in H1, H2, H3. cbn in H1, H2.
  split; [exact H1|]. split; [exact H2|]. split; [exact H3|].
  intros cols rows rest. rewrite fold_left_app. cbn [fold_left].
  set (s := fold_left (Ssh.session_on cfg hwm) rs Ssh.newSession).
  destruct (Ssh.tornDown s) eqn:Ht.
  - unfold Ssh.session_on at 2. rewrite Ht.
    rewrite session_fold_tornDown by exact Ht.
    unfold Ssh.throwTypeError. destruct s; cbn in *. by subst.
  - unfold Ssh.session_on at 2. rewrite Ht.
    by rewrite session_fold_tornDown.
Qed.

(** X26.  The connection counter never goes negative and does not leak:
    in every reachable state it is at least 0, and once every socket the
    listener produced has closed it is back at 0. *)
Theorem counter_returns_to_zero (cfg : Config) (g : Proxy.Singletons) (w : Server.World) :
  Server.reachable cfg g w ->
  0 <= Server.activeConnections w /\
  (map_Forall (fun _ s => Server.closed s = true) (Server.sockets w) ->
   Server.activeConnections w = 0).
Proof.
  intros Hr. rewrite (counter_counts_open_sockets cfg g w Hr). unfold Server.openCounted.
  split; [lia|]. intros Hall.
  replace (filter Server.counted (Server.sockets w)) with (∅ : gmap nat Server.ClientSocket).
  { by rewrite map_size_empty. }
  symmetry. apply map_empty_filter. intros id s Hs [_ Hc]. cbn in Hc.
  rewrite (Hall id s Hs) in Hc. discriminate.
Qed.

Lemma counter_returns_to_zero_witness :
  Server.activeConnections worldAllClosed = 0.
Proof.
  apply (counter_returns_to_zero cfgOne (Proxy.mkSingletons (Some filterDemo) (Some geoDemo))).
  - unfold worldAllClosed, worldTwoArrivals.
    repeat apply Server.reachable_fire; try apply Server.reachable_initial.
    + reflexivity.
    + vm_compute. reflexivity.
    + eexists. split; [vm_compute; reflexivity | reflexivity].
    + eexists. split; [vm_compute; reflexivity | reflexivity].
  - apply (bool_decide_unpack _). vm_compute. reflexivity.
Defined.

(** X27.  With a connection limit of zero or less the listener serves
    nobody: the counter stays at 0 and every socket is ended at once,
    without [handleConnection] being called for it. *)
Theorem nonpositive_limit_refuses_all (cfg : Config) (g : Proxy.Singletons)
    (w : Server.World) (limit : Z) :
  maxConnections cfg = JS.Num limit -> limit <= 0 ->
  Server.reachable cfg g w ->
  Server.activeConnections w = 0 /\
  map_Forall (fun _ s => Server.handled s = None /\ Server.endCalled s = true /\
                         Server.countsClose s = false) (Server.sockets w).
Proof.
  intros Hmax Hle. induction 1 as [|w ev Hr [IHc IHs] Hen]; [split; [done|]|].
  { cbn. apply map_Forall_empty. }
  destruct ev as [id addr tk | id | addr tk | now]; cbn [Server.fire Server.enabled] in *.
  - rewrite handle_at_limit by (apply limit_check_fires; exists limit; split; [done | lia]).
    cbn. split; [exact IHc|].
    apply map_Forall_insert_2; [done | exact IHs].
  - destruct Hen as (s & Hs & Ho). unfold Server.onClose. rewrite Hs. cbn.
    destruct (IHs id s Hs) as (H1 & H2 & H3). rewrite H3. split; [exact IHc|].
    apply map_Forall_insert_2; [done | exact IHs].
  - unfold Server.onSshClient. destruct (Ssh.onClient _ _ _). by split.
  - by split.
Qed.

Lemma nonpositive_limit_witness :
  Server.activeConnections worldRefused = 0 /\
  Server.sockets worldRefused !! 1%nat = Some (Server.turnedAway (Some "198.51.100.9")).
Proof.
  destruct (nonpositive_limit_refuses_all cfgZero
              (Proxy.mkSingletons (Some filterDemo) (Some geoDemo)) worldRefused 0)
    as [Hc _].
  - reflexivity.
  - lia.
  - unfold worldRefused. apply Server.reachable_fire; [apply Server.reachable_initial|].
    reflexivity.
  - split; [exact Hc | vm_compute; reflexivity].
Defined.

End SessionsAndCounter.

(* ===================================================================== *)
(** ** Logger and configuration *)
(* ===================================================================== *)

Section LoggerAndConfig.
Import JS.

Lemma currentLevel_cases (logLevel : string) :
  Logger.currentLevel logLevel = Logger.VInherited \/
  exists z, Logger.currentLevel logLevel = Logger.VNum z /\ 1 <= z.
Proof.
  unfold Logger.currentLevel, Logger.LOG_LEVELS.
  destruct (String.eqb logLevel "debug"); [right; exists 1; by cbn|].
  destruct (String.eqb logLevel "info"); [right; exists 1; by cbn|].
  destruct (String.eqb logLevel "warn"); [right; exists 2; by cbn|].
  destruct (String.eqb logLevel "error"); [right; exists 3; by cbn|].
  destruct (existsb _ _); [left; by cbn|].
  right; exists 1; by cbn.
Qed.

(** X28.  Debug output cannot be switched on.  Whatever [LOG_LEVEL] is
    set to, [logger.debug] prints nothing: the level [debug] has the
    number 0, which the [||] in the computation of [currentLevel] treats
    as missing, so [LOG_LEVEL=debug] gives the same threshold as [info]
    (and so does every name that is not a level). *)
Theorem debug_is_never_logged (logLevel timestamp msg : string) (data : option string) :
  Logger.debug logLevel timestamp msg data = None /\
  Logger.currentLevel "debug" = Logger.currentLevel "info" /\
  (Logger.LOG_LEVELS logLevel = Logger.VUndefined ->
   Logger.currentLevel logLevel = Logger.currentLevel "info") /\
  (Logger.LOG_LEVELS logLevel <> Logger.VInherited ->
   Logger.error logLevel timestamp msg data <> None).
Proof.
  split; [|split; [reflexivity|split]].
  - unfold Logger.debug, Logger.log.
    destruct (currentLevel_cases logLevel) as [-> | (z & -> & Hz)]; [reflexivity|].
    cbn. replace (z <=? 0) with false by (symmetry; apply Z.leb_gt; lia). reflexivity.
  - intros H. unfold Logger.currentLevel. rewrite H. reflexivity.
  - intros H. unfold Logger.error, Logger.log, Logger.currentLevel.
    revert H. unfold Logger.LOG_LEVELS.
    destruct (String.eqb logLevel "debug"); [by destruct data as [[|]|]|].
    destruct (String.eqb logLevel "info"); [by destruct data as [[|]|]|].
    destruct (String.eqb logLevel "warn"); [by destruct data as [[|]|]|].
    destruct (String.eqb logLevel "error"); [by destruct data as [[|]|]|].
    destruct (existsb _ _); [done|]. by destruct data as [[|]|].
Qed.

Lemma debug_is_never_logged_witness :
  Logger.currentLevel "verbose" = Logger.VNum 1 /\
  Logger.error "verbose" "2024-01-01T00:00:00.000Z" "Server error:" (Some "EADDRINUSE")
  <> None.
Proof.
  destruct (debug_is_never_logged "verbose" "2024-01-01T00:00:00.000Z" "Server error:"
              (Some "EADDRINUSE")) as (_ & _ & Hfallback & Herr).
  split.
  - rewrite Hfallback; reflexivity.
  - apply Herr. discriminate.
Defined.

Lemma orDefault_nonempty (v : option string) (d : string) :
  d <> EmptyString -> ConfigJs.orDefault v d <> EmptyString.
Proof.
  intros Hd. unfold ConfigJs.orDefault. destruct v as [s|]; [|exact Hd].
  destruct (String.eqb s EmptyString) eqn:E; [exact Hd|]. by apply String.eqb_neq.
Qed.

Lemma lt_within_lo (n : number) (lo : Z) :
  ConfigJs.lt n (Num lo) = false <-> ConfigJs.within lo None n.
Proof.
  destruct n as [z|]; cbn; [|done]. rewrite Z.ltb_ge. tauto.
Qed.

Lemma port_within (n : number) :
  ConfigJs.lt n (Num 1) || ConfigJs.gt n (Num 65535) = false
  <-> ConfigJs.within 1 (Some 65535) n.
Proof.
  destruct n as [z|]; cbn; [|done].
  rewrite orb_false_iff, !Z.ltb_ge. tauto.
Qed.

Lemma pushIf_length (c : bool) (msg : string) (l : list string) :
  length (ConfigJs.pushIf c msg l) = (length l + if c then 1 else 0)%nat.
Proof. destruct c; cbn; [by rewrite length_app | lia]. Qed.

(** X29.  What start-up validation accepts.  [validateConfig] returns
    [true] exactly when each of the four numeric settings it looks at is
    in range or is not a number at all (a value [parseInt] cannot read
    passes every comparison); the check on [backendHost] can never fail,
    because an empty or missing [BACKEND_HOST] has already been replaced
    by the default. *)
Theorem validateConfig_accepts (env : gmap string string) :
  let c := ConfigJs.load env in
  (ConfigJs.validateConfig c = inr true <->
     ConfigJs.within 1 (Some 65535) (ConfigJs.listenPort c) /\
     ConfigJs.within 1 (Some 65535) (ConfigJs.backendPort c) /\
     ConfigJs.within 1 None (ConfigJs.maxConnectionsPerWindow c) /\
     ConfigJs.within 1000 None (ConfigJs.rateLimitWindowMs c)) /\
  ConfigJs.backendHost c <> EmptyString /\
  "BACKEND_HOST is required" ∉ ConfigJs.validationErrors c.
Proof.
  intros c.
  assert (Hhost : ConfigJs.backendHost c <> EmptyString)
    by (apply orDefault_nonempty; discriminate).
  assert (Hh : String.eqb (ConfigJs.backendHost c) EmptyString = false)
    by (by apply String.eqb_neq).
  split; [|split; [exact Hhost|]].
  - unfold ConfigJs.validateConfig, ConfigJs.validationErrors. rewrite Hh.
    rewrite <- port_within, <- port_within, <- !lt_within_lo.
    rewrite !pushIf_length. cbn [ConfigJs.pushIf length].
    destruct (ConfigJs.lt (ConfigJs.listenPort c) (Num 1)
              || ConfigJs.gt (ConfigJs.listenPort c) (Num 65535));
      destruct (ConfigJs.lt (ConfigJs.backendPort c) (Num 1)
                || ConfigJs.gt (ConfigJs.backendPort c) (Num 65535));
      destruct (ConfigJs.lt (ConfigJs.maxConnectionsPerWindow c) (Num 1));
      destruct (ConfigJs.lt (ConfigJs.rateLimitWindowMs c) (Num 1000));
      cbn; split; (try done); (try by intros (? & ? & ? & ?)).
  - unfold ConfigJs.validationErrors. rewrite Hh. cbn [ConfigJs.pushIf].
    unfold ConfigJs.pushIf.
    repeat match goal with |- context [if ?b then _ else _] => destruct b end;
      cbn; rewrite ?elem_of_cons, ?elem_of_nil; intros H;
      repeat (destruct H as [H|H]; [discriminate|]); done.
Qed.

(** An environment whose [LISTEN_PORT] is not a number is accepted. *)
Lemma validateConfig_accepts_witness :
  ConfigJs.validateConfig (ConfigJs.load {["LISTEN_PORT" := "telnet"]}) = inr true.
Proof.
  apply (validateConfig_accepts {["LISTEN_PORT" := "telnet"]}).
  vm_compute. done.
Defined.

End LoggerAndConfig.

(* ===================================================================== *)
(** ** BLOCKED_COUNTRIES *)
(* ===================================================================== *)

Section BlockedCountries.
Import JS.

Lemma sapp_cons (c : ascii) (s t : string) : String c s +:+ t = String c (s +:+ t).
Proof. reflexivity. Qed.

Lemma sapp_nil_l (t : string) : EmptyString +:+ t = t.
Proof. reflexivity. Qed.

Lemma sapp_nil_r (s : string) : s +:+ EmptyString = s.
Proof. induction s as [|c s IH]; [reflexivity|]. by rewrite sapp_cons, IH. Qed.

Lemma sapp_assoc (a b c : string) : (a +:+ b) +:+ c = a +:+ (b +:+ c).
Proof. induction a as [|x a IH]; [reflexivity|]. by rewrite !sapp_cons, IH. Qed.

Lemma rev_string_acc (acc s : string) :
  rev_string acc s = rev_string EmptyString s +:+ acc.
Proof.
  revert acc. induction s as [|c s IH]; intros acc; [reflexivity|].
  cbn [rev_string]. rewrite IH, (IH (String c EmptyString)).
  by rewrite sapp_assoc.
Qed.

Lemma rev_string_rev_string (a b s : string) :
  rev_string a (rev_string b s) = rev_string (s +:+ a) b.
Proof.
  revert b. induction s as [|c s IH]; intros b; [reflexivity|].
  cbn [rev_string]. rewrite IH. reflexivity.
Qed.

Lemma rev_string_involutive (s : string) :
  rev_string EmptyString (rev_string EmptyString s) = s.
Proof. rewrite rev_string_rev_string. cbn. apply sapp_nil_r. Qed.

Lemma rev_string_app (a b : string) :
  rev_string EmptyString (a +:+ b)
  = rev_string EmptyString b +:+ rev_string EmptyString a.
Proof.
  induction a as [|c a IH]; [by rewrite sapp_nil_l, sapp_nil_r|].
  rewrite sapp_cons. cbn [rev_string].
  rewrite (rev_string_acc (String c EmptyString) (a +:+ b)), IH.
  rewrite (rev_string_acc (String c EmptyString) a). by rewrite sapp_assoc.
Qed.

Lemma skip_spaces_head_ok (s : string) : head_ok (skip_spaces s) = true.
Proof.
  induction s as [|c s IH]; [reflexivity|]. cbn [skip_spaces].
  destruct (is_space c) eqn:E; [exact IH|]. cbn. by rewrite E.
Qed.

Lemma skip_spaces_fixed (s : string) : head_ok s = true -> skip_spaces s = s.
Proof.
  destruct s as [|c s]; [reflexivity|]. cbn. by destruct (is_space c).
Qed.

Lemma skip_spaces_suffix (s : string) : exists pre, s = pre +:+ skip_spaces s.
Proof.
  induction s as [|c s [pre IH]]; [by exists EmptyString|]. cbn [skip_spaces].
  destruct (is_space c).
  - exists (String c pre). by rewrite sapp_cons, <- IH.
  - by exists EmptyString.
Qed.

Lemma head_ok_app_l (a b : string) : head_ok (a +:+ b) = true -> head_ok a = true.
Proof. by destruct a. Qed.

Lemma trim_head_ok (s : string) : head_ok (trim s) = true.
Proof.
  unfold trim. set (t := skip_spaces s).
  destruct (skip_spaces_suffix (rev_string EmptyString t)) as [pre Hpre].
  assert (Ht : t = rev_string EmptyString (skip_spaces (rev_string EmptyString t))
                   +:+ rev_string EmptyString pre).
  { rewrite <- rev_string_app, <- Hpre. symmetry. apply rev_string_involutive. }
  apply (head_ok_app_l _ (rev_string EmptyString pre)). rewrite <- Ht.
  apply skip_spaces_head_ok.
Qed.

Lemma trim_idempotent (s : string) : trim (trim s) = trim s.
Proof.
  pose proof (trim_head_ok s) as Hh. unfold trim at 1.
  rewrite (skip_spaces_fixed _ Hh). unfold trim.
  rewrite rev_string_involutive.
  by rewrite (skip_spaces_fixed _ (skip_spaces_head_ok _)).
Qed.

Lemma upper_char_idempotent (c : ascii) : upper_char (upper_char c) = upper_char c.
Proof. by destruct c as [[] [] [] [] [] [] [] []]. Qed.

Lemma is_space_upper_char (c : ascii) : is_space (upper_char c) = is_space c.
Proof. by destruct c as [[] [] [] [] [] [] [] []]. Qed.

Lemma upper_char_comma (c : ascii) :
  Ascii.eqb (upper_char c) ","%char = Ascii.eqb c ","%char.
Proof. by destruct c as [[] [] [] [] [] [] [] []]. Qed.

Lemma toUpperCase_idempotent (s : string) : toUpperCase (toUpperCase s) = toUpperCase s.
Proof.
  induction s as [|c s IH]; [reflexivity|]. cbn. by rewrite upper_char_idempotent, IH.
Qed.

Lemma skip_spaces_toUpperCase (s : string) :
  skip_spaces (toUpperCase s) = toUpperCase (skip_spaces s).
Proof.
  induction s as [|c s IH]; [reflexivity|]. cbn. rewrite is_space_upper_char.
  by destruct (is_space c).
Qed.

Lemma rev_string_toUpperCase (acc s : string) :
  rev_string (toUpperCase acc) (toUpperCase s) = toUpperCase (rev_string acc s).
Proof.
  revert acc. induction s as [|c s IH]; intros acc; [reflexivity|].
  cbn [toUpperCase rev_string]. apply (IH (String c acc)).
Qed.

Lemma trim_toUpperCase (s : string) : trim (toUpperCase s) = toUpperCase (trim s).
Proof.
  unfold trim. rewrite skip_spaces_toUpperCase.
  rewrite (rev_string_toUpperCase EmptyString), skip_spaces_toUpperCase.
  apply (rev_string_toUpperCase EmptyString).
Qed.

Lemma no_char_toUpperCase_comma (s : string) :
  no_char "," (toUpperCase s) = no_char "," s.
Proof.
  induction s as [|c s IH]; [reflexivity|]. cbn. by rewrite upper_char_comma, IH.
Qed.

Lemma no_char_skip_spaces (c : ascii) (s : string) :
  no_char c s = true -> no_char c (skip_spaces s) = true.
Proof.
  induction s as [|a s IH]; [done|]. cbn [skip_spaces]. intros H.
  destruct (is_space a); [|exact H]. apply IH. cbn in H.
  by apply andb_true_iff in H as [_ H].
Qed.

Lemma no_char_rev_string (c : ascii) (acc s : string) :
  no_char c (rev_string acc s) = no_char c acc && no_char c s.
Proof.
  revert acc. induction s as [|a s IH]; intros acc; cbn [rev_string no_char].
  - by rewrite andb_true_r.
  - rewrite IH. cbn [no_char]. by destruct (negb _), (no_char c acc), (no_char c s).
Qed.

Lemma no_char_trim (c : ascii) (s : string) :
  no_char c s = true -> no_char c (trim s) = true.
Proof.
  intros H. unfold trim. rewrite no_char_rev_string. cbn.
  apply no_char_skip_spaces. rewrite no_char_rev_string. cbn.
  by apply no_char_skip_spaces.
Qed.

Lemma split_pieces_no_sep (sep : ascii) (s : string) :
  Forall (fun p => no_char sep p = true) (split sep s).
Proof.
  induction s as [|c s IH]; [by repeat constructor|]. cbn [split].
  destruct (Ascii.eqb c sep) eqn:E; [by constructor|].
  destruct (split sep s) as [|h t]; [repeat constructor; cbn; by rewrite E|].
  inversion IH as [|? ? Hh Ht]; subst. constructor; [|exact Ht].
  cbn. by rewrite E, Hh.
Qed.

(** X30.  The list of blocked countries read from [BLOCKED_COUNTRIES].
    Its entries are exactly the comma-separated pieces of the variable,
    trimmed and put in upper case, the empty ones left out; so every
    entry is non-empty, is its own upper-case form, carries no white
    space at either end and no comma.  An unset or empty variable gives
    the empty list. *)
Theorem blockedCountries_entries (env : gmap string string) (code : string) :
  (code ∈ ConfigJs.blockedCountries (ConfigJs.load env) <->
   exists v piece, env !! "BLOCKED_COUNTRIES" = Some v /\ piece ∈ split "," v /\
                   code = toUpperCase (trim piece) /\ code <> EmptyString) /\
  (code ∈ ConfigJs.blockedCountries (ConfigJs.load env) ->
   code <> EmptyString /\ toUpperCase code = code /\ trim code = code /\
   no_char "," code = true).
Proof.
  assert (Hiff : code ∈ ConfigJs.blockedCountries (ConfigJs.load env) <->
   exists v piece, env !! "BLOCKED_COUNTRIES" = Some v /\ piece ∈ split "," v /\
                   code = toUpperCase (trim piece) /\ code <> EmptyString).
  { cbn [ConfigJs.load ConfigJs.blockedCountries]. unfold ConfigJs.parseBlockedCountries.
    destruct (env !! "BLOCKED_COUNTRIES") as [v|] eqn:Ev.
    2:{ split; [by intros ?%elem_of_nil | by intros (? & ? & ? & _)]. }
    destruct (String.eqb v EmptyString) eqn:Evn.
    { apply String.eqb_eq in Evn. subst v. split; [by intros ?%elem_of_nil|].
      intros (v & piece & [= <-] & Hp & -> & Hne). cbn in Hp.
      apply list_elem_of_singleton in Hp. subst piece. by destruct Hne. }
    rewrite list_elem_of_In, filter_In, <- list_elem_of_In, list_elem_of_fmap.
    split.
    - intros [(piece & -> & Hp) Hne]. exists v, piece. repeat split; try done.
      apply negb_true_iff in Hne. by apply String.eqb_neq.
    - intros (v' & piece & [= <-] & Hp & -> & Hne). split; [by exists piece|].
      apply negb_true_iff. by apply String.eqb_neq. }
  split; [exact Hiff|]. intros Hin.
  apply Hiff in Hin as (v & piece & _ & Hp & -> & Hne).
  split; [exact Hne|]. split; [apply toUpperCase_idempotent|]. split.
  - by rewrite trim_toUpperCase, trim_idempotent.
  - rewrite no_char_toUpperCase_comma. apply no_char_trim.
    pose proof (split_pieces_no_sep "," v) as Hall.
    rewrite Forall_forall in Hall. by apply Hall.
Qed.

Lemma blockedCountries_witness :
  ConfigJs.blockedCountries (ConfigJs.load {["BLOCKED_COUNTRIES" := "cn, ru ,,Kp"]})
  = ["CN"; "RU"; "KP"] /\
  trim "RU" = "RU".
Proof.
  split; [reflexivity|].
  destruct (blockedCountries_entries {["BLOCKED_COUNTRIES" := "cn, ru ,,Kp"]} "RU")
    as [_ Hinv].
  apply Hinv. apply (bool_decide_unpack _). vm_compute. reflexivity.
Defined.

End BlockedCountries.
